(** * Munchys: the simulation core of the arcade game

    A shallow embedding of the JavaScript sources

      - game/objects/effects.js          (particle emitters, [Burst], [BlastWave])
      - game/characters/obstacle.js      ([Obstacle], circle collision)
      - frontend/game/characters/player.js and its two older revisions
      - game/main.js                     ([Game.play], the per-frame step)

    JavaScript numbers are modelled as mathematical reals, which decides
    everything that follows from the shape of the code.  What turns on the
    rounding of IEEE doubles (the circle test near its boundary, the decay
    of the effects) is settled on a second reading of the code with the
    rounding in place, in [Rounded] and [Binary64]; NaN and the infinities
    are outside the model.  Objects mutated in
    place become records threaded through the functions that mutate them;
    canvas drawing is kept as a log of the particles handed to the draw
    routine.  The state of [Math.random] is threaded explicitly. *)

From Stdlib Require Import Reals Rgeom Lra Lia ZArith List Bool Arith.
From Equations Require Import Equations.
From Equations.Prop Require Import Logic.
From Stdlib Require String.
From Stdlib Require Floats.
Import ListNotations.

Set Implicit Arguments.
Open Scope R_scope.

(** ** JavaScript numbers *)

Module JS.

Definition number := R.

(** [x < y] and [x > y] as the booleans the interpreter branches on. *)
Definition lt (x y : number) : bool := if Rlt_dec x y then true else false.
Definition gt (x y : number) : bool := lt y x.

Definition Math_abs (x : number) : number := Rabs x.
Definition Math_sqrt (x : number) : number := sqrt x.

(** [Math.round] rounds half up: the largest integer below [x + 0.5]. *)
Definition Math_round (x : number) : Z := Int_part (x + / 2).

End JS.

(** ** Arrays mutated while they are traversed

    [for (let i = 0; i < xs.length; i++) { let x = xs[i]; ...; xs.splice(i, 1) ... }]
    is the loop shape of [Burst.tick], [BlastWave.tick] and of the effect and
    entity loops of [Game.play].  The body reads slot [i], mutates the object
    found there, and may splice the slot out; the index is incremented in
    either case and the bound [xs.length] is re-read at every test. *)

Section ForSplice.

Variables (A St : Type).

(** One pass of the loop body on the element of slot [i]: the state after
    the body, the mutated element, and whether [splice(i, 1)] was called. *)
Variable body : St -> A -> St * A * bool.

(** [xs.splice(i, 1)] *)
Definition splice1 (i : nat) (xs : list A) : list A :=
  firstn i xs ++ skipn (S i) xs.

(** in-place mutation of the object held in slot [i] *)
Definition assign (i : nat) (a : A) (xs : list A) : list A :=
  firstn i xs ++ a :: skipn (S i) xs.

Definition after_body (i : nat) (xs : list A) (r : St * A * bool) : list A :=
  if snd r then splice1 i xs else assign i (snd (fst r)) xs.

Equations? for_splice (i : nat) (xs : list A) (s : St) : list A * St
  by wf (length xs - i)%nat lt :=
  for_splice i xs s with inspect (nth_error xs i) := {
    | exist _ None _ := (xs, s);
    | exist _ (Some a) e :=
        for_splice (S i) (after_body i xs (body s a)) (fst (fst (body s a))) }.
Proof.
  assert (Hi : (i < length xs)%nat).
  { apply nth_error_Some. rewrite e. discriminate. }
  unfold after_body, splice1, assign.
  destruct (snd (body s a));
    rewrite length_app, length_firstn;
    [| change (length (?x :: ?l)) with (S (length l)) ];
    rewrite ?length_skipn; cbn [length]; rewrite ?length_skipn; lia.
Qed.

(** The same traversal by recursion on the part of the array not yet
    visited: when the head is spliced out, its successor slides into the
    slot just left and the incremented index steps over it.  The two are
    shown equal in [for_splice_sweep]. *)
Fixpoint sweep (rest : list A) (s : St) : list A * St :=
  match rest with
  | [] => ([], s)
  | a :: tl =>
      let r := body s a in
      if snd r then
        match tl with
        | [] => ([], fst (fst r))
        | b :: tl' =>
            let (out, s') := sweep tl' (fst (fst r)) in (b :: out, s')
        end
      else
        let (out, s') := sweep tl (fst (fst r)) in (snd (fst r) :: out, s')
  end.

End ForSplice.

(** ** Randomness

    [Math.random] is the only source of nondeterminism.  Its hidden state is
    made explicit: a computation that draws random numbers takes the state of
    the generator and returns the new one. *)

Definition Seed := nat.
Definition Rand (A : Type) : Type := Seed -> A * Seed.

Definition ret {A} (a : A) : Rand A := fun g => (a, g).
Definition bind {A B} (m : Rand A) (k : A -> Rand B) : Rand B :=
  fun g => let (a, g') := m g in k a g'.

Declare Scope rand_scope.
Delimit Scope rand_scope with rand.
Notation "x <- m ;; k" := (bind m (fun x => k))
  (at level 61, m at next level, right associativity) : rand_scope.

(** [Array.apply(null, { length: n }).map(() => m)]: [n] runs of [m], in
    slot order. *)
Fixpoint replicateM {A} (n : nat) (m : Rand A) : Rand (list A) :=
  match n with
  | O => ret []
  | S n' => (a <- m ;; l <- replicateM n' m ;; ret (a :: l))%rand
  end.

(** A spawn field is a scalar or a [[min, max]] pair. *)
Inductive valrange : Type :=
| Scalar (v : JS.number)
| Range (lo hi : JS.number).

(** The images of the asset bundle, by the keys [Game.load] gives them. *)
Inductive Image : Type :=
| dizzyFaceImage | happyFaceImage | hungryFaceImage | fullFaceImage
| sickFaceImage | foodImage1 | foodImage2 | foodImage3 | foodImage4
| weedImage | backgroundImage.

(** The functions of utils/baseUtils.js are not part of the sources at hand;
    they are parameters of everything that calls them. *)
Record BaseUtils : Type := {
  valueOrRange : valrange -> Rand JS.number;
  randomBetween : JS.number -> JS.number -> bool -> Rand JS.number;
  pickSign : Rand JS.number;          (* pickFromList([1, -1]) *)
  pickImage : Image -> list Image -> Rand Image
                                      (* pickFromList([img, ...imgs]) *)
}.

(** ** game/objects/effects.js *)

Module Effects.

Record ImageParticle : Type := {
  ip_image : option Image;
  ip_x : JS.number;
  ip_y : JS.number;
  ip_r : JS.number;
  ip_rd : JS.number;
  ip_vx : JS.number;
  ip_vy : JS.number;
  ip_dr : JS.number
}.

Record Wave : Type := {
  w_x : JS.number;
  w_y : JS.number;
  w_width : JS.number;
  w_rd : JS.number;
  w_hue : JS.number;
  w_alpha : JS.number
}.

(** The fields [tick] reads or writes.  The random [id], the [type] tag and
    the drawing context [ctx] are set once and never consulted by it. *)
Record Burst : Type := {
  b_active : bool;
  b_center : valrange * valrange;
  b_burnRate : JS.number;
  shards : list ImageParticle
}.

Record BlastWave : Type := {
  bw_active : bool;
  bw_center : JS.number * JS.number;
  bw_burnRate : JS.number;
  bw_hue : JS.number;
  waves : list Wave
}.

Section Emitters.

Variable U : BaseUtils.

Definition imagePraticleEmitter (n : nat) (x y vx vy r rd : valrange)
    (image : option Image) : Rand (list ImageParticle) :=
  replicateM n
    (px <- valueOrRange U x ;;
     py <- valueOrRange U y ;;
     pr <- valueOrRange U r ;;
     prd <- valueOrRange U rd ;;
     pvx <- valueOrRange U vx ;;
     pvy <- valueOrRange U vy ;;
     pdr <- pickSign U ;;
     ret {| ip_image := image; ip_x := px; ip_y := py; ip_r := pr;
            ip_rd := prd; ip_vx := pvx; ip_vy := pvy; ip_dr := pdr |})%rand.

Definition radialWaveEmitter (n : nat) (x y rd width hue alpha : valrange)
    : Rand (list Wave) :=
  replicateM n
    (px <- valueOrRange U x ;;
     py <- valueOrRange U y ;;
     pw <- valueOrRange U width ;;
     prd <- valueOrRange U rd ;;
     ph <- valueOrRange U hue ;;
     pa <- valueOrRange U alpha ;;
     ret {| w_x := px; w_y := py; w_width := pw; w_rd := prd;
            w_hue := ph; w_alpha := pa |})%rand.

(** [v || d]: the default replaces a missing field and a zero. *)
Definition or_default (v : option valrange) (d : valrange) : valrange :=
  match v with
  | None => d
  | Some (Scalar z) => if Req_dec_T z 0 then d else Scalar z
  | Some (Range lo hi) => Range lo hi
  end.

(** [new Burst({ ctx, n = 10, image, x, y, vx, vy, burnRate })] *)
Definition Burst_new (n : option nat) (image : option Image) (x y : valrange)
    (vx vy : option valrange) (burnRate : JS.number) : Rand Burst :=
  (sh <- imagePraticleEmitter (match n with Some k => k | None => 10%nat end)
           x y
           (or_default vx (Range (-10) 10))
           (or_default vy (Range (-10) 10))
           (Scalar 0) (Range 5 20) image ;;
   ret {| b_active := true; b_center := (x, y);
          b_burnRate := burnRate; shards := sh |})%rand.

(** [new BlastWave({ ctx, x, y, width = 50, color, burnRate = 100 })]; [hue]
    is the first component of [colorConvert.hex.hsl(color)], computed by a
    library outside the sources.  The emitter is called without a count and
    so with its default, 1. *)
Definition BlastWave_new (x y : JS.number) (width : option valrange)
    (hue : JS.number) (burnRate : option valrange) : Rand BlastWave :=
  (b <- match burnRate with
        | Some (Range lo hi) => randomBetween U lo hi false
        | Some (Scalar v) => ret v
        | None => ret 100
        end ;;
   ws <- radialWaveEmitter 1 (Scalar x) (Scalar y) (Scalar 25)
           (match width with Some w => w | None => Scalar 50 end)
           (Scalar hue) (Scalar 1) ;;
   ret {| bw_active := true; bw_center := (x, y);
          bw_burnRate := b / 100; bw_hue := hue; waves := ws |})%rand.

End Emitters.

(** The body of the loop of [Burst.tick]: move, spin and shrink the shard,
    splice it out when its radius has dropped below 1, then draw it. *)
Definition burn_shard (burnRate : JS.number) (shard : ImageParticle)
    : ImageParticle :=
  {| ip_image := ip_image shard;
     ip_x := ip_x shard + ip_vx shard;
     ip_y := ip_y shard + ip_vy shard;
     ip_r := ip_r shard + 0.1 * ip_dr shard;
     ip_rd := JS.Math_abs (ip_rd shard - burnRate);
     ip_vx := ip_vx shard;
     ip_vy := ip_vy shard;
     ip_dr := ip_dr shard |}.

Definition shard_body (burnRate : JS.number)
    (drawn : list ImageParticle) (shard : ImageParticle)
    : list ImageParticle * ImageParticle * bool :=
  let shard' := burn_shard burnRate shard in
  (drawn ++ [shard'], shard', JS.lt (ip_rd shard') 1).

(** [Burst.tick]: the effect after the tick and the shards drawn by it. *)
Definition Burst_tick (b : Burst) : Burst * list ImageParticle :=
  if negb (b_active b) then (b, [])
  else if (length (shards b) =? 0)%nat then
    ({| b_active := false; b_center := b_center b;
        b_burnRate := b_burnRate b; shards := shards b |}, [])
  else
    let (sh, drawn) := for_splice (shard_body (b_burnRate b)) 0 (shards b) [] in
    ({| b_active := b_active b; b_center := b_center b;
        b_burnRate := b_burnRate b; shards := sh |}, drawn).

(** The body of the loop of [BlastWave.tick]. *)
Definition burn_wave (burnRate : JS.number) (wave : Wave) : Wave :=
  {| w_x := w_x wave;
     w_y := w_y wave;
     w_width := w_width wave - burnRate / 2;
     w_rd := w_rd wave + burnRate * 8;
     w_hue := w_hue wave - burnRate / 2;
     w_alpha := w_alpha wave - burnRate * 0.0075 |}.

Definition wave_body (burnRate : JS.number)
    (drawn : list Wave) (wave : Wave) : list Wave * Wave * bool :=
  let wave' := burn_wave burnRate wave in
  (drawn ++ [wave'], wave', JS.lt (w_width wave') 1).

Definition BlastWave_tick (b : BlastWave) : BlastWave * list Wave :=
  if negb (bw_active b) then (b, [])
  else if (length (waves b) =? 0)%nat then
    ({| bw_active := false; bw_center := bw_center b;
        bw_burnRate := bw_burnRate b; bw_hue := bw_hue b;
        waves := waves b |}, [])
  else
    let (ws, drawn) := for_splice (wave_body (bw_burnRate b)) 0 (waves b) [] in
    ({| bw_active := bw_active b; bw_center := bw_center b;
        bw_burnRate := bw_burnRate b; bw_hue := bw_hue b;
        waves := ws |}, drawn).

(** What [Game.effects] holds: objects with a [tick] method and an [active]
    flag. *)
Inductive Effect : Type :=
| EBurst (b : Burst)
| EBlastWave (b : BlastWave).

Definition tick (e : Effect) : Effect * list (ImageParticle + Wave) :=
  match e with
  | EBurst b => let (b', d) := Burst_tick b in (EBurst b', map inl d)
  | EBlastWave b => let (b', d) := BlastWave_tick b in (EBlastWave b', map inr d)
  end.

Definition active (e : Effect) : bool :=
  match e with
  | EBurst b => b_active b
  | EBlastWave b => bw_active b
  end.

(** The size of the particle collection the effect owns. *)
Definition particles (e : Effect) : nat :=
  match e with
  | EBurst b => length (shards b)
  | EBlastWave b => length (waves b)
  end.

(** [n] calls of [tick] in a row. *)
Fixpoint ticks (n : nat) (e : Effect) : Effect :=
  match n with
  | O => e
  | S n' => ticks n' (fst (tick e))
  end.

End Effects.

(** ** Sprites *)

(** Modelled from the spec: objects/imageSprite.js, the base class of
    [Player] and [Obstacle], is not among the sources.  An entity has a
    position, a size and the derived collision radius
    [(width + height) / 4]; [(cx, cy)] is the centre its collision test
    reads. *)
Record Sprite : Type := {
  x : JS.number;
  y : JS.number;
  width : JS.number;
  height : JS.number;
  cx : JS.number;
  cy : JS.number;
  radius : JS.number;
  speed : JS.number;
  image : option Image
}.

Definition ImageSprite (image0 : Image) (x0 y0 width0 height0 speed0 : JS.number)
    : Sprite :=
  {| x := x0; y := y0; width := width0; height := height0;
     cx := x0 + width0 / 2; cy := y0 + height0 / 2;
     radius := (width0 + height0) / 4;
     speed := speed0; image := Some image0 |}.

(** The methods of the base class that [Game.play] calls, and the helpers of
    utils/spriteUtils.js and utils/imageUtils.js, none of them among the
    sources: parameters. *)
Record SpriteUtils : Type := {
  move : JS.number -> JS.number -> JS.number -> Sprite -> Sprite;
  moveTo_y : JS.number -> Sprite -> Sprite;
  collideDistance : Sprite -> Sprite -> bool;
  getDistance : Sprite -> JS.number * JS.number -> JS.number;
  resize : Image -> JS.number -> JS.number * JS.number
}.

(** Modelled from the spec: [bounded(n, min, max)] of utils/baseUtils.js is
    not among the sources; it clamps [n] to the range from [min] to [max]. *)
Definition bounded (n lo hi : Z) : Z := Z.min (Z.max n lo) hi.

(** [xs[i]] for an integer [i]: [undefined] outside the array. *)
Definition array_get {A} (xs : list A) (i : Z) : option A :=
  if (i <? 0)%Z then None else nth_error xs (Z.to_nat i).

(** ** game/characters/obstacle.js *)

Module Obstacle.

Inductive kind : Type := food | weed.

Record t : Type := {
  sprite : Sprite;
  type : kind;
  active : bool;
  munches : nat
}.

(** [new Obstacle(options)].  The [bounds] record the constructor also
    stores is a constant that no method here reads. *)
Definition new (ty : kind) (img : Image) (x0 y0 w h sp : JS.number) : t :=
  {| sprite := ImageSprite img x0 y0 w h sp; type := ty;
     active := true; munches := 0 |}.

Definition munch (this : t) : t :=
  {| sprite := sprite this; type := type this; active := active this;
     munches := munches this + 1 |}.

Definition collidesWith (this : t) (entity : Sprite) : bool :=
  let vx := cx entity - cx (sprite this) in
  let vy := cy entity - cy (sprite this) in
  let distance := JS.Math_sqrt (vx * vx + vy * vy) in
  JS.lt distance (radius entity + radius (sprite this)).

(** [Object.entries(entities).find(...) ? true : false] *)
Definition collisionsWith {K} (this : t) (entities : list (K * Sprite)) : bool :=
  match find (fun ent => collidesWith this (snd ent)) entities with
  | Some _ => true
  | None => false
  end.

End Obstacle.

(** ** The three revisions of characters/player.js *)

Record Player : Type := {
  p_sprite : Sprite;
  originalWidth : JS.number;
  originalHeight : JS.number;
  images : list Image;
  canvas_width : JS.number       (* this.ctx.canvas.width *)
}.

Definition set_sprite (p : Player) (s : Sprite) : Player :=
  {| p_sprite := s; originalWidth := originalWidth p;
     originalHeight := originalHeight p; images := images p;
     canvas_width := canvas_width p |}.

Definition set_size (s : Sprite) (w h : JS.number) : Sprite :=
  {| x := x s; y := y s; width := w; height := h; cx := cx s; cy := cy s;
     radius := radius s; speed := speed s; image := image s |}.

Definition set_radius (s : Sprite) (r : JS.number) : Sprite :=
  {| x := x s; y := y s; width := width s; height := height s;
     cx := cx s; cy := cy s; radius := r; speed := speed s;
     image := image s |}.

Definition set_image (s : Sprite) (i : option Image) : Sprite :=
  {| x := x s; y := y s; width := width s; height := height s;
     cx := cx s; cy := cy s; radius := radius s; speed := speed s;
     image := i |}.

(** [new Player(options)], the same in the two revisions that keep the
    original size. *)
Definition Player_new (canvas_w : JS.number) (img : Image) (imgs : list Image)
    (x0 y0 w h sp : JS.number) : Player :=
  {| p_sprite := ImageSprite img x0 y0 w h sp;
     originalWidth := w; originalHeight := h;
     images := imgs; canvas_width := canvas_w |}.

(** src/frontend/game/characters/player.js *)
Module PlayerFrontend.

(** The index [update] computes. *)
Definition sprite_index (this : Player) : Z :=
  let max := canvas_width this / 2 in
  let i := (width (p_sprite this) / max) * INR (length (images this)) in
  bounded (JS.Math_round i - 1) 0 (Z.of_nat (length (images this)) - 1).

Definition update (this : Player) : Player :=
  set_sprite this
    (set_image (p_sprite this) (array_get (images this) (sprite_index this))).

Definition eat (this : Player) : Player :=
  let s := p_sprite this in
  let s1 := set_size s (width s + 1) (height s + 1) in
  let s2 := set_radius s1 ((width s1 + height s1) / 4) in
  update (set_sprite this s2).

Definition blaze (this : Player) : Player :=
  let s := p_sprite this in
  update (set_sprite this (set_size s (originalWidth this) (originalHeight this))).

End PlayerFrontend.

(** src/unnamed/part_000, an earlier revision of the same class *)
Module PlayerPart000.

Definition sprite_index (this : Player) : Z :=
  let max := canvas_width this / 2 in
  let i := (width (p_sprite this) / max) * INR (length (images this)) in
  Z.min (JS.Math_round i - 1) (Z.of_nat (length (images this)) - 1).

Definition update (this : Player) : Player :=
  set_sprite this
    (set_image (p_sprite this) (array_get (images this) (sprite_index this))).

Definition eat (this : Player) : Player :=
  let s := p_sprite this in
  update (set_sprite this (set_size s (width s + 1) (height s + 1))).

Definition blaze (this : Player) : Player :=
  let s := p_sprite this in
  update (set_sprite this (set_size s (originalWidth this) (originalHeight this))).

End PlayerPart000.

(** src/game/characters/player.js, the earliest revision: a bare sprite *)
Module PlayerGame.

Definition eat (this : Sprite) : Sprite :=
  set_size this (width this + 0.5) (height this + 0.5).

End PlayerGame.

(** ** game/main.js: the frame *)

Module Game.

Import Effects.

Inductive tag : Type := loading | ready | play | over | stop.

Record State : Type := {
  current : tag;
  prev : option tag;             (* [None] is the initial empty string *)
  score : Z;
  gameSpeed : JS.number;
  paused : bool;
  muted : bool
}.

Record t : Type := {
  canvas_w : JS.number;            (* this.canvas.width *)
  canvas_h : JS.number;            (* this.canvas.height *)
  frame_count : Z;                 (* this.frame.count *)
  frame_scale : JS.number;         (* this.frame.scale *)
  playerSize_width : JS.number;    (* this.playerSize.width *)
  obstacleSize_width : JS.number;  (* this.obstacleSize.width *)
  screen_right : JS.number;
  screen_bottom : JS.number;
  state : State;
  input_left : bool;
  input_right : bool;
  effects : list Effect;
  entities : list Obstacle.t;
  player : Player;
  seed : Seed                      (* the state of Math.random *)
}.

(** [setState(patch)]: [prev] takes the value [current] had, then the fields
    of the patch are written. *)
Definition setState (cur : option tag) (sc : option Z) (st : State) : State :=
  {| current := match cur with Some c => c | None => current st end;
     prev := Some (current st);
     score := match sc with Some n => n | None => score st end;
     gameSpeed := gameSpeed st; paused := paused st; muted := muted st |}.

Definition with_state (g : t) (st : State) : t :=
  {| canvas_w := canvas_w g; canvas_h := canvas_h g;
     frame_count := frame_count g; frame_scale := frame_scale g;
     playerSize_width := playerSize_width g;
     obstacleSize_width := obstacleSize_width g;
     screen_right := screen_right g; screen_bottom := screen_bottom g;
     state := st; input_left := input_left g; input_right := input_right g;
     effects := effects g; entities := entities g; player := player g;
     seed := seed g |}.

Definition with_effects (g : t) (fx : list Effect) : t :=
  {| canvas_w := canvas_w g; canvas_h := canvas_h g;
     frame_count := frame_count g; frame_scale := frame_scale g;
     playerSize_width := playerSize_width g;
     obstacleSize_width := obstacleSize_width g;
     screen_right := screen_right g; screen_bottom := screen_bottom g;
     state := state g; input_left := input_left g; input_right := input_right g;
     effects := fx; entities := entities g; player := player g;
     seed := seed g |}.

Definition with_entities (g : t) (es : list Obstacle.t) : t :=
  {| canvas_w := canvas_w g; canvas_h := canvas_h g;
     frame_count := frame_count g; frame_scale := frame_scale g;
     playerSize_width := playerSize_width g;
     obstacleSize_width := obstacleSize_width g;
     screen_right := screen_right g; screen_bottom := screen_bottom g;
     state := state g; input_left := input_left g; input_right := input_right g;
     effects := effects g; entities := es; player := player g;
     seed := seed g |}.

Definition with_player (g : t) (p : Player) : t :=
  {| canvas_w := canvas_w g; canvas_h := canvas_h g;
     frame_count := frame_count g; frame_scale := frame_scale g;
     playerSize_width := playerSize_width g;
     obstacleSize_width := obstacleSize_width g;
     screen_right := screen_right g; screen_bottom := screen_bottom g;
     state := state g; input_left := input_left g; input_right := input_right g;
     effects := effects g; entities := entities g; player := p;
     seed := seed g |}.

Definition with_seed (g : t) (sd : Seed) : t :=
  {| canvas_w := canvas_w g; canvas_h := canvas_h g;
     frame_count := frame_count g; frame_scale := frame_scale g;
     playerSize_width := playerSize_width g;
     obstacleSize_width := obstacleSize_width g;
     screen_right := screen_right g; screen_bottom := screen_bottom g;
     state := state g; input_left := input_left g; input_right := input_right g;
     effects := effects g; entities := entities g; player := player g;
     seed := sd |}.

(** Run a random computation on the generator the game holds. *)
Definition draw {A} (g : t) (m : Rand A) : A * t :=
  let (a, sd) := m (seed g) in (a, with_seed g sd).

Section Frame.

Variable U : BaseUtils.
Variable L : SpriteUtils.

(** *** (a) the spawn step of the play state *)

Definition munchTime (g : t) : bool := (Z.rem (frame_count g) 600 =? 0)%Z.

Definition shouldAddObstacle (g : t) : bool :=
  (length (entities g) <? 6)%nat.

(** The location the step picks: a random abscissa, 200 above the top. *)
Definition pick_location (g : t) : (JS.number * JS.number) * t :=
  let (lx, g') :=
    draw g (randomBetween U 0 (screen_right g - obstacleSize_width g) true) in
  ((lx, -200), g').

Definition inValidLocation (g : t) (location : JS.number * JS.number) : bool :=
  existsb
    (fun ent =>
       JS.lt (getDistance L (Obstacle.sprite ent) location)
             (playerSize_width g * 3))
    (entities g).

Definition add_food (g : t) (location : JS.number * JS.number) : t :=
  let obstacleSize := resize L foodImage1 (obstacleSize_width g) in
  let (img, g1) :=
    draw g (pickImage U foodImage1 [foodImage2; foodImage3; foodImage4]) in
  with_entities g1
    (entities g1 ++
     [Obstacle.new Obstacle.food img (fst location) (snd location)
        (fst obstacleSize) (snd obstacleSize) (gameSpeed (state g1))]).

Definition add_weed (g : t) (location : JS.number * JS.number) : t :=
  let obstacleSize := resize L weedImage (obstacleSize_width g) in
  with_entities g
    (entities g ++
     [Obstacle.new Obstacle.weed weedImage (fst location) (snd location)
        (fst obstacleSize) (snd obstacleSize) (gameSpeed (state g))]).

Definition spawn (g : t) : t :=
  if munchTime g || shouldAddObstacle g then
    let (location, g1) := pick_location g in
    let inValid := inValidLocation g1 location in
    let g2 :=
      if negb inValid && negb (munchTime g) then add_food g1 location else g1 in
    if negb inValid && munchTime g then add_weed g2 location else g2
  else g.

(** *** (b) the effect loop of the play and over states *)

Definition effect_body (_ : unit) (effect : Effect) : unit * Effect * bool :=
  let effect' := fst (tick effect) in
  (tt, effect', negb (active effect')).

Definition tick_effects (g : t) : t :=
  with_effects g (fst (for_splice effect_body 0 (effects g) tt)).

(** *** (c), (d) the entity loop *)

(** What the loop body mutates besides the entity it visits. *)
Record World : Type := {
  w_player : Player;
  w_state : State;
  w_effects : list Effect;
  w_seed : Seed
}.

(** The burst of a collision: [n] shards of the entity's image, spread over
    the player's box. *)
Definition collision_burst (n : nat) (img : option Image) (p : Player)
    (burnRate : JS.number) : Rand Burst :=
  let s := p_sprite p in
  Burst_new U (Some n) img
    (Range (x s) (x s + width s)) (Range (y s) (y s + height s))
    (Some (Range (-5) 5)) (Some (Range (-10) 1)) burnRate.

Definition push_burst (w : World) (m : Rand Burst) : World :=
  let (b, sd) := m (w_seed w) in
  {| w_player := w_player w; w_state := w_state w;
     w_effects := w_effects w ++ [EBurst b]; w_seed := sd |}.

Definition on_collision (w : World) (entity : Obstacle.t) : World :=
  let w1 :=
    {| w_player := w_player w;
       w_state := setState None (Some (score (w_state w) + 1)%Z) (w_state w);
       w_effects := w_effects w; w_seed := w_seed w |} in
  match Obstacle.type entity with
  | Obstacle.food =>
      let p := PlayerFrontend.eat (w_player w1) in
      push_burst
        {| w_player := p; w_state := w_state w1;
           w_effects := w_effects w1; w_seed := w_seed w1 |}
        (collision_burst 1 (image (Obstacle.sprite entity)) p 0.025)
  | Obstacle.weed =>
      let p := PlayerFrontend.blaze (w_player w1) in
      push_burst
        {| w_player := p; w_state := w_state w1;
           w_effects := w_effects w1; w_seed := w_seed w1 |}
        (collision_burst 20 (image (Obstacle.sprite entity)) p 0.01)
  end.

Definition entity_body (g : t) (w : World) (entity : Obstacle.t)
    : World * Obstacle.t * bool :=
  let dx := cos (IZR (frame_count g) / 60) / 6 in
  let moved :=
    {| Obstacle.sprite := move L dx 1 (frame_scale g) (Obstacle.sprite entity);
       Obstacle.type := Obstacle.type entity;
       Obstacle.active := Obstacle.active entity;
       Obstacle.munches := Obstacle.munches entity |} in
  let hit := collideDistance L (Obstacle.sprite moved) (p_sprite (w_player w)) in
  let entity' := if hit then Obstacle.munch moved else moved in
  let w' := if hit then on_collision w entity' else w in
  (w', entity',
   JS.gt (y (Obstacle.sprite entity')) (canvas_h g)
   || (5 <? Obstacle.munches entity')%nat).

Definition update_entities (g : t) : t :=
  let w0 := {| w_player := player g; w_state := state g;
               w_effects := effects g; w_seed := seed g |} in
  let (es, w) := for_splice (entity_body g) 0 (entities g) w0 in
  with_seed
    (with_effects
       (with_state (with_player (with_entities g es) (w_player w)) (w_state w))
       (w_effects w))
    (w_seed w).

(** *** (e) the game-over check *)

Definition big_explosion (p : Player) : Rand Burst :=
  let s := p_sprite p in
  Burst_new U (Some 200%nat) (Some weedImage)
    (Range (x s) (x s + width s)) (Range (y s) (y s + height s))
    (Some (Range (-5) 5)) (Some (Range (-10) 1)) 0.01.

Definition check_game_over (g : t) : t :=
  if JS.gt (width (p_sprite (player g))) (canvas_w g / 2) then
    let (b, g1) := draw g (big_explosion (player g)) in
    let g2 := with_effects g1 (effects g1 ++ [EBurst b]) in
    with_state g2 (setState (Some over) None (state g2))
  else g.

(** *** (f) the player's own movement *)

Definition move_player (g : t) : t :=
  let dy := cos (IZR (frame_count g) / 5) / 30 in
  let dx := (if input_left g then -1 else 0) + (if input_right g then 1 else 0) in
  let p := player g in
  let s1 := move L dx dy (frame_scale g) (p_sprite p) in
  let s2 := moveTo_y L (screen_bottom g - height s1) s1 in
  with_player g (set_sprite p s2).

(** *** The three state blocks of [play], in the order they are tested *)

Definition matches_loading_or_over (p : option tag) : bool :=
  match p with
  | Some loading | Some over => true
  | _ => false
  end.

Definition ready_block (g : t) : t :=
  if matches_loading_or_over (prev (state g))
  then with_state g (setState (Some ready) None (state g))
  else g.

Definition enter_play (g : t) : t :=
  match prev (state g) with
  | Some ready => with_state g (setState (Some play) None (state g))
  | _ => g
  end.

(** Steps (a) to (d) of the play state: what the game-over check finds. *)
Definition before_check (g : t) : t :=
  update_entities (tick_effects (spawn (enter_play g))).

Definition play_block (g : t) : t :=
  move_player (check_game_over (before_check g)).

Definition over_block (g : t) : t := tick_effects g.

Definition is_tag (a b : tag) : bool :=
  match a, b with
  | loading, loading | ready, ready | play, play | over, over | stop, stop => true
  | _, _ => false
  end.

(** One call of [play()], up to the request for the next frame.  Drawing,
    the overlay and audio playback do not feed back into the fields kept
    here. *)
Definition play_frame (g : t) : t :=
  let g1 := if is_tag (current (state g)) ready then ready_block g else g in
  let g2 := if is_tag (current (state g1)) play then play_block g1 else g1 in
  if is_tag (current (state g2)) over then over_block g2 else g2.

End Frame.

End Game.

(** ** Vocabulary of the further properties *)

(** A sampler that passes a scalar through and answers a range from within
    it: what utils/baseUtils.js is expected to provide. *)
Definition faithful_sampler (U : BaseUtils) : Prop :=
  forall v g,
    match v with
    | Scalar z => fst (valueOrRange U v g) = z
    | Range lo hi => lo <= hi -> lo <= fst (valueOrRange U v g) <= hi
    end.

(** A loop body that updates the element, logs the update and asks for a
    splice when the update satisfies [p]: the shape of the bodies of
    [Burst.tick] and [BlastWave.tick]. *)
Definition logging_body {A} (f : A -> A) (p : A -> bool)
    (drawn : list A) (a : A) : list A * A * bool :=
  (drawn ++ [f a], f a, p (f a)).

(** A blast wave with its rings replaced. *)
Definition with_waves (b : Effects.BlastWave) (ws : list Effects.Wave)
    : Effects.BlastWave :=
  {| Effects.bw_active := Effects.bw_active b;
     Effects.bw_center := Effects.bw_center b;
     Effects.bw_burnRate := Effects.bw_burnRate b;
     Effects.bw_hue := Effects.bw_hue b; Effects.waves := ws |}.

(** ** game/main.js: input, sound and scheduling

    The rest of the [Game] class, apart from the asset loading and the DOM
    wiring of [constructor], [init], [load], [create] and [destroy].  The
    record adds to [Game.t] what these methods read and write. *)

Module Shell.

Import String.

Inductive SoundKey : Type :=
| backgroundMusic | munchSound | clearSound | gameOverSound.

Definition key_eqb (a b : SoundKey) : bool :=
  match a, b with
  | backgroundMusic, backgroundMusic | munchSound, munchSound
  | clearSound, clearSound | gameOverSound, gameOverSound => true
  | _, _ => false
  end.

(** An entry of [this.playlist]; its [playback] handle is named by the
    entry's [id]. *)
Record Sound : Type := {
  id : nat;
  key : SoundKey
}.

Record t : Type := {
  game : Game.t;
  frame_time : JS.number;              (* this.frame.time *)
  frame_rate : option JS.number;       (* this.frame.rate, null at first *)
  screen_scale : JS.number;            (* this.screen.scale *)
  screen_centerX : JS.number;          (* this.screen.centerX *)
  scheduled : option Z;                (* the frame request outstanding *)
  playlist : list Sound;
  paused_sounds : list nat;            (* calls of playback.pause(), by id *)
  audio_running : bool;                (* this.audioCtx, suspended or not *)
  storage : string -> option string;   (* localStorage *)
  prefix : string
}.

Definition with_game (s : t) (g : Game.t) : t :=
  {| game := g; frame_time := frame_time s; frame_rate := frame_rate s;
     screen_scale := screen_scale s; screen_centerX := screen_centerX s;
     scheduled := scheduled s; playlist := playlist s;
     paused_sounds := paused_sounds s; audio_running := audio_running s;
     storage := storage s; prefix := prefix s |}.

Definition with_audio (s : t) (pl : list Sound) (ps : list nat) (run : bool) : t :=
  {| game := game s; frame_time := frame_time s; frame_rate := frame_rate s;
     screen_scale := screen_scale s; screen_centerX := screen_centerX s;
     scheduled := scheduled s; playlist := pl;
     paused_sounds := ps; audio_running := run;
     storage := storage s; prefix := prefix s |}.

Definition with_storage (s : t) (st : string -> option string) : t :=
  {| game := game s; frame_time := frame_time s; frame_rate := frame_rate s;
     screen_scale := screen_scale s; screen_centerX := screen_centerX s;
     scheduled := scheduled s; playlist := playlist s;
     paused_sounds := paused_sounds s; audio_running := audio_running s;
     storage := st; prefix := prefix s |}.

Definition with_frame (g : Game.t) (count : Z) (scale : JS.number) : Game.t :=
  {| Game.canvas_w := Game.canvas_w g; Game.canvas_h := Game.canvas_h g;
     Game.frame_count := count; Game.frame_scale := scale;
     Game.playerSize_width := Game.playerSize_width g;
     Game.obstacleSize_width := Game.obstacleSize_width g;
     Game.screen_right := Game.screen_right g;
     Game.screen_bottom := Game.screen_bottom g;
     Game.state := Game.state g; Game.input_left := Game.input_left g;
     Game.input_right := Game.input_right g;
     Game.effects := Game.effects g; Game.entities := Game.entities g;
     Game.player := Game.player g; Game.seed := Game.seed g |}.

Definition with_input (g : Game.t) (l r : bool) : Game.t :=
  {| Game.canvas_w := Game.canvas_w g; Game.canvas_h := Game.canvas_h g;
     Game.frame_count := Game.frame_count g;
     Game.frame_scale := Game.frame_scale g;
     Game.playerSize_width := Game.playerSize_width g;
     Game.obstacleSize_width := Game.obstacleSize_width g;
     Game.screen_right := Game.screen_right g;
     Game.screen_bottom := Game.screen_bottom g;
     Game.state := Game.state g; Game.input_left := l;
     Game.input_right := r;
     Game.effects := Game.effects g; Game.entities := Game.entities g;
     Game.player := Game.player g; Game.seed := Game.seed g |}.

(** [this.state.paused = v] and [this.state.muted = v], written to the
    field directly, not through [setState]. *)
Definition set_paused (st : Game.State) (v : bool) : Game.State :=
  {| Game.current := Game.current st; Game.prev := Game.prev st;
     Game.score := Game.score st; Game.gameSpeed := Game.gameSpeed st;
     Game.paused := v; Game.muted := Game.muted st |}.

Definition set_muted (st : Game.State) (v : bool) : Game.State :=
  {| Game.current := Game.current st; Game.prev := Game.prev st;
     Game.score := Game.score st; Game.gameSpeed := Game.gameSpeed st;
     Game.paused := Game.paused st; Game.muted := v |}.

(** *** Scheduling *)

(** [null] in arithmetic counts as 0. *)
Definition to_number (v : option JS.number) : JS.number :=
  match v with Some r => r | None => 0 end.

(** [requestFrame(next, resumed)].  [handle] is what
    [requestAnimationFrame(next)] returns and [now] is [Date.now()].  The
    new [scale] is computed while [this.frame] still holds the old rate.
    Modelled from the spec: helpers/animationFrame.js is not among the
    sources; a request leaves the frame named by the handle outstanding. *)
Definition requestFrame (handle : Z) (now : JS.number) (resumed : bool) (s : t) : t :=
  {| game := with_frame (game s) handle
               (screen_scale s * to_number (frame_rate s) * 0.01);
     frame_time := now;
     frame_rate := Some (if resumed then 0 else now - frame_time s);
     screen_scale := screen_scale s; screen_centerX := screen_centerX s;
     scheduled := Some handle; playlist := playlist s;
     paused_sounds := paused_sounds s; audio_running := audio_running s;
     storage := storage s; prefix := prefix s |}.

(** [cancelFrame()]: whatever argument it is called with, it cancels the
    request named by [this.frame.count].  Modelled from the spec as above:
    cancelling the outstanding request leaves none. *)
Definition cancelFrame (s : t) : t :=
  {| game := game s; frame_time := frame_time s; frame_rate := frame_rate s;
     screen_scale := screen_scale s; screen_centerX := screen_centerX s;
     scheduled :=
       match scheduled s with
       | Some h => if (h =? Game.frame_count (game s))%Z then None else Some h
       | None => None
       end;
     playlist := playlist s;
     paused_sounds := paused_sounds s; audio_running := audio_running s;
     storage := storage s; prefix := prefix s |}.

(** *** A whole call of [play()]

    The statement that closes [play()]: cancel the outstanding request in
    the stop state, request the next frame in any other. *)
Definition closing_request (handle : Z) (now : JS.number) (s : t) : t :=
  if Game.is_tag (Game.current (Game.state (game s))) Game.stop
  then cancelFrame s
  else requestFrame handle now false s.

Section Play.

Variable U : BaseUtils.
Variable L : SpriteUtils.

(** [play()] from its first statement to its last, as far as the fields kept
    here go.  In the play state the body also starts and stops sounds, which
    [Game.play_frame] leaves out; in the other states it makes none. *)
Definition play_call (handle : Z) (now : JS.number) (s : t) : t :=
  closing_request handle now (with_game s (Game.play_frame U L (game s))).

End Play.

(** *** Pause and mute *)

(** [pause()]; [handle] and [now] are the scheduler's answers should the
    game resume. *)
Definition pause (handle : Z) (now : JS.number) (s : t) : t :=
  if negb (Game.is_tag (Game.current (Game.state (game s))) Game.play) then s
  else
    let st := Game.state (game s) in
    let s1 := with_game s
                (Game.with_state (game s) (set_paused st (negb (Game.paused st)))) in
    if Game.paused (Game.state (game s1)) then
      let s2 := cancelFrame s1 in
      with_audio s2 (playlist s2) (paused_sounds s2) false
    else
      let s2 := requestFrame handle now true s1 in
      if negb (Game.muted (Game.state (game s2)))
      then with_audio s2 (playlist s2) (paused_sounds s2) true
      else s2.

Definition is_true (v : option string) : bool :=
  match v with
  | Some str => String.eqb str "true"
  | None => false
  end.

Definition setItem (st : string -> option string) (k v : string)
    : string -> option string :=
  fun k' => if String.eqb k' k then Some v else st k'.

(** [this.prefix.concat('muted')] *)
Definition muted_key (s : t) : string := append (prefix s) "muted".

(** [localStorage.getItem(key) === 'true' ? 'false' : 'true'] *)
Definition flipped (v : option string) : string :=
  if is_true v then "false" else "true".

(** [mute()] *)
Definition mute (s : t) : t :=
  let k := muted_key s in
  let s1 := with_storage s (setItem (storage s) k (flipped (storage s k))) in
  let st := Game.state (game s1) in
  let s2 := with_game s1
              (Game.with_state (game s1) (set_muted st (is_true (storage s1 k)))) in
  if Game.muted (Game.state (game s2)) then
    with_audio s2 (playlist s2) (paused_sounds s2) false
  else if negb (Game.paused (Game.state (game s2))) then
    with_audio s2 (playlist s2) (paused_sounds s2) true
  else s2.

(** *** The playlist *)

Section Playback.

(** [Math.random().toString(16).slice(2)] *)
Variable random_id : Rand nat.

(** [playback(key, audioBuffer, options)] *)
Definition playback (k : SoundKey) (s : t) : t :=
  if Game.muted (Game.state (game s)) then s
  else
    let (i, g) := Game.draw (game s) random_id in
    with_audio (with_game s g)
      (playlist s ++ [{| id := i; key := k |}])
      (paused_sounds s) (audio_running s).

End Playback.

(** The callback [playback] hands to the audio library, run when the sound
    [i] has played to its end. *)
Definition sound_ended (i : nat) (s : t) : t :=
  with_audio s (filter (fun snd => negb (id snd =? i)%nat) (playlist s))
    (paused_sounds s) (audio_running s).

(** [stopPlayback(key)]: the filter pauses the entries it meets under that
    key, and its answer for an entry is whether the key matched. *)
Definition stopPlayback (k : SoundKey) (s : t) : t :=
  with_audio s
    (filter (fun snd => key_eqb (key snd) k) (playlist s))
    (paused_sounds s
     ++ map id (filter (fun snd => key_eqb (key snd) k) (playlist s)))
    (audio_running s).

(** [stopPlaylist()]: [forEach] walks the array it was called on while each
    [stopPlayback] installs a new one. *)
Definition stopPlaylist (s : t) : t :=
  fold_left (fun acc snd => stopPlayback (key snd) acc) (playlist s) s.

(** *** Input *)

Inductive ClickTarget : Type := mute_button | pause_button | start_button | elsewhere.

(** [handleClicks(e)], by the [id] of the element clicked. *)
Definition handleClicks (handle : Z) (now : JS.number) (target : ClickTarget)
    (s : t) : t :=
  if Game.is_tag (Game.current (Game.state (game s))) Game.loading then s
  else
    let s1 := match target with mute_button => mute s | _ => s end in
    let s2 := match target with pause_button => pause handle now s1 | _ => s1 end in
    match target with
    | start_button =>
        with_game s2
          (Game.with_state (game s2)
             (Game.setState (Some Game.play) None (Game.state (game s2))))
    | _ => s2
    end.

Inductive TapType : Type := tap_start | tap_end.

(** [handleTap(type, e)]; [lx] is the abscissa [canvasInputPosition] gives
    for the first touch. *)
Definition handleTap (type : TapType) (lx : JS.number) (s : t) : t :=
  if (Game.frame_count (game s) <? 60)%Z then s
  else
    match type with
    | tap_start =>
        let g1 :=
          if JS.gt lx (screen_centerX s)
          then with_input (game s) false true else game s in
        let g2 :=
          if JS.lt lx (screen_centerX s)
          then with_input g1 true false else g1 in
        with_game s g2
    | tap_end => with_game s (with_input (game s) false false)
    end.

Inductive KeyEvent : Type := keydown | keyup.
Inductive KeyCode : Type := ArrowRight | ArrowLeft | Space | OtherKey.

Section Keyboard.

(** [load()] restarts the asset loading; it is not among what is modelled
    here. *)
Variable load : t -> t.

Definition handleKeyboardInput (handle : Z) (now : JS.number)
    (type : KeyEvent) (code : KeyCode) (s : t) : t :=
  let cur (x : t) := Game.current (Game.state (game x)) in
  let s1 :=
    match type with
    | keydown =>
        if Game.is_tag (cur s) Game.play then
          match code with
          | ArrowRight =>
              with_game s (with_input (game s) (Game.input_left (game s)) true)
          | ArrowLeft =>
              with_game s (with_input (game s) true (Game.input_right (game s)))
          | _ => s
          end
        else s
    | keyup => s
    end in
  let s2 :=
    match type with
    | keyup =>
        if Game.is_tag (cur s1) Game.play then
          let s' :=
            match code with
            | ArrowRight =>
                with_game s1
                  (with_input (game s1) (Game.input_left (game s1)) false)
            | ArrowLeft =>
                with_game s1
                  (with_input (game s1) false (Game.input_right (game s1)))
            | _ => s1
            end in
          match code with
          | Space => pause handle now s'
          | _ => s'
          end
        else s1
    | keydown => s1
    end in
  let s3 :=
    match type with
    | keydown =>
        if Game.is_tag (cur s2) Game.ready then
          with_game s2
            (Game.with_state (game s2)
               (Game.setState (Some Game.play) None (Game.state (game s2))))
        else s2
    | keyup => s2
    end in
  match type with
  | keydown =>
      if Game.is_tag (cur s3) Game.over then
        if (List.length (Game.effects (game s3)) =? 1)%nat then load s3 else s3
      else s3
  | keyup => s3
  end.

End Keyboard.

End Shell.

(** The audio context runs exactly when the game is neither muted nor
    paused. *)
Definition audio_in_step (s : Shell.t) : Prop :=
  Shell.audio_running s
  = negb (Game.muted (Game.state (Shell.game s)))
    && negb (Game.paused (Game.state (Shell.game s))).

(** The flag in memory mirrors the one in [localStorage], as [init] sets
    it. *)
Definition muted_mirrors_storage (s : Shell.t) : Prop :=
  Game.muted (Game.state (Shell.game s))
  = Shell.is_true (Shell.storage s (Shell.muted_key s)).

(** ** Double precision

    [JS.number] is exact, the numbers of the interpreter are IEEE binary64.
    The two agree wherever an outcome is decided by the shape of the code.
    Where it turns on rounding (a comparison at the edge of its threshold, a
    decrement too small to register) the code is read again with the rounding
    in place.  In [Rounded] every arithmetic operation returns the rounded
    value of its exact result.  The rounding is a parameter: what is proved
    there holds for every rounding function that behaves as round-to-nearest
    does, [Rounded.nearest] among them, and so of the doubles wherever
    nothing underflows or overflows.  In [Binary64] the operations are the
    machine's own, so that the code can be run on given doubles. *)

Module Rounded.

Import Effects.

(** The unit roundoff of binary64, 2^-53, and two magnitudes well inside its
    normal range, 2^-100 and 2^100. *)
Definition unit_roundoff : R := / 9007199254740992.
Definition small : R := / 1267650600228229401496703205376.
Definition large : R := 1267650600228229401496703205376.

(** What is used of rounding to nearest: it is monotone, it keeps zero, and
    on magnitudes between [small] and [large] (no underflow, no overflow) its
    relative error is at most the unit roundoff. *)
Definition binary64_like (fl : R -> R) : Prop :=
  (forall x y, x <= y -> fl x <= fl y)
  /\ fl 0 = 0
  /\ (forall x, small <= Rabs x <= large ->
                Rabs (fl x - x) <= unit_roundoff * Rabs x).

(** Rounding to nearest, ties to even, to the 53 bits of the mantissa of a
    double.  [binade t] is the exponent [e] with [2^e <= t < 2^(e+1)], [ulp t]
    the spacing of the 53-bit numbers of that binade, and a positive [t] is
    rounded by rounding its count of such units to the nearest integer.  The
    exponent is not bounded: from the smallest normal double to the largest
    this is the rounding of the machine, beyond them (underflow, overflow)
    it is not. *)
Definition nearest_integer (y : R) : Z :=
  let n := Int_part y in
  if Rlt_dec (y - IZR n) (/ 2) then n
  else if Rlt_dec (/ 2) (y - IZR n) then (n + 1)%Z
  else if Z.even n then n else (n + 1)%Z.

Definition binade (t : R) : Z := Int_part (ln t / ln 2).

Definition ulp (t : R) : R := powerRZ 2 (binade t - 52).

Definition nearest_pos (t : R) : R :=
  IZR (nearest_integer (t / ulp t)) * ulp t.

Definition nearest (x : R) : R :=
  if Rlt_dec 0 x then nearest_pos x
  else if Rlt_dec x 0 then - nearest_pos (- x)
  else 0.

Section Arithmetic.

Variable fl : R -> R.

Definition add (x y : R) : R := fl (x + y).
Definition sub (x y : R) : R := fl (x - y).
Definition mul (x y : R) : R := fl (x * y).
Definition div (x y : R) : R := fl (x / y).
Definition Math_sqrt (x : R) : R := fl (sqrt x).

(** A decimal literal of the source denotes the double nearest to it. *)
Definition literal (x : R) : R := fl x.

(** [Obstacle.collidesWith] *)
Definition collidesWith (this : Obstacle.t) (entity : Sprite) : bool :=
  let vx := sub (cx entity) (cx (Obstacle.sprite this)) in
  let vy := sub (cy entity) (cy (Obstacle.sprite this)) in
  let distance := Math_sqrt (add (mul vx vx) (mul vy vy)) in
  JS.lt distance (add (radius entity) (radius (Obstacle.sprite this))).

(** The loop body of [Burst.tick]; [Math.abs] is exact. *)
Definition burn_shard (burnRate : R) (shard : ImageParticle) : ImageParticle :=
  {| ip_image := ip_image shard;
     ip_x := add (ip_x shard) (ip_vx shard);
     ip_y := add (ip_y shard) (ip_vy shard);
     ip_r := add (ip_r shard) (mul (literal 0.1) (ip_dr shard));
     ip_rd := Rabs (sub (ip_rd shard) burnRate);
     ip_vx := ip_vx shard;
     ip_vy := ip_vy shard;
     ip_dr := ip_dr shard |}.

Definition shard_body (burnRate : R)
    (drawn : list ImageParticle) (shard : ImageParticle)
    : list ImageParticle * ImageParticle * bool :=
  let shard' := burn_shard burnRate shard in
  (drawn ++ [shard'], shard', JS.lt (ip_rd shard') 1).

Definition Burst_tick (b : Burst) : Burst * list ImageParticle :=
  if negb (b_active b) then (b, [])
  else if (length (shards b) =? 0)%nat then
    ({| b_active := false; b_center := b_center b;
        b_burnRate := b_burnRate b; shards := shards b |}, [])
  else
    let (sh, drawn) := for_splice (shard_body (b_burnRate b)) 0 (shards b) [] in
    ({| b_active := b_active b; b_center := b_center b;
        b_burnRate := b_burnRate b; shards := sh |}, drawn).

(** The loop body of [BlastWave.tick]. *)
Definition burn_wave (burnRate : R) (wave : Wave) : Wave :=
  {| w_x := w_x wave;
     w_y := w_y wave;
     w_width := sub (w_width wave) (div burnRate 2);
     w_rd := add (w_rd wave) (mul burnRate 8);
     w_hue := sub (w_hue wave) (div burnRate 2);
     w_alpha := sub (w_alpha wave) (mul burnRate (literal 0.0075)) |}.

Definition wave_body (burnRate : R)
    (drawn : list Wave) (wave : Wave) : list Wave * Wave * bool :=
  let wave' := burn_wave burnRate wave in
  (drawn ++ [wave'], wave', JS.lt (w_width wave') 1).

Definition BlastWave_tick (b : BlastWave) : BlastWave * list Wave :=
  if negb (bw_active b) then (b, [])
  else if (length (waves b) =? 0)%nat then
    ({| bw_active := false; bw_center := bw_center b;
        bw_burnRate := bw_burnRate b; bw_hue := bw_hue b;
        waves := waves b |}, [])
  else
    let (ws, drawn) := for_splice (wave_body (bw_burnRate b)) 0 (waves b) [] in
    ({| bw_active := bw_active b; bw_center := bw_center b;
        bw_burnRate := bw_burnRate b; bw_hue := bw_hue b;
        waves := ws |}, drawn).

Definition tick (e : Effect) : Effect * list (ImageParticle + Wave) :=
  match e with
  | EBurst b => let (b', d) := Burst_tick b in (EBurst b', map inl d)
  | EBlastWave b => let (b', d) := BlastWave_tick b in (EBlastWave b', map inr d)
  end.

Fixpoint ticks (n : nat) (e : Effect) : Effect :=
  match n with
  | O => e
  | S n' => ticks n' (fst (tick e))
  end.

End Arithmetic.

End Rounded.

Module Binary64.

Import Floats.

(** The fields of the two entities that [collidesWith] reads. *)
Record Circle : Type := { cx : float; cy : float; radius : float }.

(** [Obstacle.collidesWith], operation for operation. *)
Definition collidesWith (this entity : Circle) : bool :=
  let vx := (cx entity - cx this)%float in
  let vy := (cy entity - cy this)%float in
  let distance := PrimFloat.sqrt (vx * vx + vy * vy)%float in
  (distance <? radius entity + radius this)%float.

(** [shard.rd = Math.abs(shard.rd - this.burnRate)] of [Burst.tick]. *)
Definition burn (rd burnRate : float) : float :=
  PrimFloat.abs (rd - burnRate)%float.

(** The real number a finite double stands for. *)
Definition exact (f : float) : R :=
  match Prim2SF f with
  | S754_finite s m e => (if s then -1 else 1) * IZR (Zpos m) * powerRZ 2 e
  | _ => 0
  end.

End Binary64.

(** ** Vocabulary of the lifecycle properties *)

(** The effect goes from active to inactive on tick number [n], counted
    from 0. *)
Definition deactivates_at (e : Effects.Effect) (n : nat) : Prop :=
  Effects.active (Effects.ticks n e) = true /\
  Effects.active (Effects.ticks (S n) e) = false.


(** The same for the ticks as double precision computes them. *)
Definition rounded_deactivates_at (fl : R -> R) (e : Effects.Effect) (n : nat)
    : Prop :=
  Effects.active (Rounded.ticks fl n e) = true /\
  Effects.active (Rounded.ticks fl (S n) e) = false.

(** A bound on the ticks an effect has left.  [rounds v] is the least
    natural number above [v].  A visit that keeps a shard lowers its radius
    by at least half the burn rate, rounding included, unless the radius was
    below the rate, which happens once; a visit that keeps a ring lowers its
    width by at least an eighth of the rate.  [shard_fuel] and [wave_fuel]
    count the visits this leaves; [budget] adds one visit to each and sums
    over the collection. *)
Definition rounds (v : R) : nat := Z.to_nat (up v).

Definition shard_fuel (rate : JS.number) (s : Effects.ImageParticle) : nat :=
  rounds ((Effects.ip_rd s
           + (if Rlt_dec (Effects.ip_rd s) 1 then 2 * rate else 0))
          / (rate / 2)).

Definition wave_fuel (rate : JS.number) (w : Effects.Wave) : nat :=
  rounds ((Effects.w_width w - 1) / (rate / 8)).

Definition potential {A} (fuel : A -> nat) (l : list A) : nat :=
  list_sum (map (fun a => S (fuel a)) l).

Definition budget (e : Effects.Effect) : nat :=
  match e with
  | Effects.EBurst b =>
      potential (shard_fuel (Effects.b_burnRate b)) (Effects.shards b)
  | Effects.EBlastWave b =>
      potential (wave_fuel (Effects.bw_burnRate b)) (Effects.waves b)
  end.

(** Effects of ordinary size.  A burst: a burn rate from 2^-40 up to the
    last double below 2, shard radii between 0 and 1024.  A blast wave: a
    stored burn rate between 2^-40 and 1024, ring widths up to 1024. *)
Definition ordinary_shard (s : Effects.ImageParticle) : Prop :=
  0 <= Effects.ip_rd s <= 1024.

Definition ordinary_wave (w : Effects.Wave) : Prop :=
  Effects.w_width w <= 1024.

Definition ordinary (e : Effects.Effect) : Prop :=
  match e with
  | Effects.EBurst b =>
      / 1099511627776 <= Effects.b_burnRate b <= 2 - / 4503599627370496
      /\ Forall ordinary_shard (Effects.shards b)
  | Effects.EBlastWave b =>
      / 1099511627776 <= Effects.bw_burnRate b <= 1024
      /\ Forall ordinary_wave (Effects.waves b)
  end.

(** Numbers of moderate size: zero, or of magnitude between 2^-40 and 2^40.
    Their squares neither underflow nor overflow. *)
Definition moderate (x : R) : Prop :=
  x = 0 \/ / 1099511627776 <= Rabs x <= 1099511627776.

(** The width of the band around the boundary of the circle test inside
    which rounding decides: one part in 2^50. *)
Definition margin : R := / 1125899906842624.

(** The bursts a collision pushes: 1 shard for food, 20 for weed. *)
Definition small_burst (e : Effects.Effect) : Prop :=
  exists b, e = Effects.EBurst b
            /\ (length (Effects.shards b) = 1%nat
                \/ length (Effects.shards b) = 20%nat).

(** What the entity loop does to the things it shares with the rest of the
    frame: the state tag stays, and the effect list grows by collision
    bursts only. *)
Definition entity_loop_inv (c : Game.tag) (fx0 : list Effects.Effect)
    (w : Game.World) : Prop :=
  Game.current (Game.w_state w) = c
  /\ exists news, Game.w_effects w = fx0 ++ news /\ Forall small_burst news.

(** * Sample inputs *)

(** A shard at the origin with radius [rd], and the burst of the failing
    tick: the burn rate [Game.play] gives its large bursts, a first shard
    about to burn out and a second one far from it. *)
Definition shard_of (rd : JS.number) : Effects.ImageParticle :=
  {| Effects.ip_image := Some weedImage;
     Effects.ip_x := 0; Effects.ip_y := 0; Effects.ip_r := 0;
     Effects.ip_rd := rd;
     Effects.ip_vx := 1; Effects.ip_vy := 1; Effects.ip_dr := 1 |}.

Definition dying_then_live : Effects.Burst :=
  {| Effects.b_active := true;
     Effects.b_center := (Scalar 0, Scalar 0);
     Effects.b_burnRate := 0.01;
     Effects.shards := [shard_of 1.005; shard_of 10] |}.

(** An obstacle centred at the origin and a sprite centred at (3, 4): the
    centres are 5 apart. *)
Definition at_origin (r : JS.number) : Obstacle.t :=
  {| Obstacle.sprite := {| x := 0; y := 0; width := 0; height := 0; cx := 0; cy := 0;
                  radius := r; speed := 1; image := Some foodImage1 |};
     Obstacle.type := Obstacle.food; Obstacle.active := true;
     Obstacle.munches := 0 |}.

Definition at_3_4 (r : JS.number) : Sprite :=
  {| x := 0; y := 0; width := 0; height := 0; cx := 3; cy := 4;
     radius := r; speed := 1; image := Some dizzyFaceImage |}.

(** An emitter whose every draw is the lower end of its range, and the
    burst [new Burst({ n: 1, image, x: 0, y: 0, burnRate: 3 })] it emits: one
    shard of radius 5. *)
Definition low_draws : BaseUtils :=
  {| valueOrRange := fun v g =>
       match v with Scalar z => (z, g) | Range lo _ => (lo, S g) end;
     randomBetween := fun lo _ _ g => (lo, S g);
     pickSign := fun g => (1, S g);
     pickImage := fun i _ g => (i, S g) |}.

Definition restless : Effects.Burst :=
  fst (Effects.Burst_new low_draws (Some 1%nat) (Some weedImage)
         (Scalar 0) (Scalar 0) None None 3 0%nat).

(** The states [restless] runs through: the radius of its one shard goes
    5, 2, 1, 2, 1, ... and is never below 1. *)
Definition bouncing (e : Effects.Effect) : Prop :=
  exists s,
    e = Effects.EBurst
          {| Effects.b_active := true;
             Effects.b_center := (Scalar 0, Scalar 0);
             Effects.b_burnRate := 3; Effects.shards := [s] |}
    /\ (Effects.ip_rd s = 5 \/ Effects.ip_rd s = 2 \/ Effects.ip_rd s = 1).

(** A player as [Game.create] builds it for a canvas of 1000 by 600: the
    minimal size, 40 by 40. *)
Definition small_player : Player :=
  Player_new 1000 dizzyFaceImage
    [dizzyFaceImage; happyFaceImage; hungryFaceImage; fullFaceImage;
     sickFaceImage]
    500 0 40 40 40.

(** A burst that has lost all its shards and has not been ticked since. *)
Definition spent : Effects.Burst :=
  {| Effects.b_active := true;
     Effects.b_center := (Scalar 0, Scalar 0);
     Effects.b_burnRate := 0.01;
     Effects.shards := [] |}.

(** Sprites that stay where they are and never touch; distances are
    Euclidean, images square. *)
Definition still : SpriteUtils :=
  {| move := fun _ _ _ s => s;
     moveTo_y := fun _ s => s;
     collideDistance := fun _ _ => false;
     getDistance := fun s loc => dist_euc (x s) (y s) (fst loc) (snd loc);
     resize := fun _ w => (w, w) |}.

(** A game in the play state on a canvas of 1000 by 600, at frame 1, with
    the given obstacles and a player of the given width. *)
Definition playing (ents : list Obstacle.t) (w : JS.number) : Game.t :=
  {| Game.canvas_w := 1000; Game.canvas_h := 600;
     Game.frame_count := 1; Game.frame_scale := 1;
     Game.playerSize_width := 40; Game.obstacleSize_width := 40;
     Game.screen_right := 1000; Game.screen_bottom := 600;
     Game.state := {| Game.current := Game.play; Game.prev := Some Game.play;
                      Game.score := 0; Game.gameSpeed := 5;
                      Game.paused := false; Game.muted := false |};
     Game.input_left := false; Game.input_right := false;
     Game.effects := []; Game.entities := ents;
     Game.player :=
       Player_new 1000 dizzyFaceImage
         [dizzyFaceImage; happyFaceImage; hungryFaceImage; fullFaceImage;
          sickFaceImage] 500 0 w w 40;
     Game.seed := 0%nat |}.

(** A food obstacle on the top right, 900 from the left edge. *)
Definition far_food : Obstacle.t :=
  Obstacle.new Obstacle.food foodImage2 900 (-200) 40 40 5.

(** An obstacle and the player's sprite, overlapping on a 3-4-5 triangle. *)
Definition keyed_sprites : list (nat * Sprite) :=
  [(0%nat, at_3_4 1); (1%nat, at_3_4 4)].

(** Two shards far from burning out, at the burn rate of the game's large
    bursts. *)
Definition two_live : Effects.Burst :=
  {| Effects.b_active := true;
     Effects.b_center := (Scalar 0, Scalar 0);
     Effects.b_burnRate := 0.01;
     Effects.shards := [shard_of 10; shard_of 7] |}.

(** The same player grown to 400 by 400, and to 501 by 501. *)
Definition grown_player : Player :=
  Player_new 1000 dizzyFaceImage
    [dizzyFaceImage; happyFaceImage; hungryFaceImage; fullFaceImage;
     sickFaceImage]
    500 0 400 400 40.

Definition oversize_player : Player :=
  Player_new 1000 dizzyFaceImage
    [dizzyFaceImage; happyFaceImage; hungryFaceImage; fullFaceImage;
     sickFaceImage]
    500 0 501 501 40.

(** Sprites that stay where they are and touch whatever their positions;
    every location is at distance 0 of every sprite. *)
Definition touching : SpriteUtils :=
  {| move := fun _ _ _ s => s;
     moveTo_y := fun _ s => s;
     collideDistance := fun _ _ => true;
     getDistance := fun _ _ => 0;
     resize := fun _ w => (w, w) |}.

(** The player built 40 by 40 and grown to 501 by 501 by its meals, which
    is how the game it has just lost leaves it; a weed; and the game in the
    play state, as the start button puts it, with that player and that
    weed. *)
Definition bloated_player : Player :=
  set_sprite small_player (set_size (p_sprite small_player) 501 501).

Definition a_weed : Obstacle.t :=
  Obstacle.new Obstacle.weed weedImage 500 0 40 40 5.

Definition weed_on_bloated : Game.t :=
  Game.with_player (playing [a_weed] 40) bloated_player.

(** An effect list led by a spent burst, with a live one behind it. *)
Definition spent_then_live : list Effects.Effect :=
  [Effects.EBurst spent; Effects.EBurst two_live].

(** The game of [playing] with the given effects and state tag. *)
Definition staged (fx : list Effects.Effect) (c : Game.tag) (pv : option Game.tag)
    : Game.t :=
  Game.with_state
    (Game.with_effects (playing [far_food] 40) fx)
    {| Game.current := c; Game.prev := pv; Game.score := 0;
       Game.gameSpeed := 5; Game.paused := false; Game.muted := false |}.

Module ShellSamples.

Import String.

(** The game of [playing] in its shell: nothing scheduled but frame 1,
    background music playing, sound on, storage empty. *)
Definition shell_of (g : Game.t) (pl : list Shell.Sound) : Shell.t :=
  {| Shell.game := g; Shell.frame_time := 1000;
     Shell.frame_rate := Some 16; Shell.screen_scale := 0.8;
     Shell.screen_centerX := 500; Shell.scheduled := Some 1%Z;
     Shell.playlist := pl; Shell.paused_sounds := [];
     Shell.audio_running := true;
     Shell.storage := fun _ => None; Shell.prefix := "munchys"%string |}.

(** The shell as [init] leaves it: no rate measured yet. *)
Definition booting : Shell.t :=
  {| Shell.game := playing [] 40; Shell.frame_time := 1000;
     Shell.frame_rate := None; Shell.screen_scale := 0.8;
     Shell.screen_centerX := 500; Shell.scheduled := None;
     Shell.playlist := []; Shell.paused_sounds := [];
     Shell.audio_running := true;
     Shell.storage := fun _ => None; Shell.prefix := "munchys"%string |}.

Definition music : Shell.Sound :=
  {| Shell.id := 7%nat; Shell.key := Shell.backgroundMusic |}.

Definition munching : Shell.Sound :=
  {| Shell.id := 8%nat; Shell.key := Shell.munchSound |}.

End ShellSamples.

(** Sound ids handed out in sequence, from 100. *)
Definition counting_ids : Rand nat := fun g => ((100 + g)%nat, S g).

(** A sprite centred at (1, 1), and the double nearest to the square root
    of 2, which lies above it. *)
Definition at_1_1 (r : JS.number) : Sprite :=
  {| x := 0; y := 0; width := 0; height := 0; cx := 1; cy := 1;
     radius := r; speed := 1; image := Some dizzyFaceImage |}.

Definition root2_up : R := 6369051672525773 / 4503599627370496.

(** The burst [Game.play] pushes when food is eaten, emitted at the lower
    end of every range: one shard of radius 5, burnt at 0.025. *)
Definition food_burst : Effects.Effect :=
  Effects.EBurst
    (fst (Effects.Burst_new low_draws (Some 1%nat) (Some foodImage1)
            (Range 0 10) (Range 0 10)
            (Some (Range (-5) 5)) (Some (Range (-10) 1)) 0.025 0%nat)).

(** A burst with one shard of radius 5 and the burn rate 2^-54, less than
    half the spacing of the doubles below 5; and the states it runs
    through in double precision: the radius stays 5. *)
Definition sluggish : Effects.Burst :=
  {| Effects.b_active := true;
     Effects.b_center := (Scalar 0, Scalar 0);
     Effects.b_burnRate := / 18014398509481984;
     Effects.shards := [shard_of 5] |}.

Definition stuck (e : Effects.Effect) : Prop :=
  exists s,
    e = Effects.EBurst
          {| Effects.b_active := true;
             Effects.b_center := (Scalar 0, Scalar 0);
             Effects.b_burnRate := / 18014398509481984;
             Effects.shards := [s] |}
    /\ Effects.ip_rd s = 5.

(** A burst whose only shard burns out on the next tick. *)
Definition fading : Effects.Burst :=
  {| Effects.b_active := true;
     Effects.b_center := (Scalar 0, Scalar 0);
     Effects.b_burnRate := 0.01;
     Effects.shards := [shard_of 1.005] |}.

Module Binary64Samples.

Import Floats.

(** A point at the origin; a circle centred at (1, 1) whose radius is the
    double nearest to the square root of 2, which lies above it; a circle
    of radius 2^-600 centred that far to the right of the origin, so that the
    square of the offset underflows. *)
Definition at_zero : Binary64.Circle :=
  {| Binary64.cx := 0; Binary64.cy := 0; Binary64.radius := 0 |}.

Definition corner : Binary64.Circle :=
  {| Binary64.cx := 1; Binary64.cy := 1; Binary64.radius := PrimFloat.sqrt 2 |}.

Definition speck : Binary64.Circle :=
  {| Binary64.cx := 0x1p-600; Binary64.cy := 0; Binary64.radius := 0x1p-600 |}.

(** Radii and burn rates: 2^-54 is less than half the gap between 5 and
    the double below it. *)
Definition five : float := 5.
Definition three : float := 3.
Definition two : float := 2.
Definition one : float := 1.
Definition sliver : float := 0x1p-54.

End Binary64Samples.

(** * Properties *)

(** ** Comparisons *)

Lemma lt_true x y : JS.lt x y = true <-> x < y.
Proof. unfold JS.lt. destruct (Rlt_dec x y); split; intros; try easy. Qed.

Lemma lt_false x y : JS.lt x y = false <-> y <= x.
Proof.
  unfold JS.lt. destruct (Rlt_dec x y); split; intros; try easy; lra.
Qed.

Lemma gt_true x y : JS.gt x y = true <-> y < x.
Proof. apply lt_true. Qed.

Lemma gt_false x y : JS.gt x y = false <-> x <= y.
Proof. apply lt_false. Qed.

(** Decide a comparison between two concrete reals. *)
Ltac js_compare :=
  repeat match goal with
  | |- context [JS.lt ?a ?b] =>
      first [ replace (JS.lt a b) with true by (symmetry; apply lt_true; lra)
            | replace (JS.lt a b) with false by (symmetry; apply lt_false; lra) ]
  | |- context [JS.gt ?a ?b] =>
      first [ replace (JS.gt a b) with true by (symmetry; apply gt_true; lra)
            | replace (JS.gt a b) with false by (symmetry; apply gt_false; lra) ]
  end.

(** ** The emitters *)

Lemma replicateM_length {A} n (m : Rand A) g :
  length (fst (replicateM n m g)) = n.
Proof.
  revert g; induction n as [|n IH]; intros g; simpl; [reflexivity|].
  unfold bind. destruct (m g) as [a g1].
  specialize (IH g1). destruct (replicateM n m g1) as [l g2]. simpl in *.
  now rewrite IH.
Qed.

(** ** The splicing loop *)

Section ForSpliceFacts.

Variables (A St : Type).
Variable body : St -> A -> St * A * bool.

Lemma sweep_cons a tl s :
  sweep body (a :: tl) s =
  if snd (body s a) then
    match tl with
    | [] => ([], fst (fst (body s a)))
    | b :: tl' =>
        (b :: fst (sweep body tl' (fst (fst (body s a)))),
         snd (sweep body tl' (fst (fst (body s a)))))
    end
  else
    (snd (fst (body s a)) :: fst (sweep body tl (fst (fst (body s a)))),
     snd (sweep body tl (fst (fst (body s a))))).
Proof.
  simpl. destruct (snd (body s a)).
  - destruct tl as [|b tl']; [reflexivity|].
    now destruct (sweep body tl' (fst (fst (body s a)))).
  - now destruct (sweep body tl (fst (fst (body s a)))).
Qed.

Lemma skipn_nth_error (xs : list A) i a :
  nth_error xs i = Some a -> skipn i xs = a :: skipn (S i) xs.
Proof.
  revert i; induction xs as [|x0 xs IH]; intros [|i] H; simpl in *;
    try discriminate.
  - now inversion H.
  - now apply IH.
Qed.

Lemma firstn_past (pre l : list A) k :
  firstn (length pre + k) (pre ++ l) = pre ++ firstn k l.
Proof. induction pre; simpl; [reflexivity | now f_equal]. Qed.

Lemma skipn_past (pre l : list A) k :
  skipn (length pre + k) (pre ++ l) = skipn k l.
Proof. induction pre; simpl; [reflexivity | assumption]. Qed.

(** The index loop started at slot [i] leaves the first [i] slots alone and
    sweeps the rest. *)
Lemma for_splice_sweep i xs s :
  for_splice body i xs s =
  (firstn i xs ++ fst (sweep body (skipn i xs) s),
   snd (sweep body (skipn i xs) s)).
Proof.
  funelim (for_splice body i xs s).
  - match goal with IH : for_splice _ _ _ _ = (_, _) |- _ => rewrite IH end.
    assert (Hi : (i < length xs)%nat).
    { apply nth_error_Some. rewrite e. discriminate. }
    assert (Hpre : length (firstn i xs) = i).
    { rewrite length_firstn. lia. }
    rewrite (@skipn_nth_error xs i a e), sweep_cons.
    unfold after_body, splice1, assign.
    generalize dependent (firstn i xs). generalize (skipn (S i) xs).
    intros tl pre Hpre.
    replace (S i) with (length pre + 1)%nat by lia.
    destruct (snd (body s a)).
    + rewrite firstn_past, skipn_past.
      destruct tl as [|b tl']; simpl.
      * now rewrite !app_nil_r.
      * now rewrite <- app_assoc.
    + rewrite (firstn_past pre (_ :: tl) 1), (skipn_past pre (_ :: tl) 1).
      simpl. now rewrite <- app_assoc.
  - assert (Hlen : (length xs <= i)%nat) by now apply nth_error_None.
    rewrite skipn_all2, firstn_all2 by assumption. simpl.
    now rewrite app_nil_r.
Qed.

Lemma for_splice_0 xs s : for_splice body 0 xs s = sweep body xs s.
Proof. rewrite for_splice_sweep. simpl. now destruct (sweep body xs s). Qed.

(** What every pass of the body preserves holds of the state the loop ends
    in. *)
Lemma sweep_invariant (P : St -> Prop) :
  (forall s a, P s -> P (fst (fst (body s a)))) ->
  forall xs s, P s -> P (snd (sweep body xs s)).
Proof.
  intros Hbody xs.
  assert (H : (forall s, P s -> P (snd (sweep body xs s)))
              /\ (forall a s, P s -> P (snd (sweep body (a :: xs) s)))).
  { induction xs as [|b xs [IH1 IH2]].
    - split; [intros s Hs; exact Hs|].
      intros a s Hs. rewrite sweep_cons.
      destruct (snd (body s a)); simpl; now apply Hbody.
    - split; [exact (IH2 b)|].
      intros a s Hs. rewrite sweep_cons.
      destruct (snd (body s a)); cbn [snd].
      + apply IH1. now apply Hbody.
      + apply IH2. now apply Hbody. }
  exact (proj1 H).
Qed.

End ForSpliceFacts.

(** ** Obstacle: the circle test *)

Module ObstacleFacts.

Import Obstacle.

(** The distance [collidesWith] computes is the Euclidean distance between
    the two centres. *)
Lemma collidesWith_distance (a : t) (b : Sprite) :
  collidesWith a b =
  JS.lt (dist_euc (cx (sprite a)) (cy (sprite a)) (cx b) (cy b))
        (radius (sprite a) + radius b).
Proof.
  unfold collidesWith, dist_euc, JS.Math_sqrt, Rsqr. f_equal.
  - f_equal. ring.
  - ring.
Qed.

(** C10: the circle test does not depend on which of the two entities
    performs it. *)
Theorem collidesWith_symmetric (a b : t) :
  collidesWith a (sprite b) = collidesWith b (sprite a).
Proof.
  rewrite !collidesWith_distance, distance_symm. f_equal. ring.
Qed.

Lemma dist_origin_3_4 : dist_euc 0 0 3 4 = 5.
Proof.
  unfold dist_euc, Rsqr.
  replace ((0 - 3) * (0 - 3) + (0 - 4) * (0 - 4)) with (5 * 5) by ring.
  apply sqrt_square. lra.
Qed.

End ObstacleFacts.

(** ** Effects: one tick *)

Module EffectsFacts.

Import Effects.

Lemma Burst_tick_sweep (b : Burst) :
  b_active b = true -> shards b <> [] ->
  Burst_tick b =
  ({| b_active := true; b_center := b_center b; b_burnRate := b_burnRate b;
      shards := fst (sweep (shard_body (b_burnRate b)) (shards b) []) |},
   snd (sweep (shard_body (b_burnRate b)) (shards b) [])).
Proof.
  intros Ha Hne. unfold Burst_tick. rewrite Ha. simpl negb. cbv iota.
  destruct (shards b) as [|s0 l] eqn:E; [congruence|].
  change (length (s0 :: l) =? 0)%nat with false. cbv iota.
  rewrite for_splice_0.
  now destruct (sweep (shard_body (b_burnRate b)) (s0 :: l) []).
Qed.

Lemma BlastWave_tick_sweep (b : BlastWave) :
  bw_active b = true -> waves b <> [] ->
  BlastWave_tick b =
  ({| bw_active := true; bw_center := bw_center b;
      bw_burnRate := bw_burnRate b; bw_hue := bw_hue b;
      waves := fst (sweep (wave_body (bw_burnRate b)) (waves b) []) |},
   snd (sweep (wave_body (bw_burnRate b)) (waves b) [])).
Proof.
  intros Ha Hne. unfold BlastWave_tick. rewrite Ha. simpl negb. cbv iota.
  destruct (waves b) as [|s0 l] eqn:E; [congruence|].
  change (length (s0 :: l) =? 0)%nat with false. cbv iota.
  rewrite for_splice_0.
  now destruct (sweep (wave_body (bw_burnRate b)) (s0 :: l) []).
Qed.

(** C2, at the failing input: the first shard burns out on this tick and is
    spliced from slot 0; the second shard, present when the tick started, is
    then neither advanced nor drawn nor removed. *)
Theorem Burst_tick_skips_successor :
  shards (fst (Burst_tick dying_then_live)) = [shard_of 10]
  /\ snd (Burst_tick dying_then_live) = [burn_shard 0.01 (shard_of 1.005)].
Proof.
  rewrite Burst_tick_sweep by (simpl; congruence).
  cbn [dying_then_live shards b_burnRate fst snd].
  rewrite sweep_cons.
  assert (Hburn : snd (shard_body 0.01 [] (shard_of 1.005)) = true).
  { unfold shard_body, burn_shard, shard_of, JS.Math_abs. cbn [snd ip_rd].
    apply lt_true. unfold Rabs. destruct (Rcase_abs _); lra. }
  rewrite Hburn. cbn [sweep fst snd shard_body app]. split; reflexivity.
Qed.

(** X8: the slip in general: whenever the shard of slot 0 burns out, the
    shard behind it comes out of the tick exactly as it went in, now in
    slot 0. *)
Lemma Burst_tick_skip (b : Burst) (s1 s2 : ImageParticle) rest :
  b_active b = true ->
  shards b = s1 :: s2 :: rest ->
  ip_rd (burn_shard (b_burnRate b) s1) < 1 ->
  exists out, shards (fst (Burst_tick b)) = s2 :: out.
Proof.
  intros Ha Hs Hburn.
  rewrite Burst_tick_sweep by (rewrite ?Hs; congruence).
  rewrite Hs. cbn [shards fst]. rewrite sweep_cons.
  assert (H : snd (shard_body (b_burnRate b) [] s1) = true).
  { unfold shard_body. cbn [snd]. now apply lt_true. }
  rewrite H. eexists. reflexivity.
Qed.

(** On a tick during which no shard burns out, every shard is advanced and
    drawn, in order. *)
Lemma sweep_no_burn (rate : JS.number) (l drawn : list ImageParticle) :
  Forall (fun s => 1 <= ip_rd (burn_shard rate s)) l ->
  sweep (shard_body rate) l drawn
  = (map (burn_shard rate) l, drawn ++ map (burn_shard rate) l).
Proof.
  revert drawn; induction l as [|a l IH]; intros drawn H.
  - simpl. now rewrite app_nil_r.
  - inversion H as [|? ? Ha Hl]; subst. rewrite sweep_cons.
    assert (Hkeep : snd (shard_body rate drawn a) = false).
    { unfold shard_body. cbn [snd]. now apply lt_false. }
    rewrite Hkeep, IH by assumption.
    unfold shard_body. cbn [fst snd map]. now rewrite <- app_assoc.
Qed.

(** X7: on a tick of an active burst during which no shard burns out, every
    shard is advanced and drawn, in slot order. *)
Lemma Burst_tick_no_burn (b : Burst) :
  b_active b = true -> shards b <> [] ->
  Forall (fun s => 1 <= ip_rd (burn_shard (b_burnRate b) s)) (shards b) ->
  shards (fst (Burst_tick b)) = map (burn_shard (b_burnRate b)) (shards b)
  /\ snd (Burst_tick b) = map (burn_shard (b_burnRate b)) (shards b).
Proof.
  intros Ha Hne Hall. rewrite Burst_tick_sweep, sweep_no_burn by assumption.
  split; reflexivity.
Qed.

(** A blast wave is built with a single ring, whatever its arguments. *)
Lemma BlastWave_new_single (U : BaseUtils) bx by_ w hue rate g :
  length (waves (fst (BlastWave_new U bx by_ w hue rate g))) = 1%nat.
Proof.
  unfold BlastWave_new, bind, radialWaveEmitter.
  destruct rate as [[v|lo hi]|]; unfold ret at 1;
    [ | destruct (randomBetween U lo hi false g) as [r g1] | ];
    match goal with |- context [replicateM 1 ?m ?g0] =>
      pose proof (replicateM_length 1 m g0) as Hlen;
      destruct (replicateM 1 m g0) as [ws g2] end;
    exact Hlen.
Qed.

(** *** The lifecycle flag *)

Lemma tick_inactive (e : Effect) :
  active e = false -> tick e = (e, []).
Proof.
  destruct e as [b|b]; simpl; intros H.
  - unfold Burst_tick. now rewrite H.
  - unfold BlastWave_tick. now rewrite H.
Qed.

Lemma tick_active_empty (e : Effect) :
  active e = true -> particles e = 0%nat ->
  active (fst (tick e)) = false /\ snd (tick e) = [].
Proof.
  destruct e as [b|b]; simpl; intros Ha Hp.
  - unfold Burst_tick. now rewrite Ha, Hp.
  - unfold BlastWave_tick. now rewrite Ha, Hp.
Qed.

Lemma tick_active_nonempty (e : Effect) :
  active e = true -> particles e <> 0%nat -> active (fst (tick e)) = true.
Proof.
  destruct e as [b|b]; simpl; intros Ha Hp.
  - rewrite Burst_tick_sweep; [reflexivity | assumption |].
    intros E. now rewrite E in Hp.
  - rewrite BlastWave_tick_sweep; [reflexivity | assumption |].
    intros E. now rewrite E in Hp.
Qed.

Lemma ticks_S n e : ticks (S n) e = fst (tick (ticks n e)).
Proof. revert e; induction n as [|n IH]; intros e; [reflexivity|]. apply IH. Qed.

Lemma inactive_forever (e : Effect) n :
  active (ticks n e) = false ->
  forall m, (n <= m)%nat -> ticks m e = ticks n e.
Proof.
  intros H m Hm. induction Hm as [|m Hm IH]; [reflexivity|].
  rewrite ticks_S, IH, tick_inactive by assumption. reflexivity.
Qed.

Lemma active_before (e : Effect) n :
  active (ticks n e) = true ->
  forall k, (k <= n)%nat -> active (ticks k e) = true.
Proof.
  intros H k Hk. destruct (active (ticks k e)) eqn:E; [reflexivity|].
  rewrite <- (@inactive_forever e k E n Hk) in E. congruence.
Qed.

Lemma deactivates_iff_empty (e : Effect) n :
  deactivates_at e n <->
  active (ticks n e) = true /\ particles (ticks n e) = 0%nat.
Proof.
  unfold deactivates_at. rewrite ticks_S. split; intros [Ha H]; split; trivial.
  - destruct (Nat.eq_dec (particles (ticks n e)) 0) as [E|E]; [assumption|].
    rewrite (@tick_active_nonempty _ Ha E) in H. discriminate.
  - now apply tick_active_empty.
Qed.

Lemma deactivates_unique (e : Effect) n1 n2 :
  deactivates_at e n1 -> deactivates_at e n2 -> n1 = n2.
Proof.
  intros [Ha1 Hi1] [Ha2 Hi2].
  destruct (Nat.lt_trichotomy n1 n2) as [Hlt|[Heq|Hlt]]; [|assumption|].
  - rewrite (@inactive_forever e (S n1) Hi1 n2) in Ha2 by lia. congruence.
  - rewrite (@inactive_forever e (S n2) Hi2 n1) in Ha1 by lia. congruence.
Qed.

Lemma went_inactive_before (e : Effect) k :
  active e = true -> active (ticks k e) = false ->
  exists n, (n < k)%nat /\ deactivates_at e n.
Proof.
  intros Ha. induction k as [|k IH]; intros Hk.
  - simpl in Hk. congruence.
  - destruct (active (ticks k e)) eqn:E.
    + exists k. split; [lia|]. split; assumption.
    + destruct (IH eq_refl) as [n [Hn Hd]]. exists n. split; [lia|assumption].
Qed.

(** C3, amended: an effect goes inactive at most once, and exactly once if
    some tick finds the particle collection of an effect built active empty;
    it does so on the first such tick: the tick at which the flag drops is
    unique, starts with an empty collection, and every tick before it
    started with a non-empty one; from then on a tick changes nothing and
    draws nothing. *)
Theorem effect_deactivates_once (e : Effect) :
  (forall k, active e = true -> particles (ticks k e) = 0%nat ->
             exists n, (n <= k)%nat /\ deactivates_at e n
                       /\ forall m, deactivates_at e m -> m = n)
  /\ (forall n, deactivates_at e n <->
                active (ticks n e) = true /\ particles (ticks n e) = 0%nat)
  /\ (forall n, deactivates_at e n ->
                forall k, (k < n)%nat -> particles (ticks k e) <> 0%nat)
  /\ (forall n, active (ticks n e) = false ->
                forall m, (n <= m)%nat ->
                tick (ticks m e) = (ticks n e, []))
  /\ (forall m n, deactivates_at e m -> deactivates_at e n -> m = n).
Proof.
  split; [|split; [|split; [|split]]]; [| | | |apply deactivates_unique].
  - intros k Ha Hp. destruct (active (ticks k e)) eqn:E.
    + exists k. split; [lia|]. split.
      * apply deactivates_iff_empty. now split.
      * intros m Hm. apply (@deactivates_unique e m k Hm).
        apply deactivates_iff_empty. now split.
    + destruct (@went_inactive_before e k Ha E) as [n [Hn Hd]].
      exists n. split; [lia|]. split; [assumption|].
      intros m Hm. exact (@deactivates_unique e m n Hm Hd).
  - intros n. apply deactivates_iff_empty.
  - intros n Hn k Hk Hp. destruct Hn as [Ha Hi].
    assert (Hak : active (ticks k e) = true).
    { apply (@active_before e n Ha). lia. }
    destruct (@tick_active_empty _ Hak Hp) as [Hoff _].
    rewrite <- ticks_S in Hoff.
    rewrite (@inactive_forever e (S k) Hoff n) in Ha by lia. congruence.
  - intros n Hn m Hm.
    rewrite (@inactive_forever e n Hn m Hm). now apply tick_inactive.
Qed.

Lemma fading_tick : fst (tick (EBurst fading)) = EBurst spent.
Proof.
  cbn [tick]. rewrite Burst_tick_sweep by (simpl; congruence).
  cbn [fading shards b_burnRate b_center fst snd]. rewrite sweep_cons.
  assert (Hburn : snd (shard_body 0.01 [] (shard_of 1.005)) = true).
  { unfold shard_body, burn_shard, shard_of, JS.Math_abs. cbn [snd ip_rd].
    apply lt_true. unfold Rabs. destruct (Rcase_abs _); lra. }
  rewrite Hburn. reflexivity.
Qed.

Lemma effect_deactivates_once_witness :
  (exists n, (n <= 1)%nat /\ deactivates_at (EBurst fading) n
             /\ forall m, deactivates_at (EBurst fading) m -> m = n)
  /\ tick (ticks 2 (EBurst fading)) = (ticks 2 (EBurst fading), []).
Proof.
  destruct (effect_deactivates_once (EBurst fading))
    as [Honce [_ [_ [Hnoop _]]]].
  split.
  - apply (Honce 1%nat); [reflexivity|].
    cbn [ticks]. rewrite fading_tick. reflexivity.
  - apply (Hnoop 2%nat); [|apply le_n].
    cbn [ticks]. rewrite fading_tick. reflexivity.
Defined.

(** *** Dying out *)

Section SweepPotential.

Variables (A St : Type).
Variable body : St -> A -> St * A * bool.
Variable fuel : A -> nat.
Variable P : A -> Prop.

Hypothesis fuel_burns :
  forall s a, P a -> snd (body s a) = false ->
              P (snd (fst (body s a)))
              /\ (fuel (snd (fst (body s a))) < fuel a)%nat.

Lemma sweep_potential_pair (l : list A) :
  Forall P l ->
  (forall s, Forall P (fst (sweep body l s))
             /\ (potential fuel (fst (sweep body l s)) <= potential fuel l)%nat)
  /\ (forall a s, P a ->
                  Forall P (fst (sweep body (a :: l) s))
                  /\ (potential fuel (fst (sweep body (a :: l) s))
                       < potential fuel (a :: l))%nat).
Proof.
  induction l as [|b l IH]; intros Hl.
  - split; [intros; simpl; split; [constructor | lia]|].
    intros a s Ha. rewrite sweep_cons. destruct (snd (body s a)) eqn:E.
    + split; [constructor | unfold potential; simpl; lia].
    + destruct (fuel_burns s Ha E) as [HP Hlt].
      split; [repeat constructor; assumption | unfold potential; simpl; lia].
  - inversion Hl as [|? ? Hb Hl']; subst.
    destruct (IH Hl') as [IHle IHlt]. split.
    + intros s. destruct (IHlt b s Hb) as [HP Hlt]. split; [assumption | lia].
    + intros a s Ha. rewrite sweep_cons. destruct (snd (body s a)) eqn:E.
      * destruct (IHle (fst (fst (body s a)))) as [HP Hle].
        split; [constructor; assumption|].
        unfold potential in *; simpl in *; lia.
      * destruct (fuel_burns s Ha E) as [HPa Hlt].
        destruct (IHlt b (fst (fst (body s a))) Hb) as [HP Hlt'].
        split; [constructor; assumption|].
        unfold potential in *; simpl in *; lia.
Qed.

Lemma sweep_potential (l : list A) s :
  l <> [] -> Forall P l ->
  Forall P (fst (sweep body l s))
  /\ (potential fuel (fst (sweep body l s)) < potential fuel l)%nat.
Proof.
  destruct l as [|a l]; [congruence|]. intros _ Hl.
  inversion Hl as [|? ? Ha Hl']; subst.
  now apply (proj2 (sweep_potential_pair Hl')).
Qed.

End SweepPotential.

Lemma potential_zero {A} (fuel : A -> nat) (l : list A) :
  potential fuel l = 0%nat <-> l = [].
Proof.
  destruct l; unfold potential; simpl; split; intros; try easy; lia.
Qed.

Lemma rounds_step (a b rate : R) :
  0 < rate -> 0 <= a -> a + rate <= b ->
  (rounds (a / rate) < rounds (b / rate))%nat.
Proof.
  intros Hr Ha Hab. unfold rounds.
  assert (Hx : 0 < / rate) by now apply Rinv_0_lt_compat.
  assert (Hone : rate * / rate = 1) by (apply Rinv_r; lra).
  assert (Hstep : a / rate + 1 <= b / rate).
  { unfold Rdiv. rewrite <- Hone at 1.
    replace (a * / rate + rate * / rate) with ((a + rate) * / rate) by ring.
    apply Rmult_le_compat_r; lra. }
  assert (H0 : 0 <= a / rate).
  { unfold Rdiv. apply Rmult_le_pos; lra. }
  destruct (archimed (a / rate)) as [Ha1 Ha2].
  destruct (archimed (b / rate)) as [Hb1 Hb2].
  assert (Hlt : (up (a / rate) < up (b / rate))%Z).
  { apply lt_IZR. lra. }
  assert (Hpos : (0 < up (a / rate))%Z).
  { apply lt_IZR. lra. }
  apply Z2Nat.inj_lt; lia.
Qed.

(** *** A burst that never dies *)

Lemma bouncing_tick (e : Effect) : bouncing e -> bouncing (fst (tick e)).
Proof.
  intros [s [-> Hrd]]. simpl.
  rewrite Burst_tick_sweep by (simpl; congruence).
  cbn [shards b_burnRate b_center fst]. rewrite sweep_cons.
  assert (Hkeep : snd (shard_body 3 [] s) = false).
  { unfold shard_body, burn_shard, JS.Math_abs. cbn [snd ip_rd].
    apply lt_false. unfold Rabs.
    destruct (Rcase_abs (ip_rd s - 3)); lra. }
  rewrite Hkeep. cbn [sweep fst snd shard_body].
  exists (burn_shard 3 s). split; [reflexivity|].
  unfold burn_shard, JS.Math_abs, Rabs. cbn [ip_rd].
  destruct (Rcase_abs (ip_rd s - 3)); lra.
Qed.

Lemma bouncing_forever n : forall e, bouncing e -> active (ticks n e) = true.
Proof.
  induction n as [|n IH]; intros e He.
  - destruct He as [s [-> _]]. reflexivity.
  - simpl. apply IH. now apply bouncing_tick.
Qed.

(** C3 as stated fails: the burst built with burn rate 3 whose shard is
    emitted with radius 5 is built active and there is no tick at which it
    goes inactive, since no tick finds its collection empty. *)
Lemma restless_never_deactivates :
  b_active restless = true
  /\ forall n, particles (ticks n (EBurst restless)) <> 0%nat
                /\ ~ deactivates_at (EBurst restless) n.
Proof.
  split; [reflexivity|]. intros n.
  assert (Hb : bouncing (EBurst restless)).
  { eexists. split; [reflexivity|]. left. reflexivity. }
  assert (Hon : active (ticks (S n) (EBurst restless)) = true)
    by now apply bouncing_forever.
  split.
  - intros Hp.
    destruct (@tick_active_empty (ticks n (EBurst restless))) as [Hoff _];
      [now apply bouncing_forever | exact Hp |].
    rewrite <- ticks_S in Hoff. congruence.
  - intros [_ Hoff]. congruence.
Qed.

End EffectsFacts.

(** ** Double precision: rounding to nearest, and any rounding like it *)

Module RoundedFacts.

Import Effects EffectsFacts.

(** *** Rounding to nearest *)

Lemma Int_part_bounds (y : R) : IZR (Int_part y) <= y < IZR (Int_part y) + 1.
Proof. destruct (base_Int_part y). lra. Qed.

Lemma Int_part_mono (x y : R) : x <= y -> (Int_part x <= Int_part y)%Z.
Proof.
  intros H. pose proof (Int_part_bounds x). pose proof (Int_part_bounds y).
  apply Z.lt_succ_r. apply lt_IZR. rewrite succ_IZR. lra.
Qed.

Lemma nearest_integer_near (y : R) :
  Rabs (IZR (Rounded.nearest_integer y) - y) <= / 2
  /\ (Int_part y <= Rounded.nearest_integer y <= Int_part y + 1)%Z.
Proof.
  pose proof (Int_part_bounds y) as Hb. unfold Rounded.nearest_integer.
  destruct (Rlt_dec (y - IZR (Int_part y)) (/ 2)) as [H1|H1];
    [|destruct (Rlt_dec (/ 2) (y - IZR (Int_part y))) as [H2|H2];
      [|destruct (Z.even (Int_part y))]];
    rewrite ?plus_IZR; (split; [unfold Rabs; destruct (Rcase_abs _); lra | lia]).
Qed.

Lemma nearest_integer_mono (x y : R) :
  x <= y -> (Rounded.nearest_integer x <= Rounded.nearest_integer y)%Z.
Proof.
  intros H. pose proof (Int_part_mono H) as Hm.
  pose proof (Int_part_bounds x) as Hx. pose proof (Int_part_bounds y) as Hy.
  destruct (Z.eq_dec (Int_part x) (Int_part y)) as [E|E].
  - unfold Rounded.nearest_integer. rewrite E in *.
    destruct (Rlt_dec (x - IZR (Int_part y)) (/ 2)),
             (Rlt_dec (y - IZR (Int_part y)) (/ 2)),
             (Rlt_dec (/ 2) (x - IZR (Int_part y))),
             (Rlt_dec (/ 2) (y - IZR (Int_part y))),
             (Z.even (Int_part y)); try lia; try lra.
  - destruct (nearest_integer_near x) as [_ [_ Hx2]].
    destruct (nearest_integer_near y) as [_ [Hy1 _]]. lia.
Qed.

Lemma ln2_pos : 0 < ln 2.
Proof. pose proof ln_lt_2. lra. Qed.

Lemma binade_spec (t : R) :
  0 < t -> powerRZ 2 (Rounded.binade t) <= t < powerRZ 2 (Rounded.binade t + 1).
Proof.
  intros Ht. pose proof ln2_pos as H2.
  pose proof (Int_part_bounds (ln t / ln 2)) as Hb. fold (Rounded.binade t) in Hb.
  rewrite !powerRZ_Rpower by lra. unfold Rpower. rewrite plus_IZR.
  set (e := Rounded.binade t) in *.
  assert (E : ln t = ln t / ln 2 * ln 2) by (field; lra).
  assert (Hlo : IZR e * ln 2 <= ln t).
  { rewrite E. apply Rmult_le_compat_r; lra. }
  assert (Hhi : ln t < (IZR e + 1) * ln 2).
  { rewrite E at 1. apply Rmult_lt_compat_r; lra. }
  split.
  - destruct Hlo as [Hlt|Heq].
    + left. rewrite <- (exp_ln t Ht). now apply exp_increasing.
    + rewrite Heq, exp_ln by assumption. lra.
  - rewrite <- (exp_ln t Ht) at 1. now apply exp_increasing.
Qed.

Lemma binade_mono (s t : R) : 0 < s -> s <= t -> (Rounded.binade s <= Rounded.binade t)%Z.
Proof.
  intros Hs Hst. apply Int_part_mono. pose proof ln2_pos.
  apply Rmult_le_compat_r; [left; now apply Rinv_0_lt_compat|].
  destruct Hst as [Hlt | ->]; [left; now apply ln_increasing | lra].
Qed.

Lemma ulp_pos (t : R) : 0 < Rounded.ulp t.
Proof. apply powerRZ_lt. lra. Qed.

Lemma powerRZ_2_split (e k : Z) : powerRZ 2 (e + k) = powerRZ 2 e * powerRZ 2 k.
Proof. apply powerRZ_add. lra. Qed.

(** A positive number, counted in units of the spacing around it, lies
    between 2^52 and 2^53. *)
Lemma scaled_range (t : R) :
  0 < t -> 4503599627370496 <= t / Rounded.ulp t < 9007199254740992.
Proof.
  intros Ht. destruct (binade_spec Ht) as [Hlo Hhi].
  pose proof (ulp_pos t) as Hu. unfold Rounded.ulp in *.
  set (e := Rounded.binade t) in *.
  assert (E1 : powerRZ 2 e = 4503599627370496 * powerRZ 2 (e - 52)).
  { replace e with ((e - 52) + 52)%Z at 1 by lia. rewrite powerRZ_2_split.
    replace (powerRZ 2 52) with 4503599627370496 by (simpl; lra). ring. }
  assert (E2 : powerRZ 2 (e + 1) = 9007199254740992 * powerRZ 2 (e - 52)).
  { replace (e + 1)%Z with ((e - 52) + 53)%Z by lia. rewrite powerRZ_2_split.
    replace (powerRZ 2 53) with 9007199254740992 by (simpl; lra). ring. }
  set (q := powerRZ 2 (e - 52)) in *.
  split.
  - apply Rmult_le_reg_r with q; [assumption|].
    unfold Rdiv. rewrite Rmult_assoc, Rinv_l by lra. lra.
  - apply Rmult_lt_reg_r with q; [assumption|].
    unfold Rdiv. rewrite Rmult_assoc, Rinv_l by lra. lra.
Qed.

Lemma powerRZ_2_mono (a b : Z) : (a <= b)%Z -> powerRZ 2 a <= powerRZ 2 b.
Proof.
  intros H. replace b with (a + (b - a))%Z by lia. rewrite powerRZ_2_split.
  pose proof (powerRZ_lt 2 a ltac:(lra)) as Ha.
  assert (H1 : 1 <= powerRZ 2 (b - a)).
  { destruct (b - a)%Z as [|p|p] eqn:E; try lia.
    - simpl. lra.
    - simpl. apply pow_R1_Rle. lra. }
  rewrite <- (Rmult_1_r (powerRZ 2 a)) at 1.
  apply Rmult_le_compat_l; lra.
Qed.

Lemma nearest_pos_bounds (t : R) :
  0 < t ->
  4503599627370496 * Rounded.ulp t <= Rounded.nearest_pos t <= 9007199254740992 * Rounded.ulp t.
Proof.
  intros Ht. destruct (scaled_range Ht) as [Hlo Hhi].
  pose proof (ulp_pos t) as Hu. unfold Rounded.nearest_pos.
  destruct (nearest_integer_near (t / Rounded.ulp t)) as [_ [Hn1 Hn2]].
  pose proof (Int_part_bounds (t / Rounded.ulp t)) as Hb.
  assert (H1 : (4503599627370496 <= Int_part (t / Rounded.ulp t))%Z).
  { apply Z.lt_succ_r. apply lt_IZR. rewrite succ_IZR. lra. }
  assert (H2 : (Int_part (t / Rounded.ulp t) < 9007199254740992)%Z).
  { apply lt_IZR. lra. }
  split; apply Rmult_le_compat_r; try lra; apply IZR_le; lia.
Qed.

Lemma nearest_pos_error (t : R) :
  0 < t -> Rabs (Rounded.nearest_pos t - t) <= Rounded.unit_roundoff * t.
Proof.
  intros Ht. destruct (scaled_range Ht) as [Hlo _].
  pose proof (ulp_pos t) as Hu. unfold Rounded.nearest_pos.
  destruct (nearest_integer_near (t / Rounded.ulp t)) as [Hn _].
  set (n := IZR (Rounded.nearest_integer (t / Rounded.ulp t))) in *.
  assert (E : n * Rounded.ulp t - t = (n - t / Rounded.ulp t) * Rounded.ulp t) by (field; lra).
  rewrite E, Rabs_mult, (Rabs_pos_eq (Rounded.ulp t)) by lra.
  assert (Hq : 4503599627370496 * Rounded.ulp t <= t).
  { apply Rmult_le_reg_r with (/ Rounded.ulp t); [now apply Rinv_0_lt_compat|].
    rewrite Rmult_assoc, Rinv_r by lra. unfold Rdiv in Hlo. lra. }
  assert (H1 : Rabs (n - t / Rounded.ulp t) * Rounded.ulp t <= / 2 * Rounded.ulp t)
    by (apply Rmult_le_compat_r; lra).
  unfold Rounded.unit_roundoff. lra.
Qed.

Lemma nearest_pos_mono (s t : R) :
  0 < s -> s <= t -> Rounded.nearest_pos s <= Rounded.nearest_pos t.
Proof.
  intros Hs Hst. assert (Ht : 0 < t) by lra.
  pose proof (binade_mono Hs Hst) as Hb.
  destruct (Z.eq_dec (Rounded.binade s) (Rounded.binade t)) as [E|E].
  - unfold Rounded.nearest_pos, Rounded.ulp. rewrite E.
    pose proof (powerRZ_lt 2 (Rounded.binade t - 52) ltac:(lra)) as Hq.
    apply Rmult_le_compat_r; [lra|]. apply IZR_le, nearest_integer_mono.
    apply Rmult_le_compat_r; [left; now apply Rinv_0_lt_compat | assumption].
  - destruct (nearest_pos_bounds Hs) as [_ Hup].
    destruct (nearest_pos_bounds Ht) as [Hlo _].
    assert (Hstep : 9007199254740992 * Rounded.ulp s <= 4503599627370496 * Rounded.ulp t).
    { unfold Rounded.ulp.
      replace 9007199254740992 with (powerRZ 2 53) by (simpl; lra).
      replace 4503599627370496 with (powerRZ 2 52) by (simpl; lra).
      rewrite <- !powerRZ_2_split. apply powerRZ_2_mono. lia. }
    lra.
Qed.

Lemma nearest_pos_pos (t : R) : 0 < t -> 0 < Rounded.nearest_pos t.
Proof.
  intros Ht. destruct (nearest_pos_bounds Ht) as [Hlo _].
  pose proof (ulp_pos t). lra.
Qed.

(** Rounding to nearest is a rounding in the sense of [binary64_like]. *)
Lemma nearest_binary64_like : Rounded.binary64_like Rounded.nearest.
Proof.
  split; [|split].
  - intros x y Hxy. unfold Rounded.nearest.
    destruct (Rlt_dec 0 x) as [Hx|Hx], (Rlt_dec 0 y) as [Hy|Hy]; try lra.
    + now apply nearest_pos_mono.
    + destruct (Rlt_dec x 0) as [Hx'|Hx'].
      * pose proof (@nearest_pos_pos (- x) ltac:(lra)).
        pose proof (nearest_pos_pos Hy). lra.
      * pose proof (nearest_pos_pos Hy). lra.
    + destruct (Rlt_dec x 0) as [Hx'|Hx'], (Rlt_dec y 0) as [Hy'|Hy']; try lra.
      * assert (Rounded.nearest_pos (- y) <= Rounded.nearest_pos (- x))
          by (apply nearest_pos_mono; lra).
        lra.
      * pose proof (@nearest_pos_pos (- x) ltac:(lra)). lra.
  - unfold Rounded.nearest. destruct (Rlt_dec 0 0); [lra|].
    destruct (Rlt_dec 0 0); [lra | reflexivity].
  - intros x _. unfold Rounded.nearest.
    destruct (Rlt_dec 0 x) as [Hx|Hx]; [|destruct (Rlt_dec x 0) as [Hx'|Hx']].
    + rewrite (Rabs_pos_eq x) by lra. now apply nearest_pos_error.
    + rewrite (Rabs_left x) by lra.
      pose proof (@nearest_pos_error (- x) ltac:(lra)) as H.
      replace (- Rounded.nearest_pos (- x) - x) with (- (Rounded.nearest_pos (- x) - - x)) by ring.
      now rewrite Rabs_Ropp.
    + replace x with 0 by lra. rewrite Rminus_0_r, Rabs_R0. lra.
Qed.

Lemma binade_unique (t : R) (e : Z) :
  powerRZ 2 e <= t < powerRZ 2 (e + 1) -> Rounded.binade t = e.
Proof.
  intros [Hlo Hhi].
  assert (Ht : 0 < t) by (pose proof (powerRZ_lt 2 e ltac:(lra)); lra).
  destruct (binade_spec Ht) as [Blo Bhi].
  destruct (Z.lt_trichotomy (Rounded.binade t) e) as [H|[H|H]]; [|assumption|].
  - pose proof (@powerRZ_2_mono (Rounded.binade t + 1) e ltac:(lia)). lra.
  - pose proof (@powerRZ_2_mono (e + 1) (Rounded.binade t) ltac:(lia)). lra.
Qed.

Lemma nearest_integer_unique (y : R) (m : Z) :
  Rabs (IZR m - y) < / 2 -> Rounded.nearest_integer y = m.
Proof.
  intros H. destruct (nearest_integer_near y) as [Hn _].
  set (n := Rounded.nearest_integer y) in *.
  assert (H1 : IZR n - IZR m < 1 /\ IZR m - IZR n < 1).
  { revert H Hn. unfold Rabs.
    destruct (Rcase_abs (IZR m - y)), (Rcase_abs (IZR n - y)); lra. }
  destruct H1 as [Ha Hb]. rewrite <- minus_IZR in Ha, Hb.
  apply lt_IZR in Ha, Hb. lia.
Qed.

(* a number within half a unit of [m] units of the spacing of its Rounded.binade
   rounds to [m] units *)
Lemma nearest_at (t : R) (e m : Z) :
  powerRZ 2 e <= t < powerRZ 2 (e + 1) ->
  Rabs (IZR m - t / powerRZ 2 (e - 52)) < / 2 ->
  Rounded.nearest t = IZR m * powerRZ 2 (e - 52).
Proof.
  intros Hb Hm.
  assert (Ht : 0 < t) by (pose proof (powerRZ_lt 2 e ltac:(lra)); lra).
  unfold Rounded.nearest. destruct (Rlt_dec 0 t) as [_|]; [|lra].
  unfold Rounded.nearest_pos, Rounded.ulp. rewrite (@binade_unique t e Hb).
  now rewrite (@nearest_integer_unique _ m Hm).
Qed.

(** The numbers with a mantissa of 53 bits are left alone. *)
Lemma nearest_exact (m e : Z) :
  (4503599627370496 <= m < 9007199254740992)%Z ->
  Rounded.nearest (IZR m * powerRZ 2 (e - 52)) = IZR m * powerRZ 2 (e - 52).
Proof.
  intros [H1 H2].
  pose proof (powerRZ_lt 2 (e - 52) ltac:(lra)) as Hq.
  apply nearest_at.
  - replace e with ((e - 52) + 52)%Z at 1 by lia.
    replace (e + 1)%Z with ((e - 52) + 53)%Z by lia.
    rewrite !powerRZ_2_split.
    replace (powerRZ 2 52) with 4503599627370496 by (simpl; lra).
    replace (powerRZ 2 53) with 9007199254740992 by (simpl; lra).
    apply IZR_le in H1. apply IZR_lt in H2.
    set (q := powerRZ 2 (e - 52)) in *. split.
    + rewrite (Rmult_comm q). apply Rmult_le_compat_r; lra.
    + rewrite (Rmult_comm q). apply Rmult_lt_compat_r; lra.
  - unfold Rdiv. rewrite Rmult_assoc, Rinv_r by lra.
    rewrite Rmult_1_r, Rminus_diag, Rabs_R0. lra.
Qed.

Lemma nearest_opp (x : R) : Rounded.nearest (- x) = - Rounded.nearest x.
Proof.
  unfold Rounded.nearest.
  destruct (Rlt_dec 0 (- x)), (Rlt_dec 0 x), (Rlt_dec (- x) 0), (Rlt_dec x 0);
    try lra; rewrite ?Ropp_involutive; try reflexivity; lra.
Qed.

Lemma nearest_1 : Rounded.nearest 1 = 1.
Proof.
  replace 1 with (IZR 4503599627370496 * powerRZ 2 (0 - 52)) at 1 2
    by (simpl; lra).
  apply nearest_exact. lia.
Qed.

Lemma nearest_2 : Rounded.nearest 2 = 2.
Proof.
  replace 2 with (IZR 4503599627370496 * powerRZ 2 (1 - 52)) at 1 2
    by (simpl; lra).
  apply nearest_exact. lia.
Qed.

(** The square root of 2 rounds to 6369051672525773 * 2^-52, which lies
    above it. *)
Lemma nearest_root2 :
  Rounded.nearest (sqrt 2) = 6369051672525773 / 4503599627370496.
Proof.
  assert (Hlo : 12738103345051545 / 9007199254740992 < sqrt 2).
  { rewrite <- (sqrt_square (12738103345051545 / 9007199254740992)) by lra.
    apply sqrt_lt_1_alt. lra. }
  assert (Hhi : sqrt 2 < 12738103345051547 / 9007199254740992).
  { rewrite <- (sqrt_square (12738103345051547 / 9007199254740992)) by lra.
    apply sqrt_lt_1_alt. lra. }
  rewrite (@nearest_at (sqrt 2) 0 6369051672525773).
  - simpl. lra.
  - simpl. lra.
  - replace (powerRZ 2 (0 - 52)) with (/ 4503599627370496) by (simpl; lra).
    unfold Rabs. destruct (Rcase_abs _); lra.
Qed.

Lemma nearest_root2_exact :
  Rounded.nearest (6369051672525773 / 4503599627370496)
  = 6369051672525773 / 4503599627370496.
Proof.
  replace (6369051672525773 / 4503599627370496)
    with (IZR 6369051672525773 * powerRZ 2 (0 - 52)) by (simpl; lra).
  apply nearest_exact. lia.
Qed.

(** *** Any rounding of that kind *)

Section WithRounding.

Variable fl : R -> R.
Hypothesis Hfl : Rounded.binary64_like fl.

(** The error bound, for a positive number of ordinary magnitude. *)
Lemma fl_near (x : R) :
  Rounded.small <= x <= Rounded.large ->
  x - Rounded.unit_roundoff * x <= fl x <= x + Rounded.unit_roundoff * x.
Proof.
  intros Hx. destruct Hfl as [_ [_ Herr]].
  assert (Hpos : 0 < x) by (unfold Rounded.small in Hx; lra).
  specialize (Herr x). rewrite (Rabs_pos_eq x) in Herr by lra.
  specialize (Herr Hx). revert Herr. unfold Rabs.
  destruct (Rcase_abs (fl x - x)); lra.
Qed.

Lemma fl_near_neg (x : R) :
  Rounded.small <= - x <= Rounded.large ->
  x + Rounded.unit_roundoff * x <= fl x <= x - Rounded.unit_roundoff * x.
Proof.
  intros Hx. destruct Hfl as [_ [_ Herr]].
  assert (Hneg : x < 0) by (unfold Rounded.small in Hx; lra).
  specialize (Herr x). rewrite (Rabs_left x) in Herr by lra.
  specialize (Herr Hx). revert Herr. unfold Rabs.
  destruct (Rcase_abs (fl x - x)); lra.
Qed.

(** What is too small to be of ordinary magnitude rounds to less than 1. *)
Lemma fl_small (x : R) :
  - Rounded.small <= x <= Rounded.small -> -1 < fl x < 1.
Proof.
  intros Hx.
  assert (Hup : fl x <= fl Rounded.small) by (apply (proj1 Hfl); lra).
  assert (Hlo : fl (- Rounded.small) <= fl x) by (apply (proj1 Hfl); lra).
  assert (H1 : Rounded.small <= Rounded.small <= Rounded.large)
    by (unfold Rounded.small, Rounded.large; lra).
  assert (H2 : Rounded.small <= - - Rounded.small <= Rounded.large)
    by (unfold Rounded.small, Rounded.large; lra).
  pose proof (fl_near H1) as Ha. pose proof (fl_near_neg H2) as Hb.
  unfold Rounded.small, Rounded.unit_roundoff in *. lra.
Qed.

(** *** One tick *)

Lemma rounded_Burst_tick_sweep (b : Burst) :
  b_active b = true -> shards b <> [] ->
  Rounded.Burst_tick fl b =
  ({| b_active := true; b_center := b_center b; b_burnRate := b_burnRate b;
      shards := fst (sweep (Rounded.shard_body fl (b_burnRate b)) (shards b) []) |},
   snd (sweep (Rounded.shard_body fl (b_burnRate b)) (shards b) [])).
Proof.
  intros Ha Hne. unfold Rounded.Burst_tick. rewrite Ha. simpl negb. cbv iota.
  destruct (shards b) as [|s0 l] eqn:E; [congruence|].
  change (length (s0 :: l) =? 0)%nat with false. cbv iota.
  rewrite for_splice_0.
  now destruct (sweep (Rounded.shard_body fl (b_burnRate b)) (s0 :: l) []).
Qed.

Lemma rounded_BlastWave_tick_sweep (b : BlastWave) :
  bw_active b = true -> waves b <> [] ->
  Rounded.BlastWave_tick fl b =
  ({| bw_active := true; bw_center := bw_center b;
      bw_burnRate := bw_burnRate b; bw_hue := bw_hue b;
      waves := fst (sweep (Rounded.wave_body fl (bw_burnRate b)) (waves b) []) |},
   snd (sweep (Rounded.wave_body fl (bw_burnRate b)) (waves b) [])).
Proof.
  intros Ha Hne. unfold Rounded.BlastWave_tick. rewrite Ha. simpl negb. cbv iota.
  destruct (waves b) as [|s0 l] eqn:E; [congruence|].
  change (length (s0 :: l) =? 0)%nat with false. cbv iota.
  rewrite for_splice_0.
  now destruct (sweep (Rounded.wave_body fl (bw_burnRate b)) (s0 :: l) []).
Qed.

Lemma rounded_tick_inactive (e : Effect) :
  active e = false -> Rounded.tick fl e = (e, []).
Proof.
  destruct e as [b|b]; simpl; intros H.
  - unfold Rounded.Burst_tick. now rewrite H.
  - unfold Rounded.BlastWave_tick. now rewrite H.
Qed.

Lemma rounded_tick_active_empty (e : Effect) :
  active e = true -> particles e = 0%nat ->
  active (fst (Rounded.tick fl e)) = false.
Proof.
  destruct e as [b|b]; simpl; intros Ha Hp.
  - unfold Rounded.Burst_tick. now rewrite Ha, Hp.
  - unfold Rounded.BlastWave_tick. now rewrite Ha, Hp.
Qed.

Lemma rounded_tick_active_nonempty (e : Effect) :
  active e = true -> particles e <> 0%nat ->
  active (fst (Rounded.tick fl e)) = true.
Proof.
  destruct e as [b|b]; simpl; intros Ha Hp.
  - rewrite rounded_Burst_tick_sweep; [reflexivity | assumption |].
    intros E. now rewrite E in Hp.
  - rewrite rounded_BlastWave_tick_sweep; [reflexivity | assumption |].
    intros E. now rewrite E in Hp.
Qed.

Lemma rounded_ticks_S n e :
  Rounded.ticks fl (S n) e = fst (Rounded.tick fl (Rounded.ticks fl n e)).
Proof. revert e; induction n as [|n IH]; intros e; [reflexivity|]. apply IH. Qed.

Lemma rounded_inactive_forever (e : Effect) n :
  active (Rounded.ticks fl n e) = false ->
  forall m, (n <= m)%nat -> Rounded.ticks fl m e = Rounded.ticks fl n e.
Proof.
  intros H m Hm. induction Hm as [|m Hm IH]; [reflexivity|].
  rewrite rounded_ticks_S, IH, rounded_tick_inactive by assumption. reflexivity.
Qed.

Lemma rounded_deactivates_unique (e : Effect) n1 n2 :
  rounded_deactivates_at fl e n1 -> rounded_deactivates_at fl e n2 -> n1 = n2.
Proof.
  intros [Ha1 Hi1] [Ha2 Hi2].
  destruct (Nat.lt_trichotomy n1 n2) as [Hlt|[Heq|Hlt]]; [|assumption|].
  - rewrite (@rounded_inactive_forever e (S n1) Hi1 n2) in Ha2 by lia. congruence.
  - rewrite (@rounded_inactive_forever e (S n2) Hi2 n1) in Ha1 by lia. congruence.
Qed.

(** *** What a visit costs *)

(** A shard that is kept has lost at least half the burn rate, unless its
    radius was below the rate; then it was below 1 and is now at most twice
    the rate. *)
Lemma shard_fuel_burns (rate : R) :
  / 1099511627776 <= rate <= 2 - / 4503599627370496 ->
  forall (s : list ImageParticle) (a : ImageParticle),
    ordinary_shard a ->
    snd (Rounded.shard_body fl rate s a) = false ->
    ordinary_shard (snd (fst (Rounded.shard_body fl rate s a)))
    /\ (shard_fuel rate (snd (fst (Rounded.shard_body fl rate s a)))
        < shard_fuel rate a)%nat.
Proof.
  intros Hr s a Ha H. unfold Rounded.shard_body in *. cbn [fst snd] in *.
  apply lt_false in H.
  unfold ordinary_shard, shard_fuel, Rounded.burn_shard, Rounded.sub in *.
  cbn [ip_rd] in *. set (rd := ip_rd a) in *. set (d := rd - rate) in *.
  destruct (Rle_or_lt (- Rounded.small) d) as [Hlo|Hlo];
    [destruct (Rle_or_lt d Rounded.small) as [Hhi|Hhi]|].
  - (* the difference underflows the ordinary range: the shard is burnt *)
    pose proof (@fl_small d (conj Hlo Hhi)) as Hs. exfalso. revert H.
    unfold Rabs. destruct (Rcase_abs (fl d)); lra.
  - (* the radius was above the rate *)
    assert (Hd : Rounded.small <= d <= Rounded.large).
    { subst d. unfold Rounded.small, Rounded.large in *. lra. }
    pose proof (fl_near Hd) as Hn.
    assert (Hpos : 0 <= fl d).
    { unfold Rounded.small, Rounded.unit_roundoff in *. lra. }
    rewrite (Rabs_pos_eq _ Hpos) in *.
    assert (Hstep : fl d + rate / 2 <= rd).
    { subst d. unfold Rounded.unit_roundoff in *. lra. }
    split; [lra|].
    destruct (Rlt_dec (fl d) 1) as [Hc|_]; [lra|].
    destruct (Rlt_dec rd 1) as [Hc|_]; [lra|].
    rewrite !Rplus_0_r. apply rounds_step; lra.
  - (* the radius was below the rate *)
    assert (Hd : Rounded.small <= - d <= Rounded.large).
    { subst d. unfold Rounded.small, Rounded.large in *. lra. }
    pose proof (fl_near_neg Hd) as Hn.
    assert (Hneg : fl d < 0).
    { unfold Rounded.small, Rounded.unit_roundoff in *. lra. }
    rewrite (Rabs_left _ Hneg) in *.
    assert (Hrd : rd < 1).
    { subst d. unfold Rounded.unit_roundoff in *. lra. }
    assert (Hstep : - fl d + rate / 2 <= rd + 2 * rate).
    { subst d. unfold Rounded.unit_roundoff in *. lra. }
    split; [subst d; unfold Rounded.unit_roundoff in *; lra|].
    destruct (Rlt_dec (- fl d) 1) as [Hc|_]; [lra|].
    destruct (Rlt_dec rd 1) as [_|Hc]; [|lra].
    rewrite Rplus_0_r. apply rounds_step; lra.
Qed.

(** A ring that is kept has lost at least an eighth of the burn rate. *)
Lemma wave_fuel_burns (rate : R) :
  / 1099511627776 <= rate <= 1024 ->
  forall (s : list Wave) (a : Wave),
    ordinary_wave a ->
    snd (Rounded.wave_body fl rate s a) = false ->
    ordinary_wave (snd (fst (Rounded.wave_body fl rate s a)))
    /\ (wave_fuel rate (snd (fst (Rounded.wave_body fl rate s a)))
        < wave_fuel rate a)%nat.
Proof.
  intros Hr s a Ha H. unfold Rounded.wave_body in *. cbn [fst snd] in *.
  apply lt_false in H.
  unfold ordinary_wave, wave_fuel, Rounded.burn_wave, Rounded.sub, Rounded.div in *.
  cbn [w_width] in *. set (w := w_width a) in *.
  assert (Hh : Rounded.small <= rate / 2 <= Rounded.large).
  { unfold Rounded.small, Rounded.large. lra. }
  pose proof (fl_near Hh) as Hhalf.
  set (h := fl (rate / 2)) in *. set (d := w - h) in *.
  destruct (Rle_or_lt d Rounded.small) as [Hlo|Hlo].
  - exfalso.
    assert (Hup : fl d <= fl Rounded.small) by (apply (proj1 Hfl); exact Hlo).
    assert (H1 : - Rounded.small <= Rounded.small <= Rounded.small)
      by (unfold Rounded.small; lra).
    pose proof (@fl_small _ H1). lra.
  - assert (Hd : Rounded.small <= d <= Rounded.large).
    { subst d. unfold Rounded.small, Rounded.large, Rounded.unit_roundoff in *.
      lra. }
    pose proof (fl_near Hd) as Hn.
    assert (Hstep : fl d + rate / 8 <= w).
    { subst d. unfold Rounded.unit_roundoff in *. lra. }
    split; [lra|]. apply rounds_step; lra.
Qed.

(** *** The circle test

    A non-negative number that is zero or of ordinary magnitude is moved by
    at most the unit roundoff, relatively. *)
Lemma fl_scale (x : R) :
  0 <= x -> x = 0 \/ Rounded.small <= x <= Rounded.large ->
  x - Rounded.unit_roundoff * x <= fl x <= x + Rounded.unit_roundoff * x.
Proof.
  intros H0 [->|Hx].
  - rewrite (proj1 (proj2 Hfl)). lra.
  - destruct Hfl as [_ [_ Herr]].
    specialize (Herr x). rewrite (Rabs_pos_eq x) in Herr by lra.
    specialize (Herr Hx). revert Herr. unfold Rabs.
    destruct (Rcase_abs (fl x - x)); lra.
Qed.

Lemma fl_abs (x : R) :
  x = 0 \/ Rounded.small <= Rabs x <= Rounded.large ->
  Rabs x - Rounded.unit_roundoff * Rabs x <= Rabs (fl x) <= Rabs x + Rounded.unit_roundoff * Rabs x.
Proof.
  intros [->|Hx].
  - rewrite (proj1 (proj2 Hfl)), Rabs_R0. lra.
  - destruct Hfl as [_ [_ Herr]]. specialize (Herr x Hx). revert Herr Hx.
    unfold Rounded.unit_roundoff, Rounded.small. unfold Rabs.
    destruct (Rcase_abs (fl x - x)), (Rcase_abs x), (Rcase_abs (fl x)); lra.
Qed.

Lemma square_between (lo hi v : R) :
  0 <= lo -> lo <= Rabs v <= hi -> lo * lo <= v * v <= hi * hi.
Proof.
  intros H0 [H1 H2].
  replace (v * v) with (Rabs v * Rabs v)
   by (unfold Rabs; destruct (Rcase_abs v); ring).
  split; apply Rmult_le_compat; lra.
Qed.


Lemma sqrt_between (lo hi s : R) :
  0 <= lo -> 0 <= hi -> lo * lo <= s <= hi * hi -> lo <= sqrt s <= hi.
Proof.
  intros Hlo Hhi [H1 H2]. split.
  - rewrite <- (sqrt_square lo Hlo). now apply sqrt_le_1_alt.
  - rewrite <- (sqrt_square hi Hhi). now apply sqrt_le_1_alt.
Qed.

(** One squared component, [vx * vx] with [vx] itself a rounded difference. *)
Lemma squared_component (x : R) :
  moderate x ->
  let p := fl (fl x * fl x) in
  (1 - Rounded.unit_roundoff) * (1 - Rounded.unit_roundoff) * (1 - Rounded.unit_roundoff) * (x * x) <= p
  /\ p <= (1 + Rounded.unit_roundoff) * (1 + Rounded.unit_roundoff) * (1 + Rounded.unit_roundoff) * (x * x)
  /\ (p = 0 \/ / 38685626227668133590597632 <= p <= 38685626227668133590597632).
Proof.
  intros [->|Hx] p; subst p.
  - rewrite (proj1 (proj2 Hfl)), Rmult_0_l, (proj1 (proj2 Hfl)).
    split; [lra|]. split; [lra|]. now left.
  - assert (Hr : x = 0 \/ Rounded.small <= Rabs x <= Rounded.large).
    { right. unfold Rounded.small, Rounded.large. lra. }
    pose proof (fl_abs Hr) as Hv.
    assert (H0 : 0 <= Rabs x - Rounded.unit_roundoff * Rabs x).
    { unfold Rounded.unit_roundoff. lra. }
    pose proof (square_between (fl x) H0 Hv) as Hsq.
    assert (Hm : 0 <= / 1099511627776) by lra.
    pose proof (square_between x Hm Hx) as Hxx.
    assert (Hxa : Rabs x * Rabs x = x * x).
    { unfold Rabs; destruct (Rcase_abs x); ring. }
    set (X := x * x) in *. set (V := fl x * fl x) in *.
    assert (HV : (1 - Rounded.unit_roundoff) * (1 - Rounded.unit_roundoff) * X <= V
                 <= (1 + Rounded.unit_roundoff) * (1 + Rounded.unit_roundoff) * X).
    { unfold Rounded.unit_roundoff in *. lra. }
    assert (HVr : 0 <= V /\ (V = 0 \/ Rounded.small <= V <= Rounded.large)).
    { unfold Rounded.unit_roundoff, Rounded.small, Rounded.large in *. split; [lra|]. right. lra. }
    pose proof (fl_scale (proj1 HVr) (proj2 HVr)) as Hp.
    unfold Rounded.unit_roundoff in *. split; [lra|]. split; [lra|]. right. lra.
Qed.


(** The distance as computed, against the exact one. *)
Lemma computed_distance (dx dy : R) :
  moderate dx -> moderate dy ->
  let dist := fl (sqrt (fl (fl (fl dx * fl dx) + fl (fl dy * fl dy)))) in
  (1 - Rounded.unit_roundoff) * (1 - Rounded.unit_roundoff) * (1 - Rounded.unit_roundoff)
    * sqrt (dx * dx + dy * dy) <= dist
  /\ dist <= (1 + Rounded.unit_roundoff) * (1 + Rounded.unit_roundoff) * (1 + Rounded.unit_roundoff)
              * sqrt (dx * dx + dy * dy).
Proof.
  intros Hx Hy dist; subst dist.
  destruct (squared_component Hx) as [Hx1 [Hx2 Hx3]].
  destruct (squared_component Hy) as [Hy1 [Hy2 Hy3]].
  set (px := fl (fl dx * fl dx)) in *. set (py := fl (fl dy * fl dy)) in *.
  pose proof (Rle_0_sqr dx) as Hdx. pose proof (Rle_0_sqr dy) as Hdy.
  unfold Rsqr in Hdx, Hdy.
  set (X := dx * dx) in *. set (Y := dy * dy) in *.
  assert (Hpx : 0 <= px) by (unfold Rounded.unit_roundoff in *; lra).
  assert (Hpy : 0 <= py) by (unfold Rounded.unit_roundoff in *; lra).
  assert (Hq : 0 <= px + py /\ (px + py = 0 \/ Rounded.small <= px + py <= Rounded.large)).
  { unfold Rounded.small, Rounded.large. split; [lra|].
    destruct Hx3 as [Ex|Hx3], Hy3 as [Ey|Hy3]; [left; lra | right; lra ..]. }
  pose proof (fl_scale (proj1 Hq) (proj2 Hq)) as Hs.
  set (s := fl (px + py)) in *.
  assert (Hsr : s = 0 \/ / 154742504910672534362390528 <= s
                           <= 154742504910672534362390528).
  { destruct Hx3 as [Ex|Hx3], Hy3 as [Ey|Hy3];
      [left | right ..]; unfold Rounded.unit_roundoff in *; lra. }
  pose proof (sqrt_pos (X + Y)) as HD.
  pose proof (sqrt_sqrt (X + Y) ltac:(lra)) as HDD.
  set (D := sqrt (X + Y)) in *.
  assert (Hlo : 0 <= (1 - Rounded.unit_roundoff) * (1 - Rounded.unit_roundoff) * D).
  { unfold Rounded.unit_roundoff. lra. }
  assert (Hhi : 0 <= (1 + Rounded.unit_roundoff) * (1 + Rounded.unit_roundoff) * D).
  { unfold Rounded.unit_roundoff. lra. }
  assert (Hr : (1 - Rounded.unit_roundoff) * (1 - Rounded.unit_roundoff) * D <= sqrt s
               <= (1 + Rounded.unit_roundoff) * (1 + Rounded.unit_roundoff) * D).
  { apply sqrt_between; try assumption.
    set (DD := D * D) in *.
    replace ((1 - Rounded.unit_roundoff) * (1 - Rounded.unit_roundoff) * D *
             ((1 - Rounded.unit_roundoff) * (1 - Rounded.unit_roundoff) * D))
      with ((1 - Rounded.unit_roundoff) * (1 - Rounded.unit_roundoff) *
            ((1 - Rounded.unit_roundoff) * (1 - Rounded.unit_roundoff)) * DD)
      by (unfold DD; ring).
    replace ((1 + Rounded.unit_roundoff) * (1 + Rounded.unit_roundoff) * D *
             ((1 + Rounded.unit_roundoff) * (1 + Rounded.unit_roundoff) * D))
      with ((1 + Rounded.unit_roundoff) * (1 + Rounded.unit_roundoff) *
            ((1 + Rounded.unit_roundoff) * (1 + Rounded.unit_roundoff)) * DD)
      by (unfold DD; ring).
    unfold Rounded.unit_roundoff in *. lra. }
  assert (Hrr : 0 <= sqrt s /\ (sqrt s = 0 \/ Rounded.small <= sqrt s <= Rounded.large)).
  { split; [apply sqrt_pos|]. destruct Hsr as [->|Hsr].
    - left. apply sqrt_0.
    - right.
      assert (Hb : / 17592186044416 <= sqrt s <= 17592186044416).
      { apply sqrt_between; lra. }
      unfold Rounded.small, Rounded.large. lra. }
  pose proof (fl_scale (proj1 Hrr) (proj2 Hrr)) as Hd.
  unfold Rounded.unit_roundoff in *. lra.
Qed.


(** The test as computed agrees with the exact one outside a band of relative
    width [margin] around the boundary. *)
Lemma collides_up_to_rounding (a : Obstacle.t) (b : Sprite) :
  moderate (cx b - cx (Obstacle.sprite a)) ->
  moderate (cy b - cy (Obstacle.sprite a)) ->
  moderate (radius b + radius (Obstacle.sprite a)) ->
  (dist_euc (cx (Obstacle.sprite a)) (cy (Obstacle.sprite a)) (cx b) (cy b)
     * (1 + margin) < radius (Obstacle.sprite a) + radius b ->
   Rounded.collidesWith fl a b = true)
  /\
  ((radius (Obstacle.sprite a) + radius b) * (1 + margin)
     <= dist_euc (cx (Obstacle.sprite a)) (cy (Obstacle.sprite a)) (cx b) (cy b) ->
   Rounded.collidesWith fl a b = false).
Proof.
  intros Hx Hy Hs.
  unfold Rounded.collidesWith, Rounded.Math_sqrt, Rounded.add, Rounded.mul,
    Rounded.sub.
  destruct (computed_distance Hx Hy) as [Hlo Hhi].
  replace (dist_euc (cx (Obstacle.sprite a)) (cy (Obstacle.sprite a)) (cx b) (cy b))
    with (sqrt ((cx b - cx (Obstacle.sprite a)) * (cx b - cx (Obstacle.sprite a))
                + (cy b - cy (Obstacle.sprite a)) * (cy b - cy (Obstacle.sprite a))))
    by (unfold dist_euc, Rsqr; f_equal; ring).
  pose proof (sqrt_pos ((cx b - cx (Obstacle.sprite a)) * (cx b - cx (Obstacle.sprite a))
                + (cy b - cy (Obstacle.sprite a)) * (cy b - cy (Obstacle.sprite a))))
    as HD.
  set (D := sqrt _) in *. set (dist := fl (sqrt _)) in *.
  replace (radius (Obstacle.sprite a) + radius b)
    with (radius b + radius (Obstacle.sprite a)) by ring.
  set (S := radius b + radius (Obstacle.sprite a)) in *.
  assert (Hsum : (0 <= S -> S - Rounded.unit_roundoff * S <= fl S
                             <= S + Rounded.unit_roundoff * S)
                 /\ (S <= 0 -> fl S <= 0)).
  { split.
    - intros H0. apply fl_scale; [assumption|].
      destruct Hs as [E|Hs]; [now left | right].
      rewrite (Rabs_pos_eq S H0) in Hs.
      unfold Rounded.small, Rounded.large. lra.
    - intros H0. rewrite <- (proj1 (proj2 Hfl)). now apply (proj1 Hfl). }
  destruct Hsum as [Hpos Hneg].
  unfold margin, Rounded.unit_roundoff in *. split; intros H.
  - apply lt_true. assert (H0 : 0 <= S) by lra. specialize (Hpos H0). lra.
  - apply lt_false. destruct (Rle_or_lt 0 S) as [H0|H0].
    + specialize (Hpos H0). lra.
    + assert (H1 : S <= 0) by lra. specialize (Hneg H1). lra.
Qed.

(** *** Dying out *)

Lemma rounded_budget_zero (e : Effect) :
  budget e = 0%nat <-> particles e = 0%nat.
Proof.
  destruct e as [b|b]; simpl; rewrite potential_zero;
    split; intros H; try (now rewrite H); now apply length_zero_iff_nil.
Qed.

Lemma rounded_tick_shrinks_budget (e : Effect) :
  ordinary e -> active e = true -> particles e <> 0%nat ->
  ordinary (fst (Rounded.tick fl e))
  /\ (budget (fst (Rounded.tick fl e)) < budget e)%nat.
Proof.
  destruct e as [b|b]; simpl; intros [Hr Hall] Ha Hp.
  - assert (Hne : shards b <> []) by (intros E; now rewrite E in Hp).
    rewrite rounded_Burst_tick_sweep by assumption. simpl.
    destruct (@sweep_potential _ _ (Rounded.shard_body fl (b_burnRate b))
                (shard_fuel (b_burnRate b)) ordinary_shard
                (shard_fuel_burns Hr) (shards b) [] Hne Hall) as [HP Hlt].
    split; [split|]; assumption.
  - assert (Hne : waves b <> []) by (intros E; now rewrite E in Hp).
    rewrite rounded_BlastWave_tick_sweep by assumption. simpl.
    destruct (@sweep_potential _ _ (Rounded.wave_body fl (bw_burnRate b))
                (wave_fuel (bw_burnRate b)) ordinary_wave
                (wave_fuel_burns Hr) (waves b) [] Hne Hall) as [HP Hlt].
    split; [split|]; assumption.
Qed.

Lemma rounded_dies_within (N : nat) :
  forall e, ordinary e -> active e = true -> (budget e <= N)%nat ->
            exists n, (n <= N)%nat /\ rounded_deactivates_at fl e n.
Proof.
  induction N as [|N IH]; intros e Ht Ha Hb.
  - exists 0%nat. split; [lia|]. split; [exact Ha|].
    apply (@rounded_tick_active_empty e Ha). apply rounded_budget_zero. lia.
  - destruct (Nat.eq_dec (particles e) 0) as [E|E].
    + exists 0%nat. split; [lia|]. split; [exact Ha|].
      now apply rounded_tick_active_empty.
    + destruct (rounded_tick_shrinks_budget e Ht Ha E) as [Ht' Hlt].
      destruct (IH (fst (Rounded.tick fl e)) Ht') as [n [Hn Hd]].
      * now apply rounded_tick_active_nonempty.
      * lia.
      * exists (S n). split; [lia|]. exact Hd.
Qed.

End WithRounding.

(** C1, amended: in double precision, for centre offsets and a sum of radii
    of moderate size, [a.collidesWith(b)] is true whenever the Euclidean
    distance between the centres, enlarged by one part in 2^50, is below the
    sum of the radii, and false whenever the distance is at least the sum of
    the radii enlarged by one part in 2^50.  Closer to the boundary than that
    the answer is the rounding's. *)
Theorem collidesWith_up_to_rounding (fl : R -> R) (a : Obstacle.t) (b : Sprite) :
  Rounded.binary64_like fl ->
  moderate (cx b - cx (Obstacle.sprite a)) ->
  moderate (cy b - cy (Obstacle.sprite a)) ->
  moderate (radius b + radius (Obstacle.sprite a)) ->
  (dist_euc (cx (Obstacle.sprite a)) (cy (Obstacle.sprite a)) (cx b) (cy b)
     * (1 + margin) < radius (Obstacle.sprite a) + radius b ->
   Rounded.collidesWith fl a b = true)
  /\
  ((radius (Obstacle.sprite a) + radius b) * (1 + margin)
     <= dist_euc (cx (Obstacle.sprite a)) (cy (Obstacle.sprite a)) (cx b) (cy b) ->
   Rounded.collidesWith fl a b = false).
Proof. intros Hfl. now apply collides_up_to_rounding. Qed.

Lemma moderate_between (x : R) :
  / 1099511627776 <= x <= 1099511627776 -> moderate x.
Proof. intros H. right. rewrite Rabs_pos_eq; lra. Qed.

Lemma collidesWith_up_to_rounding_witness :
  Rounded.collidesWith Rounded.nearest (at_origin 2) (at_3_4 4) = true
  /\ Rounded.collidesWith Rounded.nearest (at_origin 2) (at_3_4 2) = false.
Proof.
  split.
  - apply (proj1 (@collidesWith_up_to_rounding Rounded.nearest (at_origin 2) (at_3_4 4)
                    nearest_binary64_like
                    ltac:(apply moderate_between; simpl; lra)
                    ltac:(apply moderate_between; simpl; lra)
                    ltac:(apply moderate_between; simpl; lra))).
    simpl. rewrite ObstacleFacts.dist_origin_3_4. unfold margin. lra.
  - apply (proj2 (@collidesWith_up_to_rounding Rounded.nearest (at_origin 2) (at_3_4 2)
                    nearest_binary64_like
                    ltac:(apply moderate_between; simpl; lra)
                    ltac:(apply moderate_between; simpl; lra)
                    ltac:(apply moderate_between; simpl; lra))).
    simpl. rewrite ObstacleFacts.dist_origin_3_4. unfold margin. lra.
Defined.

Lemma rounded_bouncing_tick (e : Effect) :
  bouncing e -> bouncing (fst (Rounded.tick Rounded.nearest e)).
Proof.
  intros [s [-> Hrd]]. simpl.
  rewrite rounded_Burst_tick_sweep by (simpl; congruence).
  cbn [shards b_burnRate b_center fst]. rewrite sweep_cons.
  assert (Hnew : ip_rd (Rounded.burn_shard Rounded.nearest 3 s) = 2
                 \/ ip_rd (Rounded.burn_shard Rounded.nearest 3 s) = 1).
  { unfold Rounded.burn_shard, Rounded.sub. cbn [ip_rd].
    destruct Hrd as [-> | [-> | ->]].
    - left. replace (5 - 3) with 2 by ring. rewrite nearest_2.
      apply Rabs_pos_eq. lra.
    - right. replace (2 - 3) with (Ropp 1) by ring.
      rewrite nearest_opp, nearest_1, Rabs_Ropp. apply Rabs_pos_eq. lra.
    - left. replace (1 - 3) with (Ropp 2) by ring.
      rewrite nearest_opp, nearest_2, Rabs_Ropp. apply Rabs_pos_eq. lra. }
  assert (Hkeep : snd (Rounded.shard_body Rounded.nearest 3 [] s) = false).
  { unfold Rounded.shard_body. cbn [snd]. apply lt_false.
    destruct Hnew as [->| ->]; lra. }
  rewrite Hkeep. cbn [sweep fst snd Rounded.shard_body].
  exists (Rounded.burn_shard Rounded.nearest 3 s). split; [reflexivity|].
  destruct Hnew as [H|H]; rewrite H; auto.
Qed.

Lemma rounded_bouncing_forever n :
  forall e, bouncing e -> active (Rounded.ticks Rounded.nearest n e) = true.
Proof.
  induction n as [|n IH]; intros e He.
  - destruct He as [s [-> _]]. reflexivity.
  - simpl. apply IH. now apply rounded_bouncing_tick.
Qed.

(** A decrement of 2^-54 leaves 5 where it is. *)
Lemma nearest_absorbs : Rounded.nearest (5 - / 18014398509481984) = 5.
Proof.
  rewrite (@nearest_at (5 - / 18014398509481984) 2 5629499534213120).
  - simpl. lra.
  - simpl. lra.
  - replace (powerRZ 2 (2 - 52)) with (/ 1125899906842624) by (simpl; lra).
    unfold Rabs. destruct (Rcase_abs _); lra.
Qed.

Lemma stuck_tick (e : Effect) :
  stuck e -> stuck (fst (Rounded.tick Rounded.nearest e)).
Proof.
  intros [s [-> Hrd]]. simpl.
  rewrite rounded_Burst_tick_sweep by (simpl; congruence).
  cbn [shards b_burnRate b_center fst]. rewrite sweep_cons.
  assert (Hnew : ip_rd (Rounded.burn_shard Rounded.nearest
                          (/ 18014398509481984) s) = 5).
  { unfold Rounded.burn_shard, Rounded.sub. cbn [ip_rd].
    rewrite Hrd, nearest_absorbs. apply Rabs_pos_eq. lra. }
  assert (Hkeep : snd (Rounded.shard_body Rounded.nearest
                         (/ 18014398509481984) [] s) = false).
  { unfold Rounded.shard_body. cbn [snd]. apply lt_false. rewrite Hnew. lra. }
  rewrite Hkeep. cbn [sweep fst snd Rounded.shard_body].
  eexists. split; [reflexivity | exact Hnew].
Qed.

Lemma stuck_forever n :
  forall e, stuck e -> active (Rounded.ticks Rounded.nearest n e) = true.
Proof.
  induction n as [|n IH]; intros e He.
  - destruct He as [s [-> _]]. reflexivity.
  - simpl. apply IH. now apply stuck_tick.
Qed.

(** C9 as stated fails, at either end of the burn rates.  A Burst built with
    the non-zero burn rate 3 whose shard is emitted with radius 5 is still
    active after any number of ticks, in exact arithmetic and in double
    precision alike: the radius runs 5, 2, 1, 2, 1, ...  And in double
    precision a Burst with the non-zero burn rate 2^-54 and a shard of
    radius 5 is still active after any number of ticks: the radius does not
    move. *)
Lemma nonzero_burn_rate_never_dies :
  (b_burnRate restless <> 0
   /\ b_active restless = true
   /\ (forall n, active (Rounded.ticks Rounded.nearest n (EBurst restless)) = true)
   /\ (forall n, active (ticks n (EBurst restless)) = true))
  /\ (b_burnRate sluggish <> 0
      /\ b_active sluggish = true
      /\ (forall n, active (Rounded.ticks Rounded.nearest n (EBurst sluggish)) = true)).
Proof.
  assert (Hb : bouncing (EBurst restless)).
  { eexists. split; [reflexivity|]. left. reflexivity. }
  assert (Hs : stuck (EBurst sluggish)).
  { eexists. split; reflexivity. }
  split; (split; [simpl; lra|]); (split; [reflexivity|]).
  - split; intros n.
    + now apply rounded_bouncing_forever.
    + now apply bouncing_forever.
  - intros n. now apply stuck_forever.
Qed.

(** C9, amended: in double precision, an active Burst whose burn rate lies
    between 2^-40 and the last double below 2 and whose shards have radii
    between 0 and 1024, and an active BlastWave whose stored burn rate lies
    between 2^-40 and 1024 and whose rings are at most 1024 wide, become
    inactive after a number of ticks that is finite, bounded by [budget],
    and fixed by the particles and the burn rate of the effect. *)
Theorem ordinary_effect_dies_out (fl : R -> R) (e : Effect) :
  Rounded.binary64_like fl -> ordinary e -> active e = true ->
  exists n, (n <= budget e)%nat
            /\ rounded_deactivates_at fl e n
            /\ (forall m, rounded_deactivates_at fl e m -> m = n).
Proof.
  intros Hfl Ht Ha.
  destruct (@rounded_dies_within fl Hfl (budget e) e Ht Ha (le_n _))
    as [n [Hn Hd]].
  exists n. split; [assumption|]. split; [assumption|].
  intros m Hm. exact (@rounded_deactivates_unique fl e m n Hm Hd).
Qed.

Lemma food_burst_ordinary : ordinary food_burst.
Proof.
  simpl. split; [lra|]. repeat constructor; unfold ordinary_shard; simpl; lra.
Qed.

(** The game's own collision burst does die out. *)
Lemma ordinary_effect_dies_out_witness :
  exists n, (n <= budget food_burst)%nat
            /\ rounded_deactivates_at Rounded.nearest food_burst n
            /\ (forall m, rounded_deactivates_at Rounded.nearest food_burst m -> m = n).
Proof.
  exact (@ordinary_effect_dies_out Rounded.nearest food_burst
           nearest_binary64_like food_burst_ordinary eq_refl).
Defined.

End RoundedFacts.

(** ** Double precision: the machine's own operations *)

Module Binary64Facts.

Import Floats Binary64Samples.

Lemma powerRZ_2_neg (p : positive) :
  powerRZ 2 (Zneg p) = / IZR (2 ^ Zpos p).
Proof. unfold powerRZ. rewrite pow_IZR, positive_nat_Z. reflexivity. Qed.

(** Evaluate the decomposition of a given double into sign, mantissa and
    exponent. *)
Ltac run_double :=
  repeat match goal with
  | |- context [Prim2SF ?f] =>
      let v := eval vm_compute in (Prim2SF f) in
      change (Prim2SF f) with v
  end;
  cbv beta iota.

Lemma exact_zero : Binary64.exact 0 = 0.
Proof. unfold Binary64.exact. run_double. reflexivity. Qed.

Lemma exact_one : Binary64.exact 1 = 1.
Proof.
  unfold Binary64.exact. run_double. rewrite powerRZ_2_neg.
  let z := eval vm_compute in (2 ^ 52)%Z in change (2 ^ 52)%Z with z.
  lra.
Qed.

Lemma exact_root2 :
  Binary64.exact (PrimFloat.sqrt 2) = 6369051672525773 / 4503599627370496.
Proof.
  unfold Binary64.exact. run_double. rewrite powerRZ_2_neg.
  let z := eval vm_compute in (2 ^ 52)%Z in change (2 ^ 52)%Z with z.
  lra.
Qed.

Lemma exact_speck_pos : 0 < Binary64.exact 0x1p-600.
Proof.
  unfold Binary64.exact. run_double.
  apply Rmult_lt_0_compat; [lra | apply powerRZ_lt; lra].
Qed.

(** On the machine the circle test misses its boundary in both directions.
    The centres of [at_zero] and [corner] are the square root of 2 apart,
    strictly less than the sum of the radii, and the test answers false; the
    centres of [at_zero] and [speck] are exactly the sum of the radii apart,
    and the test answers true. *)
Lemma machine_misses_the_boundary :
  (Binary64.collidesWith at_zero corner = false
   /\ dist_euc (Binary64.exact (Binary64.cx at_zero))
               (Binary64.exact (Binary64.cy at_zero))
               (Binary64.exact (Binary64.cx corner))
               (Binary64.exact (Binary64.cy corner))
      < Binary64.exact (Binary64.radius at_zero)
        + Binary64.exact (Binary64.radius corner))
  /\ (Binary64.collidesWith at_zero speck = true
      /\ dist_euc (Binary64.exact (Binary64.cx at_zero))
                  (Binary64.exact (Binary64.cy at_zero))
                  (Binary64.exact (Binary64.cx speck))
                  (Binary64.exact (Binary64.cy speck))
         = Binary64.exact (Binary64.radius at_zero)
           + Binary64.exact (Binary64.radius speck)).
Proof.
  split; (split; [vm_compute; reflexivity|]);
    cbn [at_zero corner speck Binary64.cx Binary64.cy Binary64.radius];
    rewrite ?exact_zero, ?exact_one, ?exact_root2.
  - unfold dist_euc, Rsqr.
    set (t := 6369051672525773 / 4503599627370496).
    assert (Ht : 0 <= t) by (unfold t; lra).
    rewrite Rplus_0_l, <- (sqrt_square t Ht). apply sqrt_lt_1_alt. unfold t. lra.
  - pose proof exact_speck_pos as Hx.
    set (x := Binary64.exact 0x1p-600) in *.
    unfold dist_euc, Rsqr.
    replace ((0 - x) * (0 - x) + (0 - 0) * (0 - 0)) with (x * x) by ring.
    rewrite sqrt_square by lra. ring.
Qed.

(** The first of the two under rounding to nearest: the same answer, by the
    same steps. *)
Lemma nearest_misses_the_boundary :
  Rounded.collidesWith Rounded.nearest (at_origin 0) (at_1_1 root2_up) = false.
Proof.
  unfold Rounded.collidesWith, Rounded.Math_sqrt, Rounded.add, Rounded.mul,
    Rounded.sub.
  cbn [at_origin at_1_1 Obstacle.sprite cx]. simpl.
  replace (1 - 0) with 1 by ring. rewrite RoundedFacts.nearest_1.
  replace (1 * 1) with 1 by ring. rewrite RoundedFacts.nearest_1.
  replace (1 + 1) with 2 by ring.
  rewrite RoundedFacts.nearest_2, RoundedFacts.nearest_root2.
  replace (root2_up + 0) with (6369051672525773 / 4503599627370496)
    by (unfold root2_up; ring).
  rewrite RoundedFacts.nearest_root2_exact. apply lt_false. lra.
Qed.

(** C1 as stated fails in double precision.  An obstacle of radius 0 at the
    origin and an entity centred at (1, 1) whose radius is the double nearest
    to the square root of 2: the distance between the centres is strictly
    less than the sum of the radii and the test answers false, under
    rounding to nearest and on the machine.  And on the machine, two
    centres 2^-600 apart with radii that sum to 2^-600: the distance equals
    the sum of the radii and the test answers true. *)
Lemma collidesWith_misses_the_boundary :
  (Rounded.collidesWith Rounded.nearest (at_origin 0) (at_1_1 root2_up) = false
   /\ dist_euc (cx (Obstacle.sprite (at_origin 0)))
               (cy (Obstacle.sprite (at_origin 0)))
               (cx (at_1_1 root2_up)) (cy (at_1_1 root2_up))
      < radius (Obstacle.sprite (at_origin 0)) + radius (at_1_1 root2_up))
  /\ (Binary64.collidesWith at_zero corner = false
      /\ dist_euc (Binary64.exact (Binary64.cx at_zero))
                  (Binary64.exact (Binary64.cy at_zero))
                  (Binary64.exact (Binary64.cx corner))
                  (Binary64.exact (Binary64.cy corner))
         < Binary64.exact (Binary64.radius at_zero)
           + Binary64.exact (Binary64.radius corner))
  /\ (Binary64.collidesWith at_zero speck = true
      /\ dist_euc (Binary64.exact (Binary64.cx at_zero))
                  (Binary64.exact (Binary64.cy at_zero))
                  (Binary64.exact (Binary64.cx speck))
                  (Binary64.exact (Binary64.cy speck))
         = Binary64.exact (Binary64.radius at_zero)
           + Binary64.exact (Binary64.radius speck)).
Proof.
  split; [|exact machine_misses_the_boundary].
  split; [exact nearest_misses_the_boundary|].
  simpl. unfold dist_euc, Rsqr, root2_up.
  set (t := 6369051672525773 / 4503599627370496).
  assert (Ht : 0 <= t) by (unfold t; lra).
  rewrite Rplus_0_l, <- (sqrt_square t Ht). apply sqrt_lt_1_alt. unfold t. lra.
Qed.

(** The radius assignment of [Burst.tick] on doubles.  At burn rate 3 the
    radius 5 runs 2, 1, 2, ... exactly, as it does over the reals; a burn
    rate of 2^-54 is absorbed by the rounding and leaves the radius 5 where
    it is. *)
Lemma burn_in_doubles :
  Binary64.burn five three = two
  /\ Binary64.burn two three = one
  /\ Binary64.burn one three = two
  /\ Binary64.burn five sliver = five.
Proof. repeat split; vm_compute; reflexivity. Qed.

End Binary64Facts.

(** ** Player *)

Module PlayerFacts.

Lemma frontend_eat_keeps_original (n : nat) (p : Player) :
  originalWidth (Nat.iter n PlayerFrontend.eat p) = originalWidth p
  /\ originalHeight (Nat.iter n PlayerFrontend.eat p) = originalHeight p.
Proof.
  induction n as [|n [IHw IHh]]; [split; reflexivity|].
  simpl. split; [rewrite <- IHw | rewrite <- IHh]; reflexivity.
Qed.

Lemma part000_eat_keeps_original (n : nat) (p : Player) :
  originalWidth (Nat.iter n PlayerPart000.eat p) = originalWidth p
  /\ originalHeight (Nat.iter n PlayerPart000.eat p) = originalHeight p.
Proof.
  induction n as [|n [IHw IHh]]; [split; reflexivity|].
  simpl. split; [rewrite <- IHw | rewrite <- IHh]; reflexivity.
Qed.

(** C4: whatever the number of [eat()] calls since construction, one
    [blaze()] puts width and height back to the values the player was
    constructed with; so in both revisions that have [blaze]. *)
Theorem blaze_restores_constructed_size
    (canvas : JS.number) (img : Image) (imgs : list Image)
    (x0 y0 w0 h0 sp : JS.number) (n : nat) :
  let p := Player_new canvas img imgs x0 y0 w0 h0 sp in
  (width (p_sprite (PlayerFrontend.blaze (Nat.iter n PlayerFrontend.eat p))) = w0
   /\ height (p_sprite (PlayerFrontend.blaze (Nat.iter n PlayerFrontend.eat p))) = h0)
  /\
  (width (p_sprite (PlayerPart000.blaze (Nat.iter n PlayerPart000.eat p))) = w0
   /\ height (p_sprite (PlayerPart000.blaze (Nat.iter n PlayerPart000.eat p))) = h0).
Proof.
  intros p.
  destruct (frontend_eat_keeps_original n p) as [Hw Hh].
  destruct (part000_eat_keeps_original n p) as [Hw' Hh'].
  repeat split.
  - change (originalWidth (Nat.iter n PlayerFrontend.eat p) = w0). now rewrite Hw.
  - change (originalHeight (Nat.iter n PlayerFrontend.eat p) = h0). now rewrite Hh.
  - change (originalWidth (Nat.iter n PlayerPart000.eat p) = w0). now rewrite Hw'.
  - change (originalHeight (Nat.iter n PlayerPart000.eat p) = h0). now rewrite Hh'.
Qed.

(** [eat()] of the current revision does leave the radius in step with the
    size. *)
Lemma frontend_eat_recomputes_radius (p : Player) :
  radius (p_sprite (PlayerFrontend.eat p))
  = (width (p_sprite (PlayerFrontend.eat p))
     + height (p_sprite (PlayerFrontend.eat p))) / 4.
Proof. reflexivity. Qed.

(** C5, at the failing input: after [eat()] and then [blaze()] the player is
    40 by 40 again, but its radius is still the 20.5 that [eat()] stored. *)
Theorem blaze_leaves_radius_stale :
  let p := PlayerFrontend.blaze (PlayerFrontend.eat small_player) in
  width (p_sprite p) = 40 /\ height (p_sprite p) = 40
  /\ radius (p_sprite p) = 20.5
  /\ (width (p_sprite p) + height (p_sprite p)) / 4 = 20.
Proof.
  cbn [PlayerFrontend.blaze PlayerFrontend.eat PlayerFrontend.update
       small_player Player_new ImageSprite set_sprite set_image set_radius
       set_size p_sprite width height radius originalWidth originalHeight].
  repeat split; lra.
Qed.

(** The earliest revision: [eat()] grows the sprite and leaves the radius
    where it was. *)
Lemma game_eat_leaves_radius_stale (s : Sprite) :
  radius (PlayerGame.eat s) = radius s
  /\ (width (PlayerGame.eat s) + height (PlayerGame.eat s)) / 4
     = (width s + height s) / 4 + 0.25.
Proof. split; [reflexivity|]. simpl. lra. Qed.

(** With [bounded], the index [update] computes is a valid index of a
    non-empty image list. *)
Lemma frontend_sprite_index_in_range (p : Player) :
  images p <> [] ->
  (0 <= PlayerFrontend.sprite_index p <= Z.of_nat (length (images p)) - 1)%Z.
Proof.
  intros H. unfold PlayerFrontend.sprite_index, bounded.
  destruct (images p) as [|i l]; [congruence|]. simpl length. lia.
Qed.

Lemma frontend_update_finds_image (p : Player) :
  images p <> [] -> image (p_sprite (PlayerFrontend.update p)) <> None.
Proof.
  intros H. pose proof (frontend_sprite_index_in_range p H) as [Hlo Hhi].
  cbn [PlayerFrontend.update set_sprite set_image p_sprite image].
  unfold array_get.
  destruct (Z.ltb_spec (PlayerFrontend.sprite_index p) 0); [lia|].
  apply nth_error_Some. lia.
Qed.

(** C6, at the failing input: in the revision without [bounded] a player 40
    wide on a canvas 1000 wide gets the index -1, and [update()] stores
    [undefined] as its image. *)
Theorem part000_sprite_index_negative :
  (0 <= width (p_sprite small_player))
  /\ images small_player <> []
  /\ PlayerPart000.sprite_index small_player = (-1)%Z
  /\ image (p_sprite (PlayerPart000.update small_player)) = None.
Proof.
  assert (Hidx : PlayerPart000.sprite_index small_player = (-1)%Z).
  { unfold PlayerPart000.sprite_index, JS.Math_round.
    cbn [small_player Player_new ImageSprite p_sprite width canvas_width
         images length].
    rewrite <- (Int_part_spec (40 / (1000 / 2) * INR 5 + / 2) 0).
    - reflexivity.
    - simpl INR. lra. }
  split; [simpl; lra|]. split; [discriminate|]. split; [exact Hidx|].
  cbn [PlayerPart000.update set_sprite set_image p_sprite image].
  now rewrite Hidx.
Qed.

End PlayerFacts.

(** ** The frame *)

Module GameFacts.

Import Effects Game.

Section FrameFacts.

Variable U : BaseUtils.
Variable L : SpriteUtils.

Lemma Burst_new_shards n img bx by_ vx vy rate g :
  length (shards (fst (Burst_new U (Some n) img bx by_ vx vy rate g))) = n
  /\ b_active (fst (Burst_new U (Some n) img bx by_ vx vy rate g)) = true.
Proof.
  unfold Burst_new, bind, ret, imagePraticleEmitter.
  match goal with |- context [replicateM n ?m g] =>
    pose proof (replicateM_length n m g) as Hlen;
    destruct (replicateM n m g) as [sh g'] end.
  simpl in *. now split.
Qed.

(** *** The spawn step *)

Lemma pick_location_fields (g : t) :
  entities (snd (pick_location U g)) = entities g
  /\ playerSize_width (snd (pick_location U g)) = playerSize_width g.
Proof.
  unfold pick_location, draw.
  destruct (randomBetween U 0 (screen_right g - obstacleSize_width g) true (seed g)).
  split; reflexivity.
Qed.

Lemma add_food_entities (g : t) loc :
  exists o, entities (add_food U L g loc) = entities g ++ [o]
            /\ Obstacle.type o = Obstacle.food.
Proof.
  unfold add_food, draw.
  destruct (pickImage U foodImage1 [foodImage2; foodImage3; foodImage4] (seed g)).
  eexists. split; reflexivity.
Qed.

Lemma add_weed_entities (g : t) loc :
  exists o, entities (add_weed L g loc) = entities g ++ [o]
            /\ Obstacle.type o = Obstacle.weed.
Proof. eexists. split; reflexivity. Qed.

Lemma app_one_neq {A} (l : list A) (a : A) : l <> l ++ [a].
Proof.
  intros E. apply (f_equal (@length A)) in E.
  rewrite length_app in E. simpl in E. lia.
Qed.

(** C8: with six obstacles or more on a frame whose counter is not a
    multiple of 600 the spawn step adds nothing; when it does add a food
    obstacle, fewer than six were present, the frame was not a 600th one and
    every obstacle present is at least three player widths from the location
    picked. *)
Theorem spawn_policy (g : t) :
  ((6 <= length (entities g))%nat -> Z.rem (frame_count g) 600 <> 0%Z ->
   entities (spawn U L g) = entities g)
  /\
  (forall o, entities (spawn U L g) = entities g ++ [o] ->
             Obstacle.type o = Obstacle.food ->
             (length (entities g) < 6)%nat
             /\ Z.rem (frame_count g) 600 <> 0%Z
             /\ Forall (fun ent =>
                          playerSize_width g * 3
                          <= getDistance L (Obstacle.sprite ent)
                               (fst (pick_location U g)))
                       (entities g)).
Proof.
  split.
  - intros Hlen Hrem. unfold spawn, munchTime, shouldAddObstacle.
    apply Z.eqb_neq in Hrem. rewrite Hrem.
    replace (length (entities g) <? 6)%nat with false
      by (symmetry; apply Nat.ltb_ge; exact Hlen).
    reflexivity.
  - intros o Hadd Hfood. unfold spawn in Hadd.
    destruct (pick_location_fields g) as [Hents Hsize].
    destruct (pick_location U g) as [loc g1] eqn:Hloc. cbn [fst snd] in *.
    destruct (munchTime g) eqn:Hm; cbn [orb negb andb] in Hadd.
    + (* a 600th frame: only a weed can have been added *)
      rewrite andb_false_r, andb_true_r in Hadd.
      destruct (negb (inValidLocation L g1 loc)).
      * destruct (add_weed_entities g1 loc) as [o' [Ho' Hty]].
        rewrite Ho', Hents in Hadd. apply app_inj_tail in Hadd.
        destruct Hadd as [_ ->]. congruence.
      * rewrite Hents in Hadd. now apply app_one_neq in Hadd.
    + rewrite andb_false_r, andb_true_r in Hadd.
      destruct (shouldAddObstacle g) eqn:Hs.
      * destruct (inValidLocation L g1 loc) eqn:Hv; cbn [negb] in Hadd.
        { rewrite Hents in Hadd. now apply app_one_neq in Hadd. }
        split; [now apply Nat.ltb_lt|]. split; [now apply Z.eqb_neq|].
        unfold inValidLocation in Hv. rewrite Hents, Hsize in Hv.
        apply Forall_forall. intros ent Hin.
        destruct (JS.lt (getDistance L (Obstacle.sprite ent) loc)
                        (playerSize_width g * 3)) eqn:Hd.
        { assert (Hex : existsb
                   (fun ent0 => JS.lt (getDistance L (Obstacle.sprite ent0) loc)
                                      (playerSize_width g * 3))
                   (entities g) = true).
          { apply existsb_exists. exists ent. now split. }
          congruence. }
        now apply lt_false.
      * now apply app_one_neq in Hadd.
Qed.

(** *** The game-over check *)

Lemma enter_play_fields (g : t) :
  current (state g) = play ->
  current (state (enter_play g)) = play
  /\ effects (enter_play g) = effects g
  /\ canvas_w (enter_play g) = canvas_w g.
Proof.
  intros H. unfold enter_play.
  destruct (prev (state g)) as [[ | | | | ]|]; repeat split; assumption.
Qed.

Lemma spawn_fields (g : t) :
  state (spawn U L g) = state g
  /\ effects (spawn U L g) = effects g
  /\ canvas_w (spawn U L g) = canvas_w g.
Proof.
  unfold spawn, pick_location, add_food, add_weed, draw.
  destruct (munchTime g || shouldAddObstacle g); [|repeat split].
  destruct (randomBetween U 0 (screen_right g - obstacleSize_width g) true (seed g))
    as [lx sd].
  match goal with |- context [inValidLocation L ?g1 ?loc] =>
    destruct (inValidLocation L g1 loc) end; cbn [negb andb].
  - repeat split.
  - destruct (munchTime g); cbn [negb].
    + repeat split.
    + cbn [with_seed seed].
      destruct (pickImage U foodImage1 [foodImage2; foodImage3; foodImage4] sd).
      repeat split.
Qed.

Lemma push_burst_inv c fx0 (w : World) n img p rate :
  (n = 1 \/ n = 20)%nat ->
  entity_loop_inv c fx0 w ->
  entity_loop_inv c fx0 (push_burst w (collision_burst U n img p rate)).
Proof.
  intros Hn [Hc [news [Hfx Hall]]]. unfold push_burst, collision_burst.
  match goal with |- context [Burst_new U (Some n) ?i ?a ?b ?vx ?vy ?r ?g] =>
    destruct (Burst_new_shards n i a b vx vy r g) as [Hlen _];
    destruct (Burst_new U (Some n) i a b vx vy r g) as [bst sd] end.
  cbn [fst] in Hlen. split; [exact Hc|].
  exists (news ++ [EBurst bst]). cbn [w_effects]. split.
  - now rewrite Hfx, app_assoc.
  - apply Forall_app. split; [assumption|].
    constructor; [|constructor]. exists bst. split; [reflexivity|].
    rewrite Hlen. exact Hn.
Qed.

Lemma entity_body_inv (g : t) c fx0 (w : World) (a : Obstacle.t) :
  entity_loop_inv c fx0 w ->
  entity_loop_inv c fx0 (fst (fst (entity_body U L g w a))).
Proof.
  intros Hw. unfold entity_body. cbn [fst].
  match goal with |- context [collideDistance L ?a ?b] =>
    destruct (collideDistance L a b) end; [|assumption].
  unfold on_collision.
  match goal with |- context [Obstacle.type ?e] =>
    destruct (Obstacle.type e) end;
    (apply push_burst_inv; [lia|]);
    destruct Hw as [Hc Hfx]; split; assumption.
Qed.

Lemma update_entities_fields (g : t) :
  canvas_w (update_entities U L g) = canvas_w g
  /\ entity_loop_inv (current (state g)) (effects g)
       {| w_player := player (update_entities U L g);
          w_state := state (update_entities U L g);
          w_effects := effects (update_entities U L g);
          w_seed := seed (update_entities U L g) |}.
Proof.
  unfold update_entities. rewrite for_splice_0.
  match goal with |- context [sweep ?body ?xs ?w0] =>
    pose proof (@sweep_invariant _ _ body
                  (entity_loop_inv (current (state g)) (effects g))
                  (fun s a H => @entity_body_inv g _ _ s a H) xs w0) as Hinv;
    destruct (sweep body xs w0) as [es w] end.
  cbn [snd] in Hinv. split; [reflexivity|].
  cbn [with_seed with_effects with_state with_player with_entities
       player state effects seed].
  destruct w as [wp ws wf wsd]. apply Hinv.
  split; [reflexivity|]. exists []. split; [now rewrite app_nil_r | constructor].
Qed.

Lemma before_check_fields (g : t) :
  current (state g) = play ->
  canvas_w (before_check U L g) = canvas_w g
  /\ current (state (before_check U L g)) = play
  /\ exists news,
       effects (before_check U L g) = effects (tick_effects g) ++ news
       /\ Forall small_burst news.
Proof.
  intros Hplay. unfold before_check.
  destruct (enter_play_fields g Hplay) as [Hc0 [Hfx0 Hcw0]].
  destruct (spawn_fields (enter_play g)) as [Hst1 [Hfx1 Hcw1]].
  set (g2 := tick_effects (spawn U L (enter_play g))).
  destruct (update_entities_fields g2) as [Hcw [Hc [news [Hfx Hall]]]].
  cbn [w_state w_effects] in *.
  split; [|split].
  - rewrite Hcw. unfold g2. cbn [tick_effects with_effects canvas_w].
    now rewrite Hcw1.
  - rewrite Hc. unfold g2. cbn [tick_effects with_effects state].
    now rewrite Hst1.
  - exists news. split; [|assumption]. rewrite Hfx. f_equal.
    unfold g2. cbn [tick_effects with_effects effects]. now rewrite Hfx1, Hfx0.
Qed.

(** C7, amended: on a frame of the play state whose game-over check, which
    comes after the entity loop of that frame, finds the player wider than
    half the canvas, the effect list gets, after the bursts of this frame's
    collisions (1 or 20 shards each), exactly one more burst, of 200 shards,
    and the state goes from play to over before the frame ends. *)
Theorem oversize_ends_game (g : t) :
  current (state g) = play ->
  canvas_w g / 2 < width (p_sprite (player (before_check U L g))) ->
  exists news b,
    effects (play_block U L g) = effects (tick_effects g) ++ news ++ [EBurst b]
    /\ Forall small_burst news
    /\ length (shards b) = 200%nat
    /\ b_active b = true
    /\ current (state (play_block U L g)) = over
    /\ prev (state (play_block U L g)) = Some play
    /\ current (state (play_frame U L g)) = over
    /\ prev (state (play_frame U L g)) = Some play.
Proof.
  intros Hplay Hwide.
  destruct (before_check_fields g Hplay) as [Hcw [Hc [news [Hfx Hall]]]].
  assert (Hblock :
    exists b, effects (play_block U L g)
              = effects (tick_effects g) ++ news ++ [EBurst b]
              /\ length (shards b) = 200%nat /\ b_active b = true
              /\ current (state (play_block U L g)) = over
              /\ prev (state (play_block U L g)) = Some play).
  { unfold play_block, move_player, check_game_over.
    rewrite Hcw. apply gt_true in Hwide. rewrite Hwide.
    unfold draw, big_explosion.
    match goal with |- context [Burst_new U (Some ?n) ?i ?a ?b ?vx ?vy ?r ?sd] =>
      destruct (Burst_new_shards n i a b vx vy r sd) as [Hlen Hact];
      destruct (Burst_new U (Some n) i a b vx vy r sd) as [bst sd'] end.
    cbn [fst] in Hlen, Hact. exists bst.
    cbn [with_player with_state with_effects with_seed effects state
         setState current prev].
    rewrite Hfx, Hc, <- app_assoc. repeat split; assumption. }
  destruct Hblock as [b [Hfxb [Hlen [Hact [Hcur Hprev]]]]].
  exists news, b. repeat split; try assumption.
  - unfold play_frame. rewrite Hplay. cbn [is_tag]. rewrite Hplay. cbn [is_tag].
    rewrite Hcur. cbn [is_tag]. exact Hcur.
  - unfold play_frame. rewrite Hplay. cbn [is_tag]. rewrite Hplay. cbn [is_tag].
    rewrite Hcur. cbn [is_tag]. exact Hprev.
Qed.

(** Without a hit the entity loop leaves the player alone. *)
Lemma no_hit_keeps_player (g : t) :
  (forall a b, collideDistance L a b = false) ->
  player (before_check U L g) = player g.
Proof.
  intros Hmiss. unfold before_check.
  assert (Hp : player (tick_effects (spawn U L (enter_play g))) = player g).
  { cbn [tick_effects with_effects player].
    unfold spawn, pick_location, add_food, add_weed, draw, enter_play.
    destruct (prev (state g)) as [[ | | | | ]|];
      cbn [with_state munchTime shouldAddObstacle frame_count entities player
           seed screen_right obstacleSize_width];
      (match goal with |- context [if ?c then _ else _] => destruct c end;
       [|reflexivity]);
      (match goal with |- context [randomBetween U ?a ?b ?c ?d] =>
         destruct (randomBetween U a b c d) end);
      (match goal with |- context [inValidLocation L ?g1 ?loc] =>
         destruct (inValidLocation L g1 loc) end);
      cbn [negb andb]; try reflexivity;
      (match goal with |- context [if ?c then _ else _] => destruct c end);
      cbn [negb with_seed seed]; try reflexivity;
      (match goal with |- context [pickImage U ?a ?b ?c] =>
         destruct (pickImage U a b c) end); reflexivity. }
  set (g2 := tick_effects (spawn U L (enter_play g))) in *.
  unfold update_entities. rewrite for_splice_0.
  match goal with |- context [sweep ?body ?xs ?w0] =>
    assert (Hinv : w_player (snd (sweep body xs w0)) = player g2);
    [ apply (@sweep_invariant _ _ body (fun w => w_player w = player g2));
      [|reflexivity]
    | destruct (sweep body xs w0) as [es w]; cbn [snd] in Hinv;
      cbn [with_seed with_effects with_state with_player player];
      now rewrite Hinv ] end.
  intros w a Hw. unfold entity_body. cbn [fst]. now rewrite Hmiss.
Qed.

End FrameFacts.

Lemma dist_along_top : dist_euc 900 (-200) 0 (-200) = 900.
Proof.
  unfold dist_euc, Rsqr.
  replace ((900 - 0) * (900 - 0) + (-200 - -200) * (-200 - -200))
    with (900 * 900) by ring.
  apply sqrt_square. lra.
Qed.

Lemma oversize_ends_game_witness :
  current (state (playing [] 501)) = play
  /\ canvas_w (playing [] 501) / 2
     < width (p_sprite (player (before_check low_draws still (playing [] 501))))
  /\ current (state (play_frame low_draws still (playing [] 501))) = over
  /\ prev (state (play_frame low_draws still (playing [] 501))) = Some play.
Proof.
  assert (Hplay : current (state (playing [] 501)) = play) by reflexivity.
  assert (Hwide : canvas_w (playing [] 501) / 2
                  < width (p_sprite (player (before_check low_draws still
                                               (playing [] 501))))).
  { rewrite no_hit_keeps_player by reflexivity. simpl. lra. }
  split; [exact Hplay|]. split; [exact Hwide|].
  destruct (@oversize_ends_game low_draws still (playing [] 501) Hplay Hwide)
    as [news [b [_ [_ [_ [_ [_ [_ [Hcur Hprev]]]]]]]]].
  split; assumption.
Defined.

Lemma spawn_policy_witness :
  entities (spawn low_draws still
              (playing [far_food; far_food; far_food; far_food; far_food;
                        far_food] 40))
  = [far_food; far_food; far_food; far_food; far_food; far_food]
  /\ (length (entities (playing [far_food] 40%R)) < 6)%nat
  /\ Forall (fun ent =>
               playerSize_width (playing [far_food] 40) * 3
               <= getDistance still (Obstacle.sprite ent)
                    (fst (pick_location low_draws (playing [far_food] 40))))
            (entities (playing [far_food] 40)).
Proof.
  split.
  - apply (proj1 (@spawn_policy low_draws still
                    (playing [far_food; far_food; far_food; far_food;
                              far_food; far_food] 40))).
    + simpl. lia.
    + discriminate.
  - assert (Hadd :
      entities (spawn low_draws still (playing [far_food] 40))
      = entities (playing [far_food] 40)
        ++ [Obstacle.new Obstacle.food foodImage1 0 (-200) 40 40 5]).
    { unfold spawn, munchTime, shouldAddObstacle, pick_location, draw,
        inValidLocation.
      cbn [playing frame_count entities length Nat.ltb Nat.leb Z.rem Z.eqb
           orb low_draws randomBetween seed screen_right obstacleSize_width
           with_seed playerSize_width existsb still getDistance far_food
           Obstacle.new Obstacle.sprite ImageSprite x y fst snd].
      change (Z.rem 1 600 =? 0)%Z with false. cbn [orb].
      rewrite dist_along_top. js_compare. reflexivity. }
    destruct (proj2 (@spawn_policy low_draws still (playing [far_food] 40))
                _ Hadd eq_refl) as [Hlen [_ Hfar]].
    split; assumption.
Defined.

End GameFacts.

(** ** Obstacle: further properties of the circle test *)

Module ObstacleMore.

Import Obstacle.

Lemma sqrt_lt_iff (s t : R) :
  0 <= s -> (sqrt s < t <-> 0 < t /\ s < t * t).
Proof.
  intros Hs. split.
  - intros H. pose proof (sqrt_pos s) as Hp.
    split; [lra|]. rewrite <- (sqrt_sqrt s Hs) at 1.
    apply Rmult_le_0_lt_compat; lra.
  - intros [Ht H]. rewrite <- (sqrt_square t) by lra.
    apply sqrt_lt_1_alt. lra.
Qed.

(** Over the reals the circle test needs no square root. *)
Lemma collides_squares (a : t) (b : Sprite) :
  collidesWith a b = true <->
  0 < radius b + radius (sprite a)
  /\ (cx b - cx (sprite a)) * (cx b - cx (sprite a))
     + (cy b - cy (sprite a)) * (cy b - cy (sprite a))
     < (radius b + radius (sprite a)) * (radius b + radius (sprite a)).
Proof.
  unfold collidesWith, JS.Math_sqrt. cbv zeta. rewrite lt_true.
  apply sqrt_lt_iff.
  pose proof (Rle_0_sqr (cx b - cx (sprite a))).
  pose proof (Rle_0_sqr (cy b - cy (sprite a))).
  unfold Rsqr in *. lra.
Qed.

(** An obstacle overlaps a sprite placed on its own centre exactly when
    the two radii sum to something positive; in particular entities of
    radius 0 never collide with anything. *)
Theorem collidesWith_same_centre (a : t) (b : Sprite) :
  cx b = cx (sprite a) -> cy b = cy (sprite a) ->
  (collidesWith a b = true <-> 0 < radius b + radius (sprite a)).
Proof.
  intros Hx Hy. rewrite collides_squares, Hx, Hy. split.
  - intros [H _]. exact H.
  - intros H. split; [exact H|]. nra.
Qed.

Lemma collidesWith_same_centre_witness :
  collidesWith (at_origin 2) (sprite (at_origin 2)) = true.
Proof.
  apply (proj2 (@collidesWith_same_centre (at_origin 2) (sprite (at_origin 2))
                  eq_refl eq_refl)).
  simpl. lra.
Defined.

(** X2: [collisionsWith] answers true exactly when some entry of the mapping
    holds an entity the obstacle collides with; on an empty mapping it
    answers false. *)
Theorem collisionsWith_iff_exists {K} (this : t) (entities : list (K * Sprite)) :
  (collisionsWith this entities = true <->
   exists k e, In (k, e) entities /\ collidesWith this e = true)
  /\ collisionsWith this (@nil (K * Sprite)) = false.
Proof.
  split; [|reflexivity]. unfold collisionsWith.
  destruct (find (fun ent => collidesWith this (snd ent)) entities)
    as [[k e]|] eqn:E.
  - apply find_some in E. destruct E as [Hin Hc]. split; [|reflexivity].
    intros _. exists k, e. now split.
  - split; [discriminate|]. intros [k [e [Hin Hc]]].
    pose proof (find_none _ _ E (k, e) Hin) as Hn. simpl in Hn. congruence.
Qed.

Lemma collisionsWith_iff_exists_witness :
  collisionsWith (at_origin 2) keyed_sprites = true.
Proof.
  apply (proj2 (proj1 (collisionsWith_iff_exists (at_origin 2) keyed_sprites))).
  exists 1%nat, (at_3_4 4). split; [right; left; reflexivity|].
  apply collides_squares. simpl. lra.
Defined.

End ObstacleMore.

(** ** Effects: further properties *)

Module EffectsMore.

Import Effects.

(** *** Loops whose body logs the element it has just updated *)

Section LoggingLoop.

Variable A : Type.
Variable f : A -> A.
Variable p : A -> bool.

(** One sweep: the log grows by one entry per visit; at least half of the
    elements, and the first, are visited; what is logged is the update of an
    element of the array; what stays is an element passed over or an update
    that was not spliced. *)
Lemma logging_sweep_pair (l : list A) :
  (forall drawn,
      exists d, snd (sweep (logging_body f p) l drawn) = drawn ++ d
                /\ (length d <= length l <= 2 * length d)%nat
                /\ (length (fst (sweep (logging_body f p) l drawn)) <= length l)%nat
                /\ Forall (fun x => exists s, In s l /\ x = f s) d
                /\ Forall (fun x => In x l
                                    \/ exists s, In s l /\ x = f s /\ p x = false)
                          (fst (sweep (logging_body f p) l drawn)))
  /\
  (forall a drawn,
      exists d, snd (sweep (logging_body f p) (a :: l) drawn) = drawn ++ f a :: d
                /\ (S (length d) <= S (length l) <= 2 * S (length d))%nat
                /\ (length (fst (sweep (logging_body f p) (a :: l) drawn))
                    <= S (length l))%nat
                /\ Forall (fun x => exists s, In s (a :: l) /\ x = f s) (f a :: d)
                /\ Forall (fun x => In x (a :: l)
                                    \/ exists s, In s (a :: l) /\ x = f s
                                                 /\ p x = false)
                          (fst (sweep (logging_body f p) (a :: l) drawn))).
Proof.
  induction l as [|b l [IH1 IH2]].
  - split.
    + intros drawn. exists []. simpl. rewrite app_nil_r.
      repeat split; try lia; constructor.
    + intros a drawn. exists []. rewrite sweep_cons.
      cbn [logging_body fst snd].
      destruct (p (f a)) eqn:E; cbn [fst snd length sweep];
        (split; [reflexivity|]); (split; [lia|]); (split; [lia|]);
        (split; [constructor; [exists a; split; [left|]; reflexivity|constructor]|]).
      * constructor.
      * constructor; [|constructor]. right. exists a.
        split; [left; reflexivity|]. split; [reflexivity|assumption].
  - split.
    + intros drawn. destruct (IH2 b drawn) as [d [Hs [Hlen [Hout [Hd Hk]]]]].
      exists (f b :: d). cbn [length] in *. repeat split; try assumption; lia.
    + intros a drawn. rewrite sweep_cons.
      cbn [logging_body fst snd].
      destruct (p (f a)) eqn:E; cbn [fst snd].
      * destruct (IH1 (drawn ++ [f a])) as [d [Hs [Hlen [Hout [Hd Hk]]]]].
        exists d. rewrite Hs, <- app_assoc. cbn [length app] in *.
        split; [reflexivity|]. split; [lia|]. split; [lia|]. split.
        -- constructor; [exists a; split; [left|]; reflexivity|].
           eapply Forall_impl; [|exact Hd]. intros x [s [Hin Hx]].
           exists s. split; [right; right; assumption|assumption].
        -- constructor; [left; right; left; reflexivity|].
           eapply Forall_impl; [|exact Hk]. intros x [Hin|[s [Hin Hx]]].
           ++ left. right. right. assumption.
           ++ right. exists s. split; [right; right; assumption|assumption].
      * destruct (IH2 b (drawn ++ [f a])) as [d [Hs [Hlen [Hout [Hd Hk]]]]].
        exists (f b :: d). rewrite Hs, <- app_assoc. cbn [length app] in *.
        split; [reflexivity|]. split; [lia|]. split; [lia|]. split.
        -- constructor; [exists a; split; [left|]; reflexivity|].
           eapply Forall_impl; [|exact Hd]. intros x [s [Hin Hx]].
           exists s. split; [right; assumption|assumption].
        -- constructor.
           ++ right. exists a. split; [left; reflexivity|].
              split; [reflexivity|assumption].
           ++ eapply Forall_impl; [|exact Hk]. intros x [Hin|[s [Hin Hx]]].
              ** left. right. assumption.
              ** right. exists s. split; [right; assumption|assumption].
Qed.

End LoggingLoop.

Lemma shard_body_logging (rate : JS.number) :
  shard_body rate
  = logging_body (burn_shard rate) (fun s => JS.lt (ip_rd s) 1).
Proof. reflexivity. Qed.

Lemma wave_body_logging (rate : JS.number) :
  wave_body rate
  = logging_body (burn_wave rate) (fun w => JS.lt (w_width w) 1).
Proof. reflexivity. Qed.

(** *** The emitters and the constructors *)

Lemma replicateM_Forall {A} (P : A -> Prop) (m : Rand A) :
  (forall g, P (fst (m g))) ->
  forall n g, Forall P (fst (replicateM n m g)).
Proof.
  intros Hm n. induction n as [|n IH]; intros g; simpl; [constructor|].
  unfold bind. pose proof (Hm g) as Ha. destruct (m g) as [a g1].
  specialize (IH g1). destruct (replicateM n m g1) as [l g2].
  simpl in *. now constructor.
Qed.

(** X3: a new burst is active, keeps the burn rate it was given and holds
    exactly [n] shards, 10 when [n] is left out, each carrying the image
    passed to the constructor. *)
Theorem Burst_new_emits (U : BaseUtils) (n : option nat) (img : option Image)
    (bx by_ : valrange) (vx vy : option valrange) (rate : JS.number) (g : Seed) :
  let b := fst (Burst_new U n img bx by_ vx vy rate g) in
  length (shards b) = match n with Some k => k | None => 10%nat end
  /\ b_active b = true
  /\ b_burnRate b = rate
  /\ Forall (fun s => ip_image s = img) (shards b).
Proof.
  unfold Burst_new, imagePraticleEmitter, bind, ret.
  match goal with |- context [replicateM ?k ?m g] =>
    pose proof (replicateM_length k m g) as Hlen;
    assert (Himg : Forall (fun s => ip_image s = img) (fst (replicateM k m g)));
    [ apply replicateM_Forall; intros g0;
      repeat match goal with
             | |- context [valueOrRange U ?v ?s] =>
                 destruct (valueOrRange U v s)
             | |- context [pickSign U ?s] => destruct (pickSign U s)
             end; reflexivity
    | destruct (replicateM k m g) as [sh g'] ] end.
  cbn [fst shards b_active b_burnRate] in *. repeat split; assumption.
Qed.

(** X4: when the sampler answers every range from within it and passes
    scalars through, each shard of a new burst starts unrotated with a
    radius between 5 and 20. *)
Theorem Burst_new_radius_range (U : BaseUtils) (n : option nat)
    (img : option Image) (bx by_ : valrange) (vx vy : option valrange)
    (rate : JS.number) (g : Seed) :
  faithful_sampler U ->
  Forall (fun s => 5 <= ip_rd s <= 20 /\ ip_r s = 0)
         (shards (fst (Burst_new U n img bx by_ vx vy rate g))).
Proof.
  intros HU. unfold Burst_new, imagePraticleEmitter, bind, ret.
  match goal with |- context [replicateM ?k ?m g] =>
    assert (H : Forall (fun s => 5 <= ip_rd s <= 20 /\ ip_r s = 0)
                       (fst (replicateM k m g)));
    [ apply replicateM_Forall; intros g0
    | destruct (replicateM k m g) as [sh g']; exact H ] end.
  destruct (valueOrRange U bx g0) as [px g1].
  destruct (valueOrRange U by_ g1) as [py g2].
  pose proof (HU (Scalar 0) g2) as Hr.
  destruct (valueOrRange U (Scalar 0) g2) as [pr g3].
  pose proof (HU (Range 5 20) g3) as Hrd.
  destruct (valueOrRange U (Range 5 20) g3) as [prd g4].
  destruct (valueOrRange U (or_default vx (Range (-10) 10)) g4) as [pvx g5].
  destruct (valueOrRange U (or_default vy (Range (-10) 10)) g5) as [pvy g6].
  destruct (pickSign U g6) as [pdr g7].
  cbn [fst ip_rd ip_r] in *. split; [apply Hrd; lra | exact Hr].
Qed.

Lemma low_draws_faithful : faithful_sampler low_draws.
Proof. intros [z|lo hi] g; simpl; [reflexivity|]. intros H. lra. Qed.

Lemma Burst_new_radius_range_witness :
  faithful_sampler low_draws
  /\ Forall (fun s => 5 <= ip_rd s <= 20 /\ ip_r s = 0)
            (shards (fst (Burst_new low_draws (Some 20%nat) (Some weedImage)
                            (Range 0 40) (Range 0 40)
                            (Some (Range (-5) 5)) (Some (Range (-10) 1))
                            0.01 0%nat))).
Proof.
  split; [exact low_draws_faithful|].
  exact (@Burst_new_radius_range low_draws (Some 20%nat) (Some weedImage)
           (Range 0 40) (Range 0 40) (Some (Range (-5) 5))
           (Some (Range (-10) 1)) 0.01 0%nat low_draws_faithful).
Defined.

(** *** One tick *)

Lemma Burst_tick_no_burn_witness :
  shards (fst (Burst_tick two_live))
    = map (burn_shard 0.01) [shard_of 10; shard_of 7]
  /\ snd (Burst_tick two_live)
    = map (burn_shard 0.01) [shard_of 10; shard_of 7].
Proof.
  apply (@EffectsFacts.Burst_tick_no_burn two_live).
  - reflexivity.
  - discriminate.
  - repeat constructor; simpl; unfold JS.Math_abs, Rabs;
      destruct (Rcase_abs _); lra.
Defined.

Lemma Burst_tick_skip_witness :
  exists out, shards (fst (Burst_tick dying_then_live)) = shard_of 10 :: out.
Proof.
  apply (@EffectsFacts.Burst_tick_skip dying_then_live
           (shard_of 1.005) (shard_of 10) []).
  - reflexivity.
  - reflexivity.
  - simpl. unfold JS.Math_abs, Rabs. destruct (Rcase_abs _); lra.
Defined.

Lemma tick_counts_aux (e : Effect) :
  (particles (fst (tick e)) <= particles e)%nat
  /\ (active e = true -> particles e <> 0%nat ->
      (1 <= length (snd (tick e)) <= particles e)%nat
      /\ (particles e <= 2 * length (snd (tick e)))%nat).
Proof.
  destruct (active e) eqn:Ha.
  2:{ rewrite (EffectsFacts.tick_inactive _ Ha). split; [simpl; lia|discriminate]. }
  destruct (Nat.eq_dec (particles e) 0) as [Hz|Hnz].
  { split; [|intros _ Hc; contradiction].
    destruct e as [b|b]; simpl in *.
    - unfold Burst_tick. rewrite Ha, Hz. simpl. lia.
    - unfold BlastWave_tick. rewrite Ha, Hz. simpl. lia. }
  destruct e as [b|b]; simpl in *.
  - assert (Hne : shards b <> []) by (intros E; now rewrite E in Hnz).
    rewrite EffectsFacts.Burst_tick_sweep by assumption.
    rewrite shard_body_logging.
    destruct (proj1 (logging_sweep_pair (burn_shard (b_burnRate b))
                       (fun s => JS.lt (ip_rd s) 1) (shards b)) [])
      as [d [Hs [Hlen [Hout _]]]].
    cbn [fst snd shards]. rewrite Hs, length_map. simpl app.
    destruct (shards b); [congruence|]. simpl in *. split; [|intros _ _]; lia.
  - assert (Hne : waves b <> []) by (intros E; now rewrite E in Hnz).
    rewrite EffectsFacts.BlastWave_tick_sweep by assumption.
    rewrite wave_body_logging.
    destruct (proj1 (logging_sweep_pair (burn_wave (bw_burnRate b))
                       (fun w => JS.lt (w_width w) 1) (waves b)) [])
      as [d [Hs [Hlen [Hout _]]]].
    cbn [fst snd waves]. rewrite Hs, length_map. simpl app.
    destruct (waves b); [congruence|]. simpl in *. split; [|intros _ _]; lia.
Qed.

(** X5: a tick never adds particles; a tick of an active effect that holds
    particles draws at least one of them, at most each of them once, and no
    fewer than half of them. *)
Theorem tick_draws_at_least_half (e : Effect) :
  (particles (fst (tick e)) <= particles e)%nat
  /\ (active e = true -> particles e <> 0%nat ->
      (1 <= length (snd (tick e)) <= particles e)%nat
      /\ (particles e <= 2 * length (snd (tick e)))%nat).
Proof. apply tick_counts_aux. Qed.

Lemma tick_draws_at_least_half_witness :
  (1 <= length (snd (tick (EBurst dying_then_live)))
     <= particles (EBurst dying_then_live))%nat
  /\ (particles (EBurst dying_then_live)
      <= 2 * length (snd (tick (EBurst dying_then_live))))%nat.
Proof.
  apply (proj2 (tick_draws_at_least_half (EBurst dying_then_live)));
    [reflexivity | discriminate].
Defined.

(** X6: what a tick of a burst draws is the update of a shard it held when
    the tick began, and every shard it holds afterwards is either one it
    held before, untouched, or the update of one, with a radius of at least
    1; the burn rate, the centre and, short of an empty collection, the flag
    are as before. *)
Theorem Burst_tick_provenance (b : Burst) :
  Forall (fun d => exists s, In s (shards b)
                             /\ d = burn_shard (b_burnRate b) s)
         (snd (Burst_tick b))
  /\ Forall (fun s' => In s' (shards b)
                       \/ exists s, In s (shards b)
                                    /\ s' = burn_shard (b_burnRate b) s
                                    /\ 1 <= ip_rd s')
            (shards (fst (Burst_tick b)))
  /\ b_burnRate (fst (Burst_tick b)) = b_burnRate b
  /\ b_center (fst (Burst_tick b)) = b_center b
  /\ (shards b <> [] -> b_active (fst (Burst_tick b)) = b_active b).
Proof.
  assert (Hsame : Forall (fun s' => In s' (shards b)
                       \/ exists s, In s (shards b)
                                    /\ s' = burn_shard (b_burnRate b) s
                                    /\ 1 <= ip_rd s') (shards b)).
  { apply Forall_forall. intros s Hin. now left. }
  destruct (b_active b) eqn:Ha.
  2:{ unfold Burst_tick. rewrite Ha. cbn [negb fst snd].
      repeat split; try assumption; try constructor. intros _. exact Ha. }
  destruct (shards b) as [|s0 l] eqn:Hs.
  { unfold Burst_tick. rewrite Ha, Hs. cbn [negb length Nat.eqb fst snd shards
      b_burnRate b_center].
    repeat split; try constructor. intros H. congruence. }
  rewrite EffectsFacts.Burst_tick_sweep by (rewrite ?Hs; congruence).
  rewrite shard_body_logging, Hs.
  destruct (proj1 (logging_sweep_pair (burn_shard (b_burnRate b))
                     (fun s => JS.lt (ip_rd s) 1) (s0 :: l)) [])
    as [d [Hd [_ [_ [Hdrawn Hkept]]]]].
  cbn [fst snd shards b_burnRate b_center b_active]. rewrite Hd. simpl app.
  split; [exact Hdrawn|]. split; [|repeat split].
  eapply Forall_impl; [|exact Hkept].
  intros x [Hin|[s [Hin [Hx Hp]]]]; [now left|].
  right. exists s. split; [assumption|]. split; [assumption|].
  now apply lt_false.
Qed.

(** *** The blast wave and its single ring *)

Lemma single_ring_tick (b : BlastWave) (w : Wave) :
  bw_active b = true -> waves b = [w] ->
  BlastWave_tick b
  = (with_waves b (if JS.lt (w_width (burn_wave (bw_burnRate b) w)) 1
                   then [] else [burn_wave (bw_burnRate b) w]),
     [burn_wave (bw_burnRate b) w]).
Proof.
  intros Ha Hw. rewrite EffectsFacts.BlastWave_tick_sweep
    by (rewrite ?Hw; congruence).
  rewrite Hw, sweep_cons. unfold with_waves. rewrite Ha.
  cbn [wave_body fst snd].
  destruct (JS.lt (w_width (burn_wave (bw_burnRate b) w)) 1); reflexivity.
Qed.

Lemma few_rings_tick (b : BlastWave) :
  (length (waves b) <= 1)%nat -> bw_active b = true ->
  (length (waves (fst (BlastWave_tick b))) <= 1)%nat
  /\ snd (BlastWave_tick b) = map (burn_wave (bw_burnRate b)) (waves b).
Proof.
  intros Hlen Ha. destruct (waves b) as [|w [|w2 rest]] eqn:Hw.
  - unfold BlastWave_tick. rewrite Ha, Hw. cbn. rewrite ?Hw. split; [simpl; lia|reflexivity].
  - rewrite (@single_ring_tick b w Ha Hw). cbn [fst snd with_waves waves map].
    split; [|reflexivity].
    destruct (JS.lt (w_width (burn_wave (bw_burnRate b) w)) 1); simpl; lia.
  - simpl in Hlen. lia.
Qed.

Lemma few_rings_ticks (n : nat) :
  forall b : BlastWave,
    (length (waves b) <= 1)%nat ->
    exists b', ticks n (EBlastWave b) = EBlastWave b'
               /\ (length (waves b') <= 1)%nat.
Proof.
  induction n as [|n IH]; intros b Hlen.
  - exists b. split; [reflexivity | assumption].
  - cbn [ticks tick].
    destruct (BlastWave_tick b) as [b1 d] eqn:Ht. cbn [fst].
    apply IH. destruct (bw_active b) eqn:Ha.
    + pose proof (proj1 (few_rings_tick b Hlen Ha)) as H.
      now rewrite Ht in H.
    + unfold BlastWave_tick in Ht. rewrite Ha in Ht. cbn in Ht.
      inversion Ht; subst. assumption.
Qed.

(** X9: a blast wave as its constructor builds it never holds more than one
    ring, so the slip of the splicing loop cannot show: at every tick of its
    life, as long as it is active, each ring it holds when the tick starts is
    advanced and drawn on that tick. *)
Theorem BlastWave_draws_every_ring (U : BaseUtils) (bx by_ : JS.number)
    (w : option valrange) (hue : JS.number) (rate : option valrange)
    (g : Seed) (n : nat) :
  exists b,
    ticks n (EBlastWave (fst (BlastWave_new U bx by_ w hue rate g)))
    = EBlastWave b
    /\ (length (waves b) <= 1)%nat
    /\ (bw_active b = true ->
        snd (BlastWave_tick b) = map (burn_wave (bw_burnRate b)) (waves b)).
Proof.
  pose proof (EffectsFacts.BlastWave_new_single U bx by_ w hue rate g) as H1.
  destruct (@few_rings_ticks n (fst (BlastWave_new U bx by_ w hue rate g)))
    as [b [Hb Hlen]]; [lia|].
  exists b. split; [exact Hb|]. split; [exact Hlen|].
  intros Ha. exact (proj2 (few_rings_tick b Hlen Ha)).
Qed.

End EffectsMore.

(** ** Player: the sprite index and repeated meals *)

Module PlayerMore.

Lemma Int_part_ge_iff (v : R) (z : Z) : (z <= Int_part v)%Z <-> IZR z <= v.
Proof.
  destruct (base_Int_part v) as [Hlo Hhi]. split; intros H.
  - apply IZR_le in H. lra.
  - assert (Hlt : (z < Int_part v + 1)%Z).
    { apply lt_IZR. rewrite plus_IZR. lra. }
    lia.
Qed.

Lemma Math_round_monotone (v w : R) :
  v <= w -> (JS.Math_round v <= JS.Math_round w)%Z.
Proof.
  intros H. unfold JS.Math_round. apply Int_part_ge_iff.
  destruct (base_Int_part (v + / 2)) as [Hlo _]. lra.
Qed.

Lemma scaled_width_monotone (c len v w : R) :
  0 < c -> 0 <= len -> v <= w -> v / (c / 2) * len <= w / (c / 2) * len.
Proof.
  intros Hc Hl H. apply Rmult_le_compat_r; [assumption|].
  unfold Rdiv. apply Rmult_le_compat_r; [|assumption].
  apply Rlt_le, Rinv_0_lt_compat. lra.
Qed.

(** X10: on one canvas and one image list, the index [update] computes
    never goes down when the player gets wider. *)
Theorem sprite_index_monotone (p q : Player) :
  images p = images q -> canvas_width p = canvas_width q ->
  0 < canvas_width p ->
  width (p_sprite p) <= width (p_sprite q) ->
  (PlayerFrontend.sprite_index p <= PlayerFrontend.sprite_index q)%Z.
Proof.
  intros Hi Hc Hpos Hw. unfold PlayerFrontend.sprite_index, bounded.
  rewrite <- Hi, <- Hc.
  pose proof (@Math_round_monotone
                (width (p_sprite p) / (canvas_width p / 2) * INR (length (images p)))
                (width (p_sprite q) / (canvas_width p / 2) * INR (length (images p)))
                (@scaled_width_monotone _ _ _ _ Hpos (pos_INR _) Hw)).
  lia.
Qed.

Lemma sprite_index_monotone_witness :
  (PlayerFrontend.sprite_index small_player
   <= PlayerFrontend.sprite_index grown_player)%Z.
Proof.
  apply (@sprite_index_monotone small_player grown_player);
    try reflexivity; simpl; lra.
Defined.

(** X11: a player at least as wide as half the canvas shows the last image
    of its list, in the current revision and in the one before it. *)
Theorem sprite_index_last_when_full (p : Player) :
  images p <> [] -> 0 < canvas_width p ->
  canvas_width p / 2 <= width (p_sprite p) ->
  PlayerFrontend.sprite_index p = (Z.of_nat (length (images p)) - 1)%Z
  /\ PlayerPart000.sprite_index p = (Z.of_nat (length (images p)) - 1)%Z.
Proof.
  intros Hne Hpos Hw.
  assert (Hlen : (1 <= Z.of_nat (length (images p)))%Z).
  { destruct (images p); [congruence|]. simpl length. lia. }
  assert (Hround :
    (Z.of_nat (length (images p))
     <= JS.Math_round (width (p_sprite p) / (canvas_width p / 2)
                       * INR (length (images p)))%R)%Z).
  { unfold JS.Math_round. apply Int_part_ge_iff. rewrite <- INR_IZR_INZ.
    assert (H1 : 1 <= width (p_sprite p) / (canvas_width p / 2)).
    { unfold Rdiv at 1. apply Rmult_le_reg_r with (canvas_width p / 2); [lra|].
      rewrite Rmult_assoc, Rinv_l by lra. lra. }
    pose proof (pos_INR (length (images p))). nra. }
  unfold PlayerFrontend.sprite_index, PlayerPart000.sprite_index, bounded.
  split; lia.
Qed.

Lemma sprite_index_last_when_full_witness :
  PlayerFrontend.sprite_index oversize_player = 4%Z
  /\ PlayerPart000.sprite_index oversize_player = 4%Z.
Proof.
  apply (@sprite_index_last_when_full oversize_player).
  - discriminate.
  - simpl. lra.
  - simpl. lra.
Defined.

(** X12: in the revision without [bounded] the index is a valid one exactly
    when the player's width, as a fraction of half the canvas times the
    number of images, reaches one half; below that [update] reads
    [images[-1]]. *)
Theorem part000_index_valid_iff (p : Player) :
  images p <> [] ->
  ((0 <= PlayerPart000.sprite_index p <= Z.of_nat (length (images p)) - 1)%Z
   <-> / 2 <= width (p_sprite p) / (canvas_width p / 2)
               * INR (length (images p)))
  /\ ((PlayerPart000.sprite_index p < 0)%Z ->
      image (p_sprite (PlayerPart000.update p)) = None).
Proof.
  intros Hne.
  assert (Hlen : (1 <= Z.of_nat (length (images p)))%Z).
  { destruct (images p); [congruence|]. simpl length. lia. }
  split.
  - unfold PlayerPart000.sprite_index.
    set (i := width (p_sprite p) / (canvas_width p / 2)
              * INR (length (images p))).
    pose proof (Int_part_ge_iff (i + / 2) 1) as Hone.
    unfold JS.Math_round. split.
    + intros [Hlo _]. assert (H1 : (1 <= Int_part (i + / 2))%Z) by lia.
      apply Hone in H1. lra.
    + intros H. assert (H1 : (1 <= Int_part (i + / 2))%Z) by (apply Hone; lra).
      lia.
  - intros Hneg.
    cbn [PlayerPart000.update set_sprite set_image p_sprite image].
    unfold array_get. now apply Z.ltb_lt in Hneg as ->.
Qed.

Lemma part000_index_valid_iff_witness :
  (0 <= PlayerPart000.sprite_index grown_player <= 4)%Z.
Proof.
  apply (proj2 (proj1 (@part000_index_valid_iff grown_player
                         ltac:(discriminate)))).
  simpl. lra.
Defined.

(** The two revisions compute the same index up to the lower clamp:
    the current one answers 0 wherever the earlier one answers a negative
    number, and the same number elsewhere. *)
Theorem frontend_index_clamps_part000 (p : Player) :
  images p <> [] ->
  PlayerFrontend.sprite_index p = Z.max 0 (PlayerPart000.sprite_index p).
Proof.
  intros Hne.
  assert (Hlen : (1 <= Z.of_nat (length (images p)))%Z).
  { destruct (images p); [congruence|]. simpl length. lia. }
  unfold PlayerFrontend.sprite_index, PlayerPart000.sprite_index, bounded.
  lia.
Qed.

Lemma frontend_index_clamps_part000_witness :
  PlayerFrontend.sprite_index small_player
  = Z.max 0 (PlayerPart000.sprite_index small_player).
Proof.
  apply (@frontend_index_clamps_part000 small_player). discriminate.
Defined.



End PlayerMore.

(** ** The frame: further properties *)

Module GameMore.

Import Effects Game.

Section SweepBounds.

Variables (A St : Type).
Variable body : St -> A -> St * A * bool.

Lemma sweep_length_pair (l : list A) :
  (forall s, (length (fst (sweep body l s)) <= length l)%nat)
  /\ (forall a s, (length (fst (sweep body (a :: l) s)) <= S (length l))%nat).
Proof.
  induction l as [|b l [IH1 IH2]].
  - split; [intros; simpl; lia|]. intros a s. rewrite sweep_cons.
    destruct (snd (body s a)); simpl; lia.
  - split; [intros s; apply IH2|]. intros a s. rewrite sweep_cons.
    destruct (snd (body s a)); cbn [fst length].
    + specialize (IH1 (fst (fst (body s a)))). lia.
    + specialize (IH2 b (fst (fst (body s a)))). cbn [length] in *. lia.
Qed.

(** A counter that a pass of the body leaves alone or raises by one ends
    the loop at most the length of the array higher. *)
Variable count : St -> Z.

Hypothesis count_step :
  forall s a, (count s <= count (fst (fst (body s a))) <= count s + 1)%Z.

Lemma sweep_count_pair (l : list A) :
  (forall s, (count s <= count (snd (sweep body l s))
              <= count s + Z.of_nat (length l))%Z)
  /\ (forall a s, (count s <= count (snd (sweep body (a :: l) s))
                   <= count s + Z.of_nat (S (length l)))%Z).
Proof.
  induction l as [|b l [IH1 IH2]].
  - split; [intros; simpl; lia|]. intros a s. rewrite sweep_cons.
    pose proof (count_step s a).
    destruct (snd (body s a)); simpl; lia.
  - split; [intros s; apply IH2|]. intros a s. rewrite sweep_cons.
    pose proof (count_step s a).
    destruct (snd (body s a)); cbn [snd].
    + specialize (IH1 (fst (fst (body s a)))). cbn [length] in *. lia.
    + specialize (IH2 b (fst (fst (body s a)))). cbn [length] in *. lia.
Qed.

End SweepBounds.

Section FrameMore.

Variable U : BaseUtils.
Variable L : SpriteUtils.

(** *** The spawn step *)

Lemma spawn_shape (g : t) :
  entities (spawn U L g) = entities g
  \/ exists o,
       entities (spawn U L g) = entities g ++ [o]
       /\ Obstacle.munches o = 0%nat
       /\ Obstacle.active o = true
       /\ y (Obstacle.sprite o) = -200
       /\ speed (Obstacle.sprite o) = gameSpeed (state g)
       /\ (Obstacle.type o = Obstacle.weed
           <-> Z.rem (frame_count g) 600 = 0%Z).
Proof.
  unfold spawn, pick_location, draw.
  destruct (munchTime g || shouldAddObstacle g); [|now left].
  destruct (randomBetween U 0 (screen_right g - obstacleSize_width g) true (seed g))
    as [lx sd].
  match goal with |- context [inValidLocation L ?g1 ?loc] =>
    destruct (inValidLocation L g1 loc) end; cbn [negb andb]; [now left|].
  unfold munchTime. destruct (Z.eqb_spec (Z.rem (frame_count g) 600) 0) as [E|E];
    cbn [negb]; right.
  - eexists. split; [reflexivity|]. cbn. repeat split; trivial.
  - unfold add_food, draw. cbn [with_seed seed].
    destruct (pickImage U foodImage1 [foodImage2; foodImage3; foodImage4] sd)
      as [img sd'].
    eexists. split; [reflexivity|]. cbn. repeat split; trivial.
    + discriminate.
    + intros H. contradiction.
Qed.

(** X14: the spawn step never removes or reorders obstacles and adds at
    most one, at the end of the list; the newcomer starts 200 above the top
    with no munches, falls at the game speed, and is a weed exactly on the
    frames whose counter is a multiple of 600. *)
Theorem spawn_adds_at_most_one (g : t) :
  entities (spawn U L g) = entities g
  \/ exists o,
       entities (spawn U L g) = entities g ++ [o]
       /\ Obstacle.munches o = 0%nat
       /\ Obstacle.active o = true
       /\ y (Obstacle.sprite o) = -200
       /\ speed (Obstacle.sprite o) = gameSpeed (state g)
       /\ (Obstacle.type o = Obstacle.weed
           <-> Z.rem (frame_count g) 600 = 0%Z).
Proof. apply spawn_shape. Qed.

(** *** The states a frame goes through *)

Lemma check_game_over_state (g : t) :
  state (check_game_over U g)
  = (if JS.gt (width (p_sprite (player g))) (canvas_w g / 2)
     then setState (Some over) None (state g) else state g)
  /\ entities (check_game_over U g) = entities g
  /\ (JS.gt (width (p_sprite (player g))) (canvas_w g / 2) = false ->
      effects (check_game_over U g) = effects g).
Proof.
  unfold check_game_over, draw.
  destruct (JS.gt (width (p_sprite (player g))) (canvas_w g / 2)).
  - destruct (big_explosion U (player g) (seed g)) as [b sd].
    repeat split. discriminate.
  - repeat split.
Qed.

Lemma play_block_current (g : t) :
  current (state g) = play ->
  current (state (play_block U L g))
  = if JS.gt (width (p_sprite (player (before_check U L g)))) (canvas_w g / 2)
    then over else play.
Proof.
  intros Hplay.
  destruct (@GameFacts.before_check_fields U L g Hplay) as [Hcw [Hc _]].
  unfold play_block, move_player. cbn [with_player state].
  rewrite (proj1 (check_game_over_state (before_check U L g))), Hcw.
  destruct (JS.gt _ _); [reflexivity | exact Hc].
Qed.

Lemma play_frame_in_play (g : t) :
  current (state g) = play ->
  state (play_frame U L g) = state (play_block U L g).
Proof.
  intros Hplay. unfold play_frame. rewrite Hplay. cbn [is_tag].
  rewrite Hplay. cbn [is_tag].
  destruct (is_tag (current (state (play_block U L g))) over); reflexivity.
Qed.

(** X15: the only change of state a call of [play()] makes on its own is
    from play to over; in every other case the frame ends in the state it
    began in. *)
Theorem play_frame_transitions (g : t) :
  current (state (play_frame U L g)) = current (state g)
  \/ (current (state g) = play /\ current (state (play_frame U L g)) = over).
Proof.
  destruct (current (state g)) eqn:Hcur.
  - left. unfold play_frame.
    repeat (progress (rewrite ?Hcur; cbn [is_tag])).
    first [reflexivity | exact Hcur].
  - left. unfold play_frame. rewrite Hcur. cbn [is_tag].
    assert (Hr : current (state (ready_block g)) = ready).
    { unfold ready_block. destruct (matches_loading_or_over (prev (state g)));
        [reflexivity | exact Hcur]. }
    repeat (progress (rewrite ?Hr; cbn [is_tag])).
    first [reflexivity | exact Hr].
  - rewrite (play_frame_in_play g Hcur), (play_block_current g Hcur).
    destruct (JS.gt _ _); [right; now split | now left].
  - left. unfold play_frame.
    repeat (progress (rewrite ?Hcur; cbn [is_tag])).
    first [reflexivity | exact Hcur].
  - left. unfold play_frame.
    repeat (progress (rewrite ?Hcur; cbn [is_tag])).
    first [reflexivity | exact Hcur].
Qed.

(** X16: a frame of the play state ends the game exactly when its check
    finds the player wider than half the canvas; otherwise the frame ends in
    the play state and the check pushes no effect. *)
Theorem game_over_iff_oversize (g : t) :
  current (state g) = play ->
  (current (state (play_frame U L g)) = over
   <-> canvas_w g / 2 < width (p_sprite (player (before_check U L g))))
  /\ (width (p_sprite (player (before_check U L g))) <= canvas_w g / 2 ->
      current (state (play_frame U L g)) = play
      /\ effects (play_block U L g) = effects (before_check U L g)).
Proof.
  intros Hplay.
  rewrite (play_frame_in_play g Hplay), (play_block_current g Hplay).
  destruct (@GameFacts.before_check_fields U L g Hplay) as [Hcw _].
  split.
  - destruct (JS.gt _ _) eqn:E.
    + apply gt_true in E. now split.
    + apply gt_false in E. split; [discriminate | lra].
  - intros Hw. apply gt_false in Hw. rewrite Hw. split; [reflexivity|].
    unfold play_block, move_player. cbn [with_player effects].
    apply (proj2 (proj2 (check_game_over_state (before_check U L g)))).
    now rewrite Hcw.
Qed.

Lemma ready_block_current (g : t) :
  current (state g) = ready -> current (state (ready_block g)) = ready.
Proof.
  intros H. unfold ready_block.
  destruct (matches_loading_or_over (prev (state g))); [reflexivity | exact H].
Qed.

Lemma play_frame_cases (g : t) :
  play_frame U L g
  = match current (state g) with
    | loading | stop => g
    | ready => ready_block g
    | over => tick_effects g
    | play =>
        if is_tag (current (state (play_block U L g))) over
        then tick_effects (play_block U L g) else play_block U L g
    end.
Proof.
  unfold play_frame. destruct (current (state g)) eqn:Hcur; cbn [is_tag].
  - repeat (progress (rewrite ?Hcur; cbn [is_tag])). reflexivity.
  - pose proof (ready_block_current g Hcur) as Hr.
    repeat (progress (rewrite ?Hr; cbn [is_tag])). reflexivity.
  - repeat (progress (rewrite ?Hcur; cbn [is_tag])). reflexivity.
  - repeat (progress (rewrite ?Hcur; cbn [is_tag])). reflexivity.
  - repeat (progress (rewrite ?Hcur; cbn [is_tag])). reflexivity.
Qed.

(** *** Score and population *)

Lemma entity_body_score (g : t) (w : World) (a : Obstacle.t) :
  (score (w_state w) <= score (w_state (fst (fst (entity_body U L g w a))))
   <= score (w_state w) + 1)%Z.
Proof.
  unfold entity_body. cbn [fst].
  match goal with |- context [collideDistance L ?x ?y] =>
    destruct (collideDistance L x y) end; [|lia].
  unfold on_collision, push_burst, collision_burst.
  match goal with |- context [Obstacle.type ?e] =>
    destruct (Obstacle.type e) end;
    match goal with |- context [Burst_new U ?n ?i ?bx ?by_ ?vx ?vy ?r ?sd] =>
      destruct (Burst_new U n i bx by_ vx vy r sd) end;
    cbn [w_state setState score]; lia.
Qed.

Lemma update_entities_bounds (g : t) :
  (length (entities (update_entities U L g)) <= length (entities g))%nat
  /\ (score (state g) <= score (state (update_entities U L g))
      <= score (state g) + Z.of_nat (length (entities g)))%Z.
Proof.
  unfold update_entities. rewrite for_splice_0.
  match goal with |- context [sweep ?body ?xs ?w0] =>
    pose proof (proj1 (sweep_length_pair body xs) w0) as Hlen;
    pose proof (proj1 (@sweep_count_pair _ _ body
                         (fun w => score (w_state w))
                         (fun s a => entity_body_score g s a) xs) w0) as Hsc;
    destruct (sweep body xs w0) as [es w] end.
  cbn [fst snd w_state] in *.
  cbn [with_seed with_effects with_state with_player with_entities
       entities state].
  split; assumption.
Qed.

Lemma spawn_population (g : t) :
  (length (entities g) <= length (entities (spawn U L g))
   <= length (entities g) + 1)%nat.
Proof.
  destruct (spawn_shape g) as [E|[o [E _]]]; rewrite E;
    rewrite ?length_app; simpl; lia.
Qed.

(** X17: in one call of [play()] the score never goes down and rises by at
    most one per obstacle on the field, the newcomer of this frame included;
    the field never gains more than that one newcomer. *)
Theorem play_frame_score_bounds (g : t) :
  (score (state g) <= score (state (play_frame U L g))
   <= score (state g) + Z.of_nat (length (entities g)) + 1)%Z
  /\ (length (entities (play_frame U L g)) <= length (entities g) + 1)%nat.
Proof.
  assert (Hready : score (state (ready_block g)) = score (state g)
                   /\ entities (ready_block g) = entities g).
  { unfold ready_block. destruct (matches_loading_or_over (prev (state g)));
      split; reflexivity. }
  assert (Hblock :
    (score (state g) <= score (state (play_block U L g))
     <= score (state g) + Z.of_nat (length (entities g)) + 1)%Z
    /\ (length (entities (play_block U L g)) <= length (entities g) + 1)%nat).
  { unfold play_block, move_player. cbn [with_player state entities].
    destruct (check_game_over_state (before_check U L g)) as [Hst [Hen _]].
    rewrite Hst, Hen. unfold before_check.
    assert (He : score (state (enter_play g)) = score (state g)
                 /\ entities (enter_play g) = entities g).
    { unfold enter_play. destruct (prev (state g)) as [[ | | | | ]|];
        split; reflexivity. }
    destruct He as [He1 He2].
    destruct (GameFacts.spawn_fields U L (enter_play g)) as [Hs1 _].
    pose proof (spawn_population (enter_play g)) as Hpop.
    pose proof (update_entities_bounds
                  (tick_effects (spawn U L (enter_play g)))) as [Hlen Hsc].
    cbn [tick_effects with_effects entities state] in Hlen, Hsc.
    rewrite Hs1, He1 in Hsc. rewrite He2 in Hpop.
    assert (Hs : score (if JS.gt (width (p_sprite (player
                   (update_entities U L (tick_effects (spawn U L (enter_play g)))))))
                   (canvas_w (update_entities U L
                      (tick_effects (spawn U L (enter_play g)))) / 2)
                 then setState (Some over) None
                        (state (update_entities U L
                                  (tick_effects (spawn U L (enter_play g)))))
                 else state (update_entities U L
                               (tick_effects (spawn U L (enter_play g)))))
               = score (state (update_entities U L
                                 (tick_effects (spawn U L (enter_play g)))))).
    { destruct (JS.gt _ _); reflexivity. }
    rewrite Hs. split; lia. }
  rewrite play_frame_cases. destruct (current (state g)) eqn:Hcur.
  - split; lia.
  - destruct Hready as [Hs He]. rewrite Hs, He. split; lia.
  - destruct (is_tag (current (state (play_block U L g))) over);
      [cbn [tick_effects with_effects state entities]|]; exact Hblock.
  - cbn [tick_effects with_effects state entities]. split; lia.
  - split; lia.
Qed.

(** *** The effect loop *)

Lemma effect_sweep_alive (l : list Effect) :
  Forall (fun e => active e = true /\ particles e <> 0%nat) l ->
  fst (sweep effect_body l tt) = map (fun e => fst (tick e)) l.
Proof.
  induction l as [|e l IH]; intros H; [reflexivity|].
  inversion H as [|? ? [Ha Hp] Hl]; subst. rewrite sweep_cons.
  cbn [effect_body fst snd].
  rewrite (EffectsFacts.tick_active_nonempty _ Ha Hp). cbn [negb fst map].
  now rewrite IH.
Qed.

(** X18: when every effect in the list is active and still holds particles,
    the effect loop ticks each of them once, in order, and drops none. *)
Theorem tick_effects_all_alive (g : t) :
  Forall (fun e => active e = true /\ particles e <> 0%nat) (effects g) ->
  effects (tick_effects g) = map (fun e => fst (tick e)) (effects g).
Proof.
  intros H. unfold tick_effects. cbn [with_effects effects].
  rewrite for_splice_0. now apply effect_sweep_alive.
Qed.

(** X19: an effect in slot 0 that is inactive, or has run out of particles,
    is dropped by the effect loop on that very frame, and the effect behind
    it ends the loop in slot 0 without having been ticked. *)
Theorem tick_effects_drops_head (g : t) (e e2 : Effect) (rest : list Effect) :
  effects g = e :: e2 :: rest ->
  active e = false \/ particles e = 0%nat ->
  exists out, effects (tick_effects g) = e2 :: out.
Proof.
  intros Hfx Hdead. unfold tick_effects. cbn [with_effects effects].
  rewrite for_splice_0, Hfx, sweep_cons.
  assert (Hoff : snd (effect_body tt e) = true).
  { unfold effect_body. cbn [snd].
    destruct (active e) eqn:Ha.
    - destruct Hdead as [Hd|Hd]; [discriminate|].
      now rewrite (proj1 (EffectsFacts.tick_active_empty _ Ha Hd)).
    - rewrite (EffectsFacts.tick_inactive _ Ha). cbn [fst]. now rewrite Ha. }
  rewrite Hoff. cbn [fst]. eexists. reflexivity.
Qed.

End FrameMore.

Lemma tick_effects_all_alive_witness :
  effects (tick_effects (staged [EBurst two_live] play (Some play)))
  = [fst (tick (EBurst two_live))].
Proof.
  apply (@tick_effects_all_alive (staged [EBurst two_live] play (Some play))).
  repeat constructor. discriminate.
Defined.

Lemma tick_effects_drops_head_witness :
  exists out,
    effects (tick_effects (staged spent_then_live over (Some play)))
    = EBurst two_live :: out.
Proof.
  apply (@tick_effects_drops_head (staged spent_then_live over (Some play))
           (EBurst spent) (EBurst two_live) [] eq_refl).
  right. reflexivity.
Defined.

Lemma weed_on_bloated_before_check :
  width (p_sprite (player (before_check low_draws touching weed_on_bloated)))
  = 40.
Proof.
  unfold before_check, enter_play, spawn, munchTime, shouldAddObstacle,
    pick_location, draw, inValidLocation.
  cbn [weed_on_bloated with_player playing state prev frame_count entities
       length Nat.ltb Nat.leb orb low_draws randomBetween seed screen_right
       obstacleSize_width with_seed playerSize_width existsb touching
       getDistance fst snd].
  change (Z.rem 1 600 =? 0)%Z with false. cbn [orb].
  js_compare. cbn [orb negb andb].
  unfold tick_effects, update_entities.
  rewrite !for_splice_0.
  cbn [weed_on_bloated with_player with_seed playing effects entities player
       state seed].
  change (fst (sweep effect_body [] tt)) with (@nil Effect).
  cbn [weed_on_bloated with_player with_seed with_effects playing effects
       entities player state seed].
  match goal with |- context [sweep ?body [?a] ?w0] =>
    rewrite (surjective_pairing (sweep body [a] w0));
    replace (snd (sweep body [a] w0)) with (fst (fst (body w0 a)))
      by (rewrite sweep_cons; destruct (snd (body w0 a)); reflexivity)
  end.
  cbn [with_seed with_effects with_state with_player player].
  unfold entity_body, on_collision, push_burst.
  cbn [touching collideDistance move Obstacle.sprite a_weed Obstacle.new
       Obstacle.munch Obstacle.munches Obstacle.type fst snd w_player
       w_state w_effects w_seed].
  match goal with |- context [collision_burst ?U ?n ?i ?p ?r ?sd] =>
    destruct (collision_burst U n i p r sd) as [b sd'] end.
  reflexivity.
Qed.

(** C7 as stated fails: a frame of the play state that starts with the
    player 501 wide on a canvas of 1000, and on which a weed touches the
    player, ends in the play state; the only burst it pushes is the one of
    the collision. *)
Lemma weed_saves_oversize_player :
  current (state weed_on_bloated) = play
  /\ canvas_w weed_on_bloated / 2 < width (p_sprite (player weed_on_bloated))
  /\ current (state (play_frame low_draws touching weed_on_bloated)) = play
  /\ Forall small_burst
       (effects (play_frame low_draws touching weed_on_bloated)).
Proof.
  assert (Hplay : current (state weed_on_bloated) = play) by reflexivity.
  assert (Hfit : JS.gt (width (p_sprite (player (before_check low_draws touching
                                                   weed_on_bloated))))
                       (canvas_w weed_on_bloated / 2) = false).
  { rewrite weed_on_bloated_before_check. apply gt_false. simpl. lra. }
  assert (Hcur : current (state (play_block low_draws touching weed_on_bloated))
                 = play).
  { rewrite (@play_block_current low_draws touching _ Hplay), Hfit.
    reflexivity. }
  split; [exact Hplay|]. split; [simpl; lra|]. split.
  - rewrite (@play_frame_in_play low_draws touching _ Hplay). exact Hcur.
  - rewrite play_frame_cases, Hplay, Hcur. cbn [is_tag].
    unfold play_block, move_player. cbn [with_player effects].
    destruct (@GameFacts.before_check_fields low_draws touching _ Hplay)
      as [Hcw [_ [news [Hfx Hall]]]].
    rewrite (proj2 (proj2 (check_game_over_state low_draws
               (before_check low_draws touching weed_on_bloated))))
      by (rewrite Hcw; exact Hfit).
    rewrite Hfx. unfold tick_effects. rewrite for_splice_0. exact Hall.
Qed.

Lemma game_over_iff_oversize_witness :
  current (state (play_frame low_draws still (playing [] 40))) = play
  /\ effects (play_block low_draws still (playing [] 40))
     = effects (before_check low_draws still (playing [] 40)).
Proof.
  apply (proj2 (@game_over_iff_oversize low_draws still (playing [] 40)
                  eq_refl)).
  rewrite GameFacts.no_hit_keeps_player by reflexivity. simpl. lra.
Defined.

End GameMore.

(** ** Input, sound and scheduling *)

Module ShellFacts.

Import Game Shell ShellSamples.

(** *** Scheduling *)

(** X21: the scale a frame request stores lags one request behind: it is
    the screen scale times a hundredth of the interval the request before it
    measured.  So the request made on resuming still stores the scale of the
    last interval before the pause, the one after it stores 0, and so does
    the very first request, made while the rate is still [null]. *)
Theorem requestFrame_scale_lags (h1 h2 : Z) (t1 t2 : JS.number)
    (resumed : bool) (s : Shell.t) :
  frame_scale (game (requestFrame h2 t2 false (requestFrame h1 t1 resumed s)))
  = screen_scale s * (if resumed then 0 else t1 - frame_time s) * 0.01
  /\ frame_scale (game (requestFrame h2 t2 false (requestFrame h1 t1 true s))) = 0
  /\ frame_scale (game (requestFrame h1 t1 true s))
     = screen_scale s * to_number (frame_rate s) * 0.01
  /\ (frame_rate s = None ->
      frame_scale (game (requestFrame h1 t1 resumed s)) = 0).
Proof.
  cbn [requestFrame game with_frame frame_scale frame_rate screen_scale
       to_number frame_time].
  repeat split; try reflexivity; try lra.
  intros ->. cbn [to_number]. lra.
Qed.

Lemma requestFrame_scale_lags_witness :
  frame_scale (game (requestFrame 1 1016 false booting)) = 0.
Proof.
  apply (proj2 (proj2 (proj2 (requestFrame_scale_lags 1 2 1016 1032 false
                                booting)))).
  reflexivity.
Defined.

(** *** Pause and mute *)

(** Lay a shell open down to the fields of its state record. *)
Ltac open_shell s :=
  let cur := fresh "cur" in
  let pv := fresh "pv" in
  let pa := fresh "pa" in
  let mu := fresh "mu" in
  destruct s as [[? ? ? ? ? ? ? ? [cur pv ? ? pa mu] ? ? ? ? ? ?]
                   ? ? ? ? ? ? ? ? ? ?].

Lemma pause_outside_play h now (s : Shell.t) :
  current (state (game s)) <> play -> pause h now s = s.
Proof.
  intros H. unfold pause.
  destruct (current (state (game s))); try reflexivity. congruence.
Qed.

(** X22: [pause()] does nothing outside the play state.  In the play state
    it flips the paused flag and leaves the state tag, the score, the
    obstacles, the effects, the player and the input alone; pausing and
    resuming gives back the game as it was, up to the frame handle and the
    scale the new request stores. *)
Theorem pause_toggles (h1 h2 : Z) (t1 t2 : JS.number) (s : Shell.t) :
  (current (state (game s)) <> play -> pause h1 t1 s = s)
  /\ (current (state (game s)) = play ->
      paused (state (game (pause h1 t1 s))) = negb (paused (state (game s)))
      /\ current (state (game (pause h1 t1 s))) = play
      /\ prev (state (game (pause h1 t1 s))) = prev (state (game s))
      /\ score (state (game (pause h1 t1 s))) = score (state (game s))
      /\ entities (game (pause h1 t1 s)) = entities (game s)
      /\ effects (game (pause h1 t1 s)) = effects (game s)
      /\ player (game (pause h1 t1 s)) = player (game s))
  /\ (current (state (game s)) = play -> paused (state (game s)) = false ->
      game (pause h2 t2 (pause h1 t1 s))
      = with_frame (game s) h2
          (screen_scale s * to_number (frame_rate s) * 0.01)
      /\ frame_rate (pause h2 t2 (pause h1 t1 s)) = Some 0).
Proof.
  split; [apply pause_outside_play|]. split.
  - intros Hplay. open_shell s. cbn in Hplay. subst.
    destruct pa, mu; cbn; repeat split; reflexivity.
  - intros Hplay Hp. open_shell s. cbn in Hplay, Hp. subst.
    destruct mu; cbn; split; reflexivity.
Qed.

Lemma pause_toggles_witness :
  paused (state (game (pause 2 1016 (shell_of (playing [] 40) [music]))))
  = true
  /\ game (pause 3 2000 (pause 2 1016 (shell_of (playing [] 40) [music])))
     = with_frame (playing [] 40) 3 (0.8 * 16 * 0.01).
Proof.
  destruct (pause_toggles 2 3 1016 2000 (shell_of (playing [] 40) [music]))
    as [_ [Hflip Hback]].
  split.
  - apply (Hflip eq_refl).
  - apply (Hback eq_refl eq_refl).
Defined.

Lemma is_true_flip (v : option String.string) :
  is_true (Some (flipped v)) = negb (is_true v).
Proof. unfold flipped. destruct (is_true v); reflexivity. Qed.

Lemma mute_normal (s : Shell.t) :
  mute s
  = with_audio
      (with_game
         (with_storage s
            (setItem (storage s) (muted_key s)
               (flipped (storage s (muted_key s)))))
         (Game.with_state (game s)
            (set_muted (state (game s))
               (negb (is_true (storage s (muted_key s)))))))
      (playlist s) (paused_sounds s)
      (if negb (is_true (storage s (muted_key s))) then false
       else if negb (paused (state (game s))) then true
            else audio_running s).
Proof.
  open_shell s. unfold mute, muted_key, setItem.
  cbn [with_storage storage game prefix with_game Game.with_state state
       set_muted muted paused playlist paused_sounds audio_running
       with_audio].
  rewrite String.eqb_refl, is_true_flip.
  destruct (negb (is_true _)); cbn [negb]; [reflexivity|].
  destruct (negb pa); reflexivity.
Qed.

Lemma mute_muted (s : Shell.t) :
  muted (state (game (mute s)))
  = negb (is_true (storage s (muted_key s))).
Proof. rewrite mute_normal. reflexivity. Qed.

Lemma mute_fields (s : Shell.t) :
  prefix (mute s) = prefix s
  /\ storage (mute s)
     = setItem (storage s) (muted_key s)
         (flipped (storage s (muted_key s)))
  /\ paused (state (game (mute s))) = paused (state (game s))
  /\ current (state (game (mute s))) = current (state (game s))
  /\ playlist (mute s) = playlist s
  /\ audio_running (mute s)
     = if muted (state (game (mute s))) then false
       else if negb (paused (state (game s))) then true else audio_running s.
Proof. rewrite mute_normal. repeat split. Qed.

(** X23: [mute()] sets the flag in memory to the opposite of the flag
    stored under the game's own key, whatever the flag in memory was, and
    stores that opposite; it writes no other key.  When the two agreed
    before, as [init] leaves them, the flag in memory is thus flipped and
    they agree again. *)
Theorem mute_follows_storage (s : Shell.t) :
  muted (state (game (mute s)))
  = negb (is_true (storage s (muted_key s)))
  /\ muted_mirrors_storage (mute s)
  /\ (forall k', k' <> muted_key s ->
                 storage (mute s) k' = storage s k')
  /\ (muted_mirrors_storage s ->
      muted (state (game (mute s))) = negb (muted (state (game s)))
      /\ muted (state (game (mute (mute s)))) = muted (state (game s))).
Proof.
  destruct (mute_fields s) as [Hpre [Hsto _]].
  assert (Hm := mute_muted s).
  assert (Hmirror : muted_mirrors_storage (mute s)).
  { unfold muted_mirrors_storage, muted_key. rewrite Hm, Hpre, Hsto.
    unfold setItem, muted_key.
    now rewrite String.eqb_refl, is_true_flip. }
  split; [exact Hm|]. split; [exact Hmirror|]. split.
  - intros k' Hk. rewrite Hsto. unfold setItem.
    destruct (String.eqb_spec k' (muted_key s));
      [contradiction | reflexivity].
  - intros Hs. unfold muted_mirrors_storage in Hs. split.
    + now rewrite Hm, Hs.
    + rewrite (mute_muted (mute s)). unfold muted_mirrors_storage in Hmirror.
      rewrite <- Hmirror, Hm, Hs. now destruct (is_true _).
Qed.

Lemma mute_follows_storage_witness :
  muted (state (game (mute (shell_of (playing [] 40) [music])))) = true
  /\ muted (state (game (mute (mute (shell_of (playing [] 40) [music])))))
     = false.
Proof.
  destruct (mute_follows_storage (shell_of (playing [] 40) [music]))
    as [_ [_ [_ H]]].
  apply (H eq_refl).
Defined.

(** X24: [pause()] and [mute()] each keep the audio context in step with
    the two flags: if it ran exactly when the game was neither muted nor
    paused, it still does afterwards. *)
Theorem audio_stays_in_step (h : Z) (now : JS.number) (s : Shell.t) :
  audio_in_step s ->
  audio_in_step (pause h now s) /\ audio_in_step (mute s).
Proof.
  unfold audio_in_step. intros H. split.
  - open_shell s. cbn in H. subst.
    destruct cur, pa, mu; cbn; reflexivity.
  - destruct (mute_fields s) as [_ [_ [Hp [_ [_ Ha]]]]].
    rewrite Ha, Hp.
    destruct (muted (state (game (mute s)))); cbn [negb andb]; [reflexivity|].
    destruct (paused (state (game s))); cbn [negb]; [|reflexivity].
    rewrite H. now rewrite andb_false_r.
Qed.

Lemma audio_stays_in_step_witness :
  audio_in_step (pause 2 1016 (shell_of (playing [] 40) [music]))
  /\ audio_in_step (mute (shell_of (playing [] 40) [music])).
Proof.
  apply (@audio_stays_in_step 2 1016 (shell_of (playing [] 40) [music])).
  reflexivity.
Defined.

(** *** The playlist *)

Lemma key_eqb_eq (a b : SoundKey) : key_eqb a b = true <-> a = b.
Proof. destruct a, b; simpl; split; intros; congruence. Qed.

Lemma filter_key_twice (k k' : SoundKey) (l : list Sound) :
  filter (fun snd => key_eqb (key snd) k')
         (filter (fun snd => key_eqb (key snd) k) l)
  = if key_eqb k k' then filter (fun snd => key_eqb (key snd) k) l else [].
Proof.
  induction l as [|x l IH]; simpl; [now destruct (key_eqb k k')|].
  destruct (key_eqb (key x) k) eqn:E; [|exact IH].
  apply key_eqb_eq in E. simpl. rewrite E, IH.
  destruct (key_eqb k k'); reflexivity.
Qed.

(** After [stopPlayback(key)] the playlist holds exactly the sounds
    that were listed under that key, in their order, and each of them has
    been paused; the sounds under any other key have left the playlist
    without being paused.  A second call with the same key changes the
    playlist no further. *)
Theorem stopPlayback_keeps_the_key (k : SoundKey) (s : Shell.t) :
  (forall snd, In snd (playlist (stopPlayback k s))
               <-> In snd (playlist s) /\ key snd = k)
  /\ paused_sounds (stopPlayback k s)
     = paused_sounds s ++ map id (playlist (stopPlayback k s))
  /\ playlist (stopPlayback k (stopPlayback k s)) = playlist (stopPlayback k s).
Proof.
  split; [|split].
  - intros snd. cbn [stopPlayback with_audio playlist].
    rewrite filter_In, key_eqb_eq. reflexivity.
  - reflexivity.
  - cbn [stopPlayback with_audio playlist]. rewrite filter_key_twice.
    now rewrite (proj2 (key_eqb_eq k k) eq_refl).
Qed.

Section PlaybackFacts.

Variable random_id : Rand nat.

Lemma playback_playlist (k : SoundKey) (s : Shell.t) :
  playlist (playback random_id k s)
  = if muted (state (game s)) then playlist s
    else playlist s ++ [{| id := fst (random_id (seed (game s))); key := k |}].
Proof.
  unfold playback, draw. destruct (muted (state (game s))); [reflexivity|].
  destruct (random_id (seed (game s))). reflexivity.
Qed.

Lemma playback_paused (k : SoundKey) (s : Shell.t) :
  paused_sounds (playback random_id k s) = paused_sounds s.
Proof.
  unfold playback, draw. destruct (muted (state (game s))); [reflexivity|].
  destruct (random_id (seed (game s))). reflexivity.
Qed.

(** X25: the sound sequence of a game over, [playback] of the game-over
    sound followed by [stopPlayback] of the background music, leaves the
    playlist with the background music entries it had, all paused, and with
    nothing else: the game-over sound just started is not listed. *)
Theorem game_over_sounds (s : Shell.t) :
  playlist (stopPlayback backgroundMusic (playback random_id gameOverSound s))
  = filter (fun snd => key_eqb (key snd) backgroundMusic) (playlist s)
  /\ paused_sounds
       (stopPlayback backgroundMusic (playback random_id gameOverSound s))
     = paused_sounds s
       ++ map id (filter (fun snd => key_eqb (key snd) backgroundMusic)
                         (playlist s)).
Proof.
  cbn [stopPlayback with_audio playlist paused_sounds].
  rewrite playback_playlist, playback_paused.
  destruct (muted (state (game s))); [split; reflexivity|].
  rewrite filter_app. cbn [filter key key_eqb]. rewrite app_nil_r.
  split; reflexivity.
Qed.

(** X26: with the sound on, [playback] lists one more sound, at the end,
    under the key it was given; when that sound has played to its end the
    playlist is back to what it was, provided the id drawn for it was not in
    use.  With the sound off, [playback] does nothing. *)
Theorem playback_then_ended (k : SoundKey) (s : Shell.t) :
  (muted (state (game s)) = true -> playback random_id k s = s)
  /\ (muted (state (game s)) = false ->
      playlist (playback random_id k s)
      = playlist s ++ [{| id := fst (random_id (seed (game s))); key := k |}]
      /\ (~ In (fst (random_id (seed (game s)))) (map id (playlist s)) ->
          playlist (sound_ended (fst (random_id (seed (game s))))
                      (playback random_id k s))
          = playlist s)).
Proof.
  split.
  - intros H. unfold playback. now rewrite H.
  - intros H. rewrite playback_playlist, H. split; [reflexivity|].
    intros Hfresh. cbn [sound_ended with_audio playlist].
    rewrite playback_playlist, H, filter_app. cbn [filter id].
    rewrite Nat.eqb_refl. cbn [negb]. rewrite app_nil_r.
    induction (playlist s) as [|x l IH]; [reflexivity|].
    cbn [map In filter] in *.
    destruct (Nat.eqb_spec (id x) (fst (random_id (seed (game s))))) as [E|E].
    + exfalso. apply Hfresh. now left.
    + cbn [negb]. f_equal. apply IH. intros Hin. apply Hfresh. now right.
Qed.

End PlaybackFacts.

Lemma playback_then_ended_witness :
  playlist (sound_ended 100
              (playback counting_ids munchSound
                 (shell_of (playing [] 40) [music])))
  = [music].
Proof.
  apply (proj2 (proj2 (@playback_then_ended counting_ids munchSound
                         (shell_of (playing [] 40) [music])) eq_refl)).
  simpl. intros [H|[]]. discriminate.
Defined.

(** [stopPlaylist] walks the array it was called on. *)
Lemma stop_fold_empty (l : list Sound) (acc : Shell.t) :
  playlist acc = [] ->
  playlist (fold_left (fun a snd => stopPlayback (key snd) a) l acc) = []
  /\ paused_sounds (fold_left (fun a snd => stopPlayback (key snd) a) l acc)
     = paused_sounds acc.
Proof.
  revert acc; induction l as [|x l IH]; intros acc H; [now split|].
  cbn [fold_left]. destruct (IH (stopPlayback (key x) acc)) as [H1 H2].
  - cbn [stopPlayback with_audio playlist]. now rewrite H.
  - split; [exact H1|]. rewrite H2.
    cbn [stopPlayback with_audio paused_sounds]. rewrite H. simpl.
    now rewrite app_nil_r.
Qed.

Lemma stop_fold_one_key (k : SoundKey) (F : list Sound) (l : list Sound)
    (acc : Shell.t) :
  F <> [] -> Forall (fun snd => key snd = k) F -> playlist acc = F ->
  playlist (fold_left (fun a snd => stopPlayback (key snd) a) l acc)
  = (if forallb (fun snd => key_eqb (key snd) k) l then F else [])
  /\ incl (paused_sounds
             (fold_left (fun a snd => stopPlayback (key snd) a) l acc))
          (paused_sounds acc ++ map id F).
Proof.
  intros Hne HF. revert acc; induction l as [|x l IH]; intros acc Hacc.
  - split; [exact Hacc|]. cbn [fold_left]. apply incl_appl, incl_refl.
  - cbn [fold_left forallb].
    assert (Hfilter : forall k', filter (fun snd => key_eqb (key snd) k') F
                                 = if key_eqb k k' then F else []).
    { intros k'. clear - HF. induction HF as [|y F Hy HF IH]; simpl.
      - now destruct (key_eqb k k').
      - rewrite Hy, IH. now destruct (key_eqb k k'). }
    destruct (key_eqb (key x) k) eqn:E.
    + apply key_eqb_eq in E.
      destruct (IH (stopPlayback (key x) acc)) as [H1 H2].
      * cbn [stopPlayback with_audio playlist]. rewrite Hacc, Hfilter, E.
        now rewrite (proj2 (key_eqb_eq k k) eq_refl).
      * split; [exact H1|].
        intros i Hi. apply H2 in Hi.
        cbn [stopPlayback with_audio paused_sounds] in Hi.
        rewrite Hacc, Hfilter, E, (proj2 (key_eqb_eq k k) eq_refl) in Hi.
        apply in_app_or in Hi. destruct Hi as [Hi|Hi]; [exact Hi|].
        apply in_or_app. now right.
    + assert (Hk : key_eqb k (key x) = false).
      { destruct (key_eqb k (key x)) eqn:E'; [|reflexivity].
        apply key_eqb_eq in E'. subst.
        now rewrite (proj2 (key_eqb_eq (key x) (key x)) eq_refl) in E. }
      destruct (@stop_fold_empty l (stopPlayback (key x) acc)) as [H1 H2].
      * cbn [stopPlayback with_audio playlist]. now rewrite Hacc, Hfilter, Hk.
      * split; [exact H1|]. rewrite H2.
        cbn [stopPlayback with_audio paused_sounds].
        rewrite Hacc, Hfilter, Hk. simpl. rewrite app_nil_r.
        apply incl_appl, incl_refl.
Qed.

(** X27: [stopPlaylist()] empties the playlist unless every sound in it is
    listed under one key, in which case it leaves the playlist as it was;
    and the only sounds it pauses are those listed under the key of the
    first entry. *)
Theorem stopPlaylist_first_key_only (s : Shell.t) (first : Sound)
    (rest : list Sound) :
  playlist s = first :: rest ->
  playlist (stopPlaylist s)
  = (if forallb (fun snd => key_eqb (key snd) (key first)) rest
     then playlist s else [])
  /\ (forall i, In i (paused_sounds (stopPlaylist s)) ->
                In i (paused_sounds s)
                \/ exists snd, In snd (playlist s) /\ id snd = i
                                /\ key snd = key first).
Proof.
  intros Hpl. unfold stopPlaylist. rewrite Hpl. cbn [fold_left].
  set (F := filter (fun snd => key_eqb (key snd) (key first)) (first :: rest)).
  assert (HF : Forall (fun snd => key snd = key first) F).
  { apply Forall_forall. intros x Hx. apply filter_In in Hx.
    now apply key_eqb_eq. }
  assert (Hne : F <> []).
  { unfold F. cbn [filter].
    now rewrite (proj2 (key_eqb_eq (key first) (key first)) eq_refl). }
  destruct (@stop_fold_one_key (key first) F rest
              (stopPlayback (key first) s) Hne HF) as [H1 H2].
  { cbn [stopPlayback with_audio playlist]. now rewrite Hpl. }
  split.
  - rewrite H1.
    destruct (forallb (fun snd => key_eqb (key snd) (key first)) rest) eqn:E;
      [|reflexivity].
    unfold F. cbn [filter].
    rewrite (proj2 (key_eqb_eq (key first) (key first)) eq_refl). f_equal.
    clear - E. induction rest as [|x l IH]; [reflexivity|].
    cbn [forallb filter] in *. apply andb_prop in E. destruct E as [E1 E2].
    rewrite E1. f_equal. now apply IH.
  - intros i Hi. apply H2 in Hi.
    cbn [stopPlayback with_audio paused_sounds] in Hi.
    rewrite Hpl in Hi. fold F in Hi.
    assert (HinF : In i (map id F) ->
                   exists snd, In snd (first :: rest) /\ id snd = i
                               /\ key snd = key first).
    { intros H. apply in_map_iff in H. destruct H as [snd [Hid Hin]].
      exists snd. unfold F in Hin. apply filter_In in Hin.
      destruct Hin as [Hin Hk]. repeat split; try assumption.
      now apply key_eqb_eq. }
    apply in_app_or in Hi. destruct Hi as [Hi|Hi]; [|right; now apply HinF].
    apply in_app_or in Hi. destruct Hi as [Hi|Hi];
      [now left | right; now apply HinF].
Qed.

Lemma stopPlaylist_first_key_only_witness :
  playlist (stopPlaylist (shell_of (playing [] 40) [music; munching])) = []
  /\ (forall i,
        In i (paused_sounds
                (stopPlaylist (shell_of (playing [] 40) [music; munching]))) ->
        i = 7%nat).
Proof.
  destruct (@stopPlaylist_first_key_only
              (shell_of (playing [] 40) [music; munching]) music [munching]
              eq_refl) as [Hpl Hp].
  split; [exact Hpl|].
  intros i Hi. destruct (Hp i Hi) as [[]|[snd [Hin [Hid Hk]]]].
  destruct Hin as [<-|[<-|[]]]; [now rewrite <- Hid | discriminate].
Defined.

(** *** Input *)

Section KeyboardFacts.

Variable load : Shell.t -> Shell.t.

(** X28: the keyboard.  Outside the play state a key release changes nothing,
    and neither does a key press while loading or stopped.  In the play
    state pressing and then releasing an arrow leaves that direction off and
    everything else as it was, and releasing the space bar is [pause()].  Any
    key pressed in the ready state starts the play state, with [prev] set
    to ready and the input untouched; a key pressed in the over state calls
    [load()] exactly when one effect is left. *)
Theorem keyboard_input (h : Z) (now : JS.number) (code : KeyCode) (s : Shell.t) :
  (current (state (game s)) <> play ->
   handleKeyboardInput load h now keyup code s = s)
  /\ (current (state (game s)) = loading \/ current (state (game s)) = stop ->
      handleKeyboardInput load h now keydown code s = s)
  /\ (current (state (game s)) = play ->
      handleKeyboardInput load h now keyup ArrowRight
        (handleKeyboardInput load h now keydown ArrowRight s)
      = with_game s (with_input (game s) (input_left (game s)) false)
      /\ handleKeyboardInput load h now keyup ArrowLeft
           (handleKeyboardInput load h now keydown ArrowLeft s)
         = with_game s (with_input (game s) false (input_right (game s)))
      /\ handleKeyboardInput load h now keyup Space s = pause h now s)
  /\ (current (state (game s)) = ready ->
      handleKeyboardInput load h now keydown code s
      = with_game s
          (Game.with_state (game s)
             (setState (Some play) None (state (game s)))))
  /\ (current (state (game s)) = over ->
      handleKeyboardInput load h now keydown code s
      = if (length (effects (game s)) =? 1)%nat then load s else s).
Proof.
  split; [|split; [|split; [|split]]].
  - intros H. open_shell s. cbn in H.
    destruct cur; cbn; try reflexivity. congruence.
  - intros [H|H]; open_shell s; cbn in H; subst; reflexivity.
  - intros H. open_shell s. cbn in H. subst. repeat split.
  - intros H. open_shell s. cbn in H. subst. reflexivity.
  - intros H. open_shell s. cbn in H. subst. reflexivity.
Qed.

End KeyboardFacts.

Lemma keyboard_input_witness :
  handleKeyboardInput (fun s => s) 2 1016 keyup ArrowRight
    (handleKeyboardInput (fun s => s) 2 1016 keydown ArrowRight
       (shell_of (playing [] 40) [music]))
  = shell_of (playing [] 40) [music].
Proof.
  destruct (keyboard_input (fun s => s) 2 1016 ArrowRight
              (shell_of (playing [] 40) [music]))
    as [_ [_ [H _]]].
  destruct (H eq_refl) as [Hr _]. rewrite Hr. reflexivity.
Defined.

(** X29: a tap is ignored until the frame counter has reached 60, in every
    state of the game.  From then on a touch that starts left of the centre
    line sets the input to left only, one right of it to right only, and one
    on the line changes nothing; the game state, the obstacles and the
    player are never touched. *)
Theorem tap_steers (lx : JS.number) (type : TapType) (s : Shell.t) :
  ((frame_count (game s) < 60)%Z -> handleTap type lx s = s)
  /\ ((60 <= frame_count (game s))%Z ->
      (lx < screen_centerX s ->
       input_left (game (handleTap tap_start lx s)) = true
       /\ input_right (game (handleTap tap_start lx s)) = false)
      /\ (screen_centerX s < lx ->
          input_left (game (handleTap tap_start lx s)) = false
          /\ input_right (game (handleTap tap_start lx s)) = true)
      /\ (lx = screen_centerX s ->
          input_left (game (handleTap tap_start lx s)) = input_left (game s)
          /\ input_right (game (handleTap tap_start lx s))
             = input_right (game s)))
  /\ state (game (handleTap type lx s)) = state (game s)
  /\ entities (game (handleTap type lx s)) = entities (game s)
  /\ player (game (handleTap type lx s)) = player (game s).
Proof.
  unfold handleTap.
  destruct (Z.ltb_spec (frame_count (game s)) 60) as [Hlt|Hge].
  - split; [reflexivity|]. split; [lia|]. repeat split.
  - split; [lia|]. split.
    + intros _. split; [|split].
      * intros H.
        replace (JS.gt lx (screen_centerX s)) with false
          by (symmetry; apply gt_false; lra).
        replace (JS.lt lx (screen_centerX s)) with true
          by (symmetry; apply lt_true; lra).
        split; reflexivity.
      * intros H.
        replace (JS.gt lx (screen_centerX s)) with true
          by (symmetry; apply gt_true; lra).
        replace (JS.lt lx (screen_centerX s)) with false
          by (symmetry; apply lt_false; lra).
        split; reflexivity.
      * intros H.
        replace (JS.gt lx (screen_centerX s)) with false
          by (symmetry; apply gt_false; lra).
        replace (JS.lt lx (screen_centerX s)) with false
          by (symmetry; apply lt_false; lra).
        split; reflexivity.
    + destruct type; [|repeat split].
      destruct (JS.gt lx (screen_centerX s)), (JS.lt lx (screen_centerX s));
        repeat split.
Qed.

Lemma tap_steers_witness :
  handleTap tap_start 100 (shell_of (playing [] 40) [music])
  = shell_of (playing [] 40) [music]
  /\ input_left
       (game (handleTap tap_start 100
                (shell_of (Shell.with_frame (playing [] 40) 90 1) [music])))
     = true.
Proof.
  split.
  - apply (proj1 (@tap_steers 100 tap_start
                    (shell_of (playing [] 40) [music]))).
    reflexivity.
  - destruct (proj1 (proj2 (@tap_steers 100 tap_start
             (shell_of (Shell.with_frame (playing [] 40) 90 1) [music]))))
      as [Hleft _].
    + simpl. lia.
    + apply Hleft. simpl. lra.
Defined.

(** X30: a click while the game is loading is ignored.  In any other state,
    the over and stop states included, a click on the start button puts the
    game in the play state with [prev] set to the state it was in, and
    leaves the score, the obstacles, the effects and the player as they
    are. *)
Theorem click_start (h : Z) (now : JS.number) (target : ClickTarget)
    (s : Shell.t) :
  (current (state (game s)) = loading -> handleClicks h now target s = s)
  /\ (current (state (game s)) <> loading ->
      current (state (game (handleClicks h now start_button s))) = play
      /\ prev (state (game (handleClicks h now start_button s)))
         = Some (current (state (game s)))
      /\ score (state (game (handleClicks h now start_button s)))
         = score (state (game s))
      /\ entities (game (handleClicks h now start_button s))
         = entities (game s)
      /\ effects (game (handleClicks h now start_button s)) = effects (game s)
      /\ player (game (handleClicks h now start_button s)) = player (game s)).
Proof.
  split.
  - intros H. unfold handleClicks. now rewrite H.
  - intros H. unfold handleClicks.
    destruct (current (state (game s))) eqn:E; try congruence;
      cbn [is_tag]; repeat split; cbn; now rewrite ?E.
Qed.

Lemma click_start_witness :
  current (state (game (handleClicks 2 1016 start_button
                          (shell_of (staged [] over (Some play)) [music]))))
  = play
  /\ prev (state (game (handleClicks 2 1016 start_button
                          (shell_of (staged [] over (Some play)) [music]))))
     = Some over.
Proof.
  destruct (proj2 (click_start 2 1016 start_button
                     (shell_of (staged [] over (Some play)) [music]))
              ltac:(discriminate)) as [H1 [H2 _]].
  split; assumption.
Defined.

(** *** A whole call of [play()] *)

Lemma with_game_same (s : Shell.t) : with_game s (game s) = s.
Proof. destruct s; reflexivity. Qed.



End ShellFacts.
